(** * ShadowPay SDK: the private-payment protocol core

    A shallow embedding of the ShadowPay SDK: the cryptographic core
    (packages/core/src/crypto), the client (packages/client/src) and the
    server helpers (packages/server/src).

    Definitions, one module per source file:
    - [Js]             the JavaScript values and built-ins the code relies
                       on (strings, [BigInt], [toString(radix)],
                       [TextEncoder]);
    - [Runtime]        errors, the effects of the core (Poseidon,
                       randomness, console, the Groth16 prover) as a free
                       monad, and its interpretation in a world;
    - [Poseidon], [Utils], [Commitment], [Nullifier], [ElGamal]
                       crypto/poseidon.ts, utils.ts, commitment.ts,
                       nullifier.ts and elgamal.ts, the last one over the
                       interface [Curve] of the curve library;
    - [ProofGenerator] client/src/proof-generator.ts;
    - [Client], [ClientOrder], [ClientPayload], [ClientStorage]
                       client/src/ShadowPayClient.ts: the job structure
                       of [ShadowPay.pay], the values it derives, the
                       inputs of the proof, and what it keeps in
                       [localStorage];
    - [PoseidonExports] the other exports of crypto/poseidon.ts;
    - [Http], [ApiClient]
                       JSON values, [fetch] answers and
                       client/src/api-client.ts;
    - [Server]         server/src: ShadowPayServer.ts, middleware.ts and
                       webhooks.ts.

    The facts follow the definitions. *)

From Stdlib Require Import ZArith NArith List String Ascii Bool Lia.
From Stdlib.Strings Require Import Byte.
Import ListNotations.
Local Open Scope Z_scope.

(* ===================================================================== *)
(** * JavaScript values and built-ins *)
(* ===================================================================== *)

Module Js.

(** A JS string is a sequence of UTF-16 code units. *)
Definition jsstring := list N.

(** The code units of an ASCII literal. *)
Definition js (s : string) : jsstring :=
  map N_of_ascii (list_ascii_of_string s).

(** [a === b] on strings. *)
Fixpoint streq (a b : jsstring) : bool :=
  match a, b with
  | [], [] => true
  | x :: a', y :: b' => N.eqb x y && streq a' b'
  | _, _ => false
  end.

(** [s.startsWith(prefix)] *)
Fixpoint startsWith (s prefix : jsstring) : bool :=
  match prefix, s with
  | [], _ => true
  | p :: prefix', c :: s' => N.eqb c p && startsWith s' prefix'
  | _ :: _, [] => false
  end.

(** [s.slice(0, k)] and [s.slice(k)] for a non-negative [k]. *)
Definition slice_to (k : nat) (s : jsstring) : jsstring := firstn k s.
Definition slice_from (k : nat) (s : jsstring) : jsstring := skipn k s.

(** [s.padStart(len, c)] for a one-unit filler. *)
Definition padStart (len : nat) (c : N) (s : jsstring) : jsstring :=
  repeat c (len - List.length s) ++ s.

(** The code units [BigInt(string)] trims: WhiteSpace and LineTerminator. *)
Definition is_space (c : N) : bool :=
  let z := Z.of_N c in
  ((9 <=? z) && (z <=? 13)) || (z =? 32) || (z =? 160) || (z =? 5760)
  || ((8192 <=? z) && (z <=? 8202)) || (z =? 8232) || (z =? 8233)
  || (z =? 8239) || (z =? 8287) || (z =? 12288) || (z =? 65279).

Fixpoint trimStart (s : jsstring) : jsstring :=
  match s with
  | [] => []
  | c :: s' => if is_space c then trimStart s' else s
  end.

Fixpoint trimEnd (s : jsstring) : jsstring :=
  match s with
  | [] => []
  | c :: s' =>
      match trimEnd s' with
      | [] => if is_space c then [] else [c]
      | t => c :: t
      end
  end.

Definition trim (s : jsstring) : jsstring := trimEnd (trimStart s).

(** The value of a digit in a radix up to 36, as BigInt literals and
    [parseInt] read it: 0-9, then letters of either case. *)
Definition digit_value (radix : Z) (c : N) : option Z :=
  let z := Z.of_N c in
  let d := if (48 <=? z) && (z <=? 57) then z - 48
           else if (97 <=? z) && (z <=? 122) then z - 87
           else if (65 <=? z) && (z <=? 90) then z - 55
           else radix in
  if d <? radix then Some d else None.

Fixpoint parse_digits (radix : Z) (s : jsstring) (acc : Z) : option Z :=
  match s with
  | [] => Some acc
  | c :: s' =>
      match digit_value radix c with
      | Some d => parse_digits radix s' (acc * radix + d)
      | None => None
      end
  end.

(** One or more digits of the radix. *)
Definition parse_radix (radix : Z) (s : jsstring) : option Z :=
  match s with
  | [] => None
  | _ :: _ => parse_digits radix s 0
  end.

(** [StringToBigInt]: [None] stands for the SyntaxError [BigInt(s)] throws.
    The text is trimmed; the empty text is 0; a 0x, 0o or 0b prefix (either
    case) introduces an unsigned literal; otherwise an optional sign and
    decimal digits. *)
Definition StringToBigInt (s : jsstring) : option Z :=
  match trim s with
  | [] => Some 0
  | c0 :: rest =>
      match rest with
      | c1 :: ds =>
          if N.eqb c0 48 && (N.eqb c1 120 || N.eqb c1 88) then parse_radix 16 ds
          else if N.eqb c0 48 && (N.eqb c1 111 || N.eqb c1 79) then parse_radix 8 ds
          else if N.eqb c0 48 && (N.eqb c1 98 || N.eqb c1 66) then parse_radix 2 ds
          else if N.eqb c0 43 then parse_radix 10 rest
          else if N.eqb c0 45 then option_map Z.opp (parse_radix 10 rest)
          else parse_radix 10 (c0 :: rest)
      | [] => parse_radix 10 [c0]
      end
  end.

(** The digit characters of [toString(radix)]: 0-9 then a-z. *)
Definition digit_char (d : Z) : N :=
  if d <? 10 then Z.to_N (48 + d) else Z.to_N (87 + d).

(** [c] is the character of a digit below [radix]. *)
Definition digit_unit (radix : Z) (c : N) : Prop :=
  exists d, 0 <= d < radix /\ c = digit_char d.

Fixpoint to_radix (fuel : nat) (radix n : Z) (acc : jsstring) : jsstring :=
  match fuel with
  | O => acc
  | S fuel' =>
      let acc' := digit_char (n mod radix) :: acc in
      if n <? radix then acc' else to_radix fuel' radix (n / radix) acc'
  end.

(** The digits of a non-negative [n]; the fuel exceeds its bit length. *)
Definition render (radix n : Z) : jsstring :=
  to_radix (S (Z.to_nat (Z.log2 n))) radix n [].

(** [n.toString(radix)] on a bigint: a minus sign, then the digits. *)
Definition toString (radix n : Z) : jsstring :=
  if n <? 0 then 45%N :: render radix (- n) else render radix n.

(** [/[a-fA-F]/.test(s)] *)
Definition is_hex_letter (c : N) : bool :=
  let z := Z.of_N c in
  ((97 <=? z) && (z <=? 102)) || ((65 <=? z) && (z <=? 70)).

Definition has_hex_letter (s : jsstring) : bool := existsb is_hex_letter s.

(** [s.toUpperCase()] on the ASCII letters. *)
Definition upper_unit (c : N) : N :=
  if (97 <=? Z.of_N c) && (Z.of_N c <=? 122) then (c - 32)%N else c.
Definition toUpperCaseAscii (s : jsstring) : jsstring := map upper_unit s.

(** A [Uint8Array] element: storing a number keeps it modulo 256. *)
Definition u8 (n : N) : byte :=
  match Byte.of_N (n mod 256) with
  | Some b => b
  | None => Byte.x00
  end.

Definition byte_val (b : byte) : Z := Z.of_N (Byte.to_N b).

Definition is_high_surrogate (c : N) : bool := (55296 <=? c)%N && (c <=? 56319)%N.
Definition is_low_surrogate (c : N) : bool := (56320 <=? c)%N && (c <=? 57343)%N.

(** UTF-8 of one code point. *)
Definition utf8_point (cp : N) : list byte :=
  if (cp <? 128)%N then [u8 cp]
  else if (cp <? 2048)%N then
    [u8 (N.lor 192 (N.shiftr cp 6)); u8 (N.lor 128 (N.land cp 63))]
  else if (cp <? 65536)%N then
    [u8 (N.lor 224 (N.shiftr cp 12));
     u8 (N.lor 128 (N.land (N.shiftr cp 6) 63));
     u8 (N.lor 128 (N.land cp 63))]
  else
    [u8 (N.lor 240 (N.shiftr cp 18));
     u8 (N.lor 128 (N.land (N.shiftr cp 12) 63));
     u8 (N.lor 128 (N.land (N.shiftr cp 6) 63));
     u8 (N.lor 128 (N.land cp 63))].

(** [new TextEncoder().encode(s)]: a surrogate pair is one code point, a
    lone surrogate is replaced by U+FFFD. *)
Fixpoint TextEncoder_encode (s : jsstring) : list byte :=
  match s with
  | [] => []
  | c :: rest =>
      if is_high_surrogate c then
        match rest with
        | d :: rest' =>
            if is_low_surrogate d
            then utf8_point (65536 + (c - 55296) * 1024 + (d - 56320))%N
                   ++ TextEncoder_encode rest'
            else utf8_point 65533 ++ TextEncoder_encode rest
        | [] => utf8_point 65533
        end
      else if is_low_surrogate c then utf8_point 65533 ++ TextEncoder_encode rest
      else utf8_point c ++ TextEncoder_encode rest
  end.

(** A JS [number] as [BigInt(number)] reads it: an integral value, or a
    value that is not one (a fraction, NaN, an infinity). *)
Inductive number :=
| Integral (z : Z)
| NotIntegral.

End Js.
Import Js.


(* ===================================================================== *)
(** * Errors and effects *)
(* ===================================================================== *)

Module Runtime.

(** The exceptions the code can raise.  [Error m] is [new Error(m)];
    [SyntaxError] is what [BigInt(string)] throws on a malformed literal and
    [RangeError] what [BigInt(number)] throws on a non-integer;
    [CurveError] is the error raised inside the curve library when a scalar
    is out of range; [ProofGenerationError e] is the client's wrapper, whose
    message is "Failed to generate ZK proof: " followed by the message of
    its cause [e]. *)
Inductive jsError :=
| Error (message : jsstring)
| SyntaxError
| RangeError
| CurveError
| ProofGenerationError (cause : jsError).

(** The input object handed to [snarkjs.groth16.fullProve]. *)
Record CircuitInputs := {
  sender_commitment : jsstring;
  sender_secret : jsstring;
  receiver_commitment : jsstring;
  amount : jsstring;
  token_mint : jsstring;
  salt : jsstring;
  merkle_path : list jsstring;
  path_indices : list number;
  encrypted_amount_c1 : jsstring;
  encrypted_amount_c2 : jsstring;
  elgamal_randomness : jsstring;
  shadowid_root : jsstring;
  max_amount : jsstring;
  receiver_elgamal_pubkey : jsstring
}.

(** [{ proof, publicSignals }]; the proof object is opaque to the SDK. *)
Record GeneratedProof := {
  proof : jsstring;
  publicSignals : list jsstring
}.

(** What a call into the environment gives back. *)
Inductive outcome (A : Type) :=
| Returned (a : A)
| Thrown (e : jsError).
Arguments Returned {A} a.
Arguments Thrown {A} e.

(** The calls that leave the SDK: the Poseidon permutation of circomlibjs,
    the platform's random source, the console, and the Groth16 prover. *)
Inductive event : Type -> Type :=
| HashPoseidon (inputs : list Z) : event Z
| RandomBytes (len : nat) : event (list byte)
| ConsoleWarn (msg : jsstring) : event unit
| FullProve (ci : CircuitInputs) : event (outcome GeneratedProof).

(** A computation: it returns, throws, or calls out and goes on with the
    answer. *)
Inductive prog (A : Type) : Type :=
| Ret (a : A)
| Throw (e : jsError)
| Vis (X : Type) (ev : event X) (k : X -> prog A).
Arguments Ret {A} a.
Arguments Throw {A} e.
Arguments Vis {A X} ev k.

Fixpoint bind {A B : Type} (p : prog A) (f : A -> prog B) : prog B :=
  match p with
  | Ret a => f a
  | Throw e => Throw e
  | Vis ev k => Vis ev (fun x => bind (k x) f)
  end.

(** [try { p } catch (e) { h e }] *)
Fixpoint catch {A : Type} (p : prog A) (h : jsError -> prog A) : prog A :=
  match p with
  | Ret a => Ret a
  | Throw e => h e
  | Vis ev k => Vis ev (fun x => catch (k x) h)
  end.

Definition trigger {X : Type} (ev : event X) : prog X := Vis ev Ret.

Declare Scope prog_scope.
Delimit Scope prog_scope with prog.
Notation "x <- p ;; q" := (bind p (fun x => q))
  (at level 61, p at next level, right associativity) : prog_scope.
Notation "p ;;; q" := (bind p (fun _ => q))
  (at level 61, right associativity) : prog_scope.
Local Open Scope prog_scope.

(** [BigInt(s)] on a string and on a number. *)
Definition BigInt (s : jsstring) : prog Z :=
  match StringToBigInt s with
  | Some v => Ret v
  | None => Throw SyntaxError
  end.

Definition BigInt_of_number (x : number) : prog Z :=
  match x with
  | Integral z => Ret z
  | NotIntegral => Throw RangeError
  end.

(** [randomBytes(len)] of @noble/hashes, [crypto.getRandomValues] *)
Definition randomBytes (len : nat) : prog (list byte) := trigger (RandomBytes len).

Definition console_warn (msg : jsstring) : prog unit := trigger (ConsoleWarn msg).

(** [await snarkjs.groth16.fullProve(inputs, wasm, zkey)] *)
Definition fullProve (ci : CircuitInputs) : prog GeneratedProof :=
  Vis (FullProve ci) (fun r =>
    match r with
    | Returned g => Ret g
    | Thrown e => Throw e
    end).

(** The environment a computation runs in: the hash, an endless supply of
    random bytes, and the prover. *)
Record World := {
  poseidon : list Z -> Z;
  entropy : nat -> byte;
  groth16 : CircuitInputs -> outcome GeneratedProof
}.

(** What a run has used and left behind: how many random bytes were drawn,
    and, latest first, the console warnings, the inputs of every Poseidon
    call the library took and the inputs of every call of the prover. *)
Record Machine := {
  drawn : nat;
  console : list jsstring;
  hashed : list (list Z);
  proved : list CircuitInputs
}.

Definition boot : Machine :=
  {| drawn := 0; console := []; hashed := []; proved := [] |}.

Definition draw (w : World) (from len : nat) : list byte :=
  map (entropy w) (seq from len).

Fixpoint run {A : Type} (w : World) (p : prog A) (m : Machine) : outcome A * Machine :=
  match p with
  | Ret a => (Returned a, m)
  | Throw e => (Thrown e, m)
  | Vis ev k =>
      match ev in event X return (X -> prog A) -> outcome A * Machine with
      | HashPoseidon inputs => fun k =>
          run w (k (poseidon w inputs))
              {| drawn := drawn m; console := console m;
                 hashed := inputs :: hashed m; proved := proved m |}
      | RandomBytes len => fun k =>
          run w (k (draw w (drawn m) len))
              {| drawn := drawn m + len; console := console m;
                 hashed := hashed m; proved := proved m |}
      | ConsoleWarn msg => fun k =>
          run w (k tt)
              {| drawn := drawn m; console := msg :: console m;
                 hashed := hashed m; proved := proved m |}
      | FullProve ci => fun k =>
          run w (k (groth16 w ci))
              {| drawn := drawn m; console := console m;
                 hashed := hashed m; proved := ci :: proved m |}
      end k
  end.

(** The result of a run from a fresh machine. *)
Definition result_of {A : Type} (w : World) (p : prog A) : outcome A :=
  fst (run w p boot).

End Runtime.
Import Runtime.
Local Open Scope prog_scope.

(* ===================================================================== *)
(** * packages/core/src/crypto/poseidon.ts *)
(* ===================================================================== *)

Module Poseidon.

(** The error of circomlibjs for an input of no element or of more than
    16 elements. *)
Definition poseidon_size_error : jsError := Error (js "Invalid poseidon size").

(** [hashPoseidon(inputs)]: the circomlibjs permutation, read back as a
    bigint.  The library takes 1 to 16 inputs and throws on any other
    number of them. *)
Definition hashPoseidon (inputs : list Z) : prog Z :=
  if ((1 <=? List.length inputs) && (List.length inputs <=? 16))%nat
  then trigger (HashPoseidon inputs)
  else Throw poseidon_size_error.

(** The loop [result = (result << 8n) | BigInt(bytes[i])] over all bytes,
    shared by [hashPoseidonBytes], [stringToBigInt] and [bytesToNumberBE]. *)
Definition be_step (result : Z) (b : byte) : Z :=
  Z.lor (Z.shiftl result 8) (byte_val b).

Definition be_bytes (bytes : list byte) : Z := fold_left be_step bytes 0.

End Poseidon.
Import Poseidon.

(* ===================================================================== *)
(** * packages/core/src/crypto/utils.ts *)
(* ===================================================================== *)

Module Utils.

Definition BN254_FIELD_MODULUS : Z :=
  21888242871839275222246405745257275088548364400416034343698204186575808495617.

(** [toBigInt(value)]: hex with a 0x prefix, hex recognised by a letter
    a-f, decimal otherwise. *)
Definition toBigInt (value : jsstring) : prog Z :=
  match value with
  | [] => Throw (Error (js "Cannot convert empty string to BigInt"))
  | _ :: _ =>
      if startsWith value (js "0x") then BigInt value
      else if has_hex_letter value then BigInt (js "0x" ++ value)
      else BigInt value
  end.

(** [b.toString(16).padStart(2, '0')] joined over the bytes. *)
Definition bytesToHex (bytes : list byte) : jsstring :=
  List.concat (map (fun b => padStart 2 48 (toString 16 (byte_val b))) bytes).

Definition generateRandomSecret : prog jsstring :=
  randomBytes <- randomBytes 32 ;;
  Ret (js "0x" ++ bytesToHex randomBytes).

Definition generateRandomSalt : prog jsstring := generateRandomSecret.

(** The bigint [value] of [addressToFieldElement] before it is printed:
    at most 31 bytes of the UTF-8 text, big-endian, then [% p]. *)
Definition addressFieldValue (address : jsstring) : Z :=
  let bytes := TextEncoder_encode address in
  let maxBytes := Nat.min (List.length bytes) 31 in
  let value := fold_left be_step (firstn maxBytes bytes) 0 in
  Z.rem value BN254_FIELD_MODULUS.

Definition addressToFieldElement (address : jsstring) : jsstring :=
  toString 10 (addressFieldValue address).

Definition computeSenderCommitment (walletPubkey secret : jsstring) : prog jsstring :=
  let walletFieldElement := addressToFieldElement walletPubkey in
  walletBigInt <- toBigInt walletFieldElement ;;
  secretBigInt <- toBigInt secret ;;
  commitment <- hashPoseidon [walletBigInt; secretBigInt] ;;
  Ret (toString 10 commitment).

Definition computePaymentCommitment
    (senderCommitment receiverCommitment : jsstring) (amount : Z)
    (tokenMint salt : jsstring) : prog jsstring :=
  let tokenFieldElement := addressToFieldElement tokenMint in
  senderBigInt <- toBigInt senderCommitment ;;
  receiverBigInt <- toBigInt receiverCommitment ;;
  tokenBigInt <- toBigInt tokenFieldElement ;;
  saltBigInt <- toBigInt salt ;;
  commitment <- hashPoseidon
    [senderBigInt; receiverBigInt; amount; tokenBigInt; saltBigInt] ;;
  Ret (toString 10 commitment).

Definition computePaymentNullifier (senderSecret paymentCommitment : jsstring)
    : prog jsstring :=
  secretBigInt <- toBigInt senderSecret ;;
  commitmentBigInt <- toBigInt paymentCommitment ;;
  nullifier <- hashPoseidon [secretBigInt; commitmentBigInt] ;;
  Ret (toString 10 nullifier).

End Utils.
Import Utils.

(* ===================================================================== *)
(** * packages/core/src/crypto/commitment.ts *)
(* ===================================================================== *)

Module Commitment.

Record PaymentCommitment := {
  value : jsstring;
  amount : number;
  recipient : jsstring;
  token : jsstring;
  nonce : jsstring
}.

(** [stringToBigInt(str)]: every byte of the UTF-8 text, big-endian. *)
Definition stringToBigInt (str : jsstring) : Z :=
  be_bytes (TextEncoder_encode str).

(** [nonce || bytesToHex(randomBytes(32))]: an absent or empty nonce is
    replaced by a fresh one. *)
Definition nonce_or_random (nonce : option jsstring) : prog jsstring :=
  match nonce with
  | Some (c :: rest) => Ret (c :: rest)
  | Some [] | None =>
      bytes <- randomBytes 32 ;;
      Ret (bytesToHex bytes)
  end.

Definition generateCommitment (amount : number) (recipient token : jsstring)
    (nonce : option jsstring) : prog PaymentCommitment :=
  nonceValue <- nonce_or_random nonce ;;
  amountBigInt <- BigInt_of_number amount ;;
  let recipientBigInt := stringToBigInt recipient in
  let tokenBigInt := stringToBigInt token in
  nonceBigInt <- BigInt (js "0x" ++ nonceValue) ;;
  commitmentHash <- hashPoseidon
    [amountBigInt; recipientBigInt; tokenBigInt; nonceBigInt] ;;
  Ret {| value := toString 16 commitmentHash;
         amount := amount;
         recipient := recipient;
         token := token;
         nonce := nonceValue |}.

Definition verifyCommitment (commitment : jsstring) (amount : number)
    (recipient token nonce : jsstring) : prog bool :=
  computed <- generateCommitment amount recipient token (Some nonce) ;;
  Ret (streq (value computed) commitment).

End Commitment.

(* ===================================================================== *)
(** * packages/core/src/crypto/nullifier.ts *)
(* ===================================================================== *)

Module Nullifier.

Record Nullifier := {
  value : jsstring;
  userSecret : jsstring;
  commitment : jsstring;
  index : number
}.

Definition generateNullifier (privateKey commitment : jsstring)
    (paymentIndex : number) : prog Nullifier :=
  userSecretBigInt <- BigInt (js "0x" ++ privateKey) ;;
  commitmentBigInt <- BigInt (js "0x" ++ commitment) ;;
  indexBigInt <- BigInt_of_number paymentIndex ;;
  nullifierHash <- hashPoseidon
    [userSecretBigInt; commitmentBigInt; indexBigInt] ;;
  Ret {| value := toString 16 nullifierHash;
         userSecret := privateKey;
         commitment := commitment;
         index := paymentIndex |}.

Definition verifyNullifier (nullifier privateKey commitment : jsstring)
    (paymentIndex : number) : prog bool :=
  computed <- generateNullifier privateKey commitment paymentIndex ;;
  Ret (streq (value computed) nullifier).

End Nullifier.

(* ===================================================================== *)
(** * packages/client/src/proof-generator.ts *)
(* ===================================================================== *)

Module ProofGenerator.

Definition BN254_FIELD_MODULUS : Z :=
  21888242871839275222246405745257275088548364400416034343698204186575808495617.

Record ProofInputs := {
  senderCommitment : jsstring;
  senderSecret : jsstring;
  receiverCommitment : jsstring;
  amount : Z;
  tokenMint : jsstring;
  salt : jsstring;
  merklePath : list jsstring;
  pathIndices : list number;
  encryptedC1 : jsstring;
  encryptedC2 : jsstring;
  elgamalRandomness : jsstring;
  shadowidRoot : jsstring;
  maxAmount : Z;
  receiverElGamalPubkey : jsstring
}.

(** The text of the warning: U+26A0 U+FE0F, then the name and the notice. *)
Definition modulo_warning (name : jsstring) : jsstring :=
  [9888%N; 65039%N] ++ js " " ++ name ++ js " exceeds field modulus, taking modulo".

Definition ensureFieldElement (value : Z) (name : jsstring) : prog Z :=
  if BN254_FIELD_MODULUS <=? value then
    console_warn (modulo_warning name) ;;;
    Ret (Z.rem value BN254_FIELD_MODULUS)
  else if value <? 0 then
    Throw (Error (name ++ js " cannot be negative: " ++ toString 10 value))
  else Ret value.

Definition pubkeyToFieldElement (pubkey : jsstring) : prog jsstring :=
  let clean := if startsWith pubkey (js "0x") then slice_from 2 pubkey else pubkey in
  let truncated := slice_to 62 clean in
  value <- BigInt (js "0x" ++ truncated) ;;
  fieldValue <- ensureFieldElement value (js "pubkeyToFieldElement") ;;
  Ret (js "0x" ++ padStart 64 48 (toString 16 fieldValue)).

Definition hexToBigInt (hex : jsstring) : prog Z :=
  let cleanHex := if startsWith hex (js "0x") then slice_from 2 hex else hex in
  BigInt (js "0x" ++ cleanHex).

Definition tokenMintFieldElement (tokenMint : jsstring) : prog jsstring :=
  if streq tokenMint (js "SOL") || streq tokenMint (js "0") then Ret (js "0")
  else if startsWith tokenMint (js "0x") || has_hex_letter tokenMint then
    v <- hexToBigInt tokenMint ;;
    Ret (toString 10 v)
  else Ret tokenMint.

(** [ensureFieldElement(hexToBigInt(hex), name).toString()] *)
Definition hex_field (hex name : jsstring) : prog jsstring :=
  v <- hexToBigInt hex ;;
  f <- ensureFieldElement v name ;;
  Ret (toString 10 f).

(** [ensureFieldElement(value, name).toString()] *)
Definition big_field (value : Z) (name : jsstring) : prog jsstring :=
  f <- ensureFieldElement value name ;;
  Ret (toString 10 f).

(** The object literal [circuitInputs], its properties in source order. *)
Definition buildCircuitInputs (inputs : ProofInputs) : prog CircuitInputs :=
  tokenMintFE <- tokenMintFieldElement (tokenMint inputs) ;;
  sc <- hex_field (senderCommitment inputs) (js "sender_commitment") ;;
  ss <- hex_field (senderSecret inputs) (js "sender_secret") ;;
  rc <- hex_field (receiverCommitment inputs) (js "receiver_commitment") ;;
  am <- big_field (amount inputs) (js "amount") ;;
  sa <- hex_field (salt inputs) (js "salt") ;;
  c1 <- hex_field (encryptedC1 inputs) (js "encrypted_amount_c1") ;;
  c2 <- hex_field (encryptedC2 inputs) (js "encrypted_amount_c2") ;;
  er <- hex_field (elgamalRandomness inputs) (js "elgamal_randomness") ;;
  sr <- hex_field (shadowidRoot inputs) (js "shadowid_root") ;;
  ma <- big_field (maxAmount inputs) (js "max_amount") ;;
  rk <- hex_field (receiverElGamalPubkey inputs) (js "receiver_elgamal_pubkey") ;;
  Ret {| sender_commitment := sc;
         sender_secret := ss;
         receiver_commitment := rc;
         Runtime.amount := am;
         token_mint := tokenMintFE;
         Runtime.salt := sa;
         merkle_path := merklePath inputs;
         path_indices := pathIndices inputs;
         encrypted_amount_c1 := c1;
         encrypted_amount_c2 := c2;
         elgamal_randomness := er;
         shadowid_root := sr;
         max_amount := ma;
         receiver_elgamal_pubkey := rk |}.

(** [Object.entries(circuitInputs)] without the two arrays the loop skips. *)
Definition scalar_entries (ci : CircuitInputs) : list (jsstring * jsstring) :=
  [ (js "sender_commitment", sender_commitment ci);
    (js "sender_secret", sender_secret ci);
    (js "receiver_commitment", receiver_commitment ci);
    (js "amount", Runtime.amount ci);
    (js "token_mint", token_mint ci);
    (js "salt", Runtime.salt ci);
    (js "encrypted_amount_c1", encrypted_amount_c1 ci);
    (js "encrypted_amount_c2", encrypted_amount_c2 ci);
    (js "elgamal_randomness", elgamal_randomness ci);
    (js "shadowid_root", shadowid_root ci);
    (js "max_amount", max_amount ci);
    (js "receiver_elgamal_pubkey", receiver_elgamal_pubkey ci) ].

Definition exceeds_error (key : jsstring) : jsError :=
  Error (js "Circuit input " ++ [34%N] ++ key ++ [34%N]
           ++ js " exceeds BN254 field modulus").

(** The loop that re-reads every scalar entry. *)
Fixpoint checkEntries (entries : list (jsstring * jsstring)) : prog unit :=
  match entries with
  | [] => Ret tt
  | (key, value) :: rest =>
      bigIntValue <- BigInt value ;;
      if BN254_FIELD_MODULUS <=? bigIntValue then Throw (exceeds_error key)
      else checkEntries rest
  end.

Definition generateProof (inputs : ProofInputs) : prog GeneratedProof :=
  catch
    (circuitInputs <- buildCircuitInputs inputs ;;
     checkEntries (scalar_entries circuitInputs) ;;;
     fullProve circuitInputs)
    (fun error => Throw (ProofGenerationError error)).

End ProofGenerator.

(* ===================================================================== *)
(** * The curve library: bn254.G1 of @noble/curves *)
(* ===================================================================== *)

Module Curve.

(** [{ x: bigint, y: bigint }] *)
Record AffinePoint := { x : Z; y : Z }.

(** [bn254.G1.CURVE.n], the order of the group. *)
Definition n : Z :=
  21888242871839275222246405745257275088548364400416034343698204186575808495617.

(** The part of [bn254.G1.ProjectivePoint] the SDK calls, with the contract
    the library documents.  G1 has prime order [n] and cofactor 1, so each
    of its points is [dlog P] times [BASE] for one [dlog P] below [n];
    [inG1] and [dlog] are specification only, the code never computes them.
    [multiply] checks its scalar: it throws unless [1 <= k < n].
    [fromAffine] does not validate its argument. *)
Class G1 := {
  ProjectivePoint : Type;
  ZERO : ProjectivePoint;
  BASE : ProjectivePoint;
  add : ProjectivePoint -> ProjectivePoint -> ProjectivePoint;
  subtract : ProjectivePoint -> ProjectivePoint -> ProjectivePoint;
  multiply : ProjectivePoint -> Z -> prog ProjectivePoint;
  equals : ProjectivePoint -> ProjectivePoint -> bool;
  toAffine : ProjectivePoint -> AffinePoint;
  fromAffine : AffinePoint -> ProjectivePoint;

  inG1 : ProjectivePoint -> Prop;
  dlog : ProjectivePoint -> Z;

  dlog_range : forall P, inG1 P -> 0 <= dlog P < n;
  equals_dlog : forall P Q, inG1 P -> inG1 Q -> equals P Q = (dlog P =? dlog Q);
  ZERO_inG1 : inG1 ZERO;
  ZERO_dlog : dlog ZERO = 0;
  BASE_inG1 : inG1 BASE;
  BASE_dlog : dlog BASE = 1;
  add_inG1 : forall P Q, inG1 P -> inG1 Q -> inG1 (add P Q);
  add_dlog : forall P Q, inG1 P -> inG1 Q ->
    dlog (add P Q) = (dlog P + dlog Q) mod n;
  subtract_inG1 : forall P Q, inG1 P -> inG1 Q -> inG1 (subtract P Q);
  subtract_dlog : forall P Q, inG1 P -> inG1 Q ->
    dlog (subtract P Q) = (dlog P - dlog Q) mod n;
  multiply_rejects : forall P k, ~ (1 <= k < n) -> multiply P k = Throw CurveError;
  multiply_accepts : forall P k, inG1 P -> 1 <= k < n ->
    exists Q, multiply P k = Ret Q /\ inG1 Q /\ dlog Q = (k * dlog P) mod n;
  affine_inG1 : forall P, inG1 P -> inG1 (fromAffine (toAffine P));
  affine_dlog : forall P, inG1 P -> dlog (fromAffine (toAffine P)) = dlog P;
  affine_x_nonneg : forall P, inG1 P -> 0 <= x (toAffine P);
  affine_y_nonneg : forall P, inG1 P -> 0 <= y (toAffine P)
}.

End Curve.

(* ===================================================================== *)
(** * packages/core/src/crypto/elgamal.ts *)
(* ===================================================================== *)

Module ElGamal.
Import Curve.

(** [{ x: string; y: string }] *)
Record HexPoint := { x : jsstring; y : jsstring }.

Record ElGamalKeypair := {
  privateKey : jsstring;
  publicKey : HexPoint
}.

Record EncryptedAmount := {
  c1 : HexPoint;
  c2 : HexPoint
}.

Definition bytesToNumberBE (bytes : list byte) : Z := be_bytes bytes.

Definition numberToHex (num : Z) : jsstring := padStart 64 48 (toString 16 num).

Definition hexToNumber (hex : jsstring) : prog Z := BigInt (js "0x" ++ hex).

Definition hexPoint (a : AffinePoint) : HexPoint :=
  {| x := numberToHex (Curve.x a); y := numberToHex (Curve.y a) |}.

Definition maxAmount : Z := 10000000.

Section WithCurve.
Context {curve : G1}.

(** [fromAffine({ x: hexToNumber(p.x), y: hexToNumber(p.y) })] *)
Definition pointOfHex (p : HexPoint) : prog ProjectivePoint :=
  px <- hexToNumber (x p) ;;
  py <- hexToNumber (y p) ;;
  Ret (fromAffine {| Curve.x := px; Curve.y := py |}).

Definition generateElGamalKeypair : prog ElGamalKeypair :=
  privateKeyBytes <- randomBytes 32 ;;
  let privateKeyBigInt := Z.rem (bytesToNumberBE privateKeyBytes) n in
  publicKeyPoint <- multiply BASE privateKeyBigInt ;;
  let affine := toAffine publicKeyPoint in
  Ret {| privateKey := numberToHex privateKeyBigInt;
         publicKey := hexPoint affine |}.

Definition encryptAmount (amount : Z) (publicKey : HexPoint) : prog EncryptedAmount :=
  let G := BASE in
  rBytes <- randomBytes 32 ;;
  let r := Z.rem (bytesToNumberBE rBytes) n in
  c1Point <- multiply G r ;;
  let c1 := toAffine c1Point in
  pubKeyPoint <- pointOfHex publicKey ;;
  messagePoint <- multiply G amount ;;
  sharedSecret <- multiply pubKeyPoint r ;;
  let c2Point := add messagePoint sharedSecret in
  let c2 := toAffine c2Point in
  Ret {| c1 := hexPoint c1; c2 := hexPoint c2 |}.

Definition decrypt_error : jsError :=
  Error (js "Could not decrypt amount (too large or invalid)").

(** The loop [for (let i = 1n; i <= maxAmount; i++)], [fuel] iterations
    from [i]: the body tries [G.multiply(i)], returns [i] on a match, and
    goes on to the next candidate when the library throws. *)
Fixpoint search (fuel : nat) (i : Z) (point : ProjectivePoint) : prog Z :=
  match fuel with
  | O => Throw decrypt_error
  | S fuel' =>
      found <- catch
        (testPoint <- multiply BASE i ;;
         Ret (if equals point testPoint then Some i else None))
        (fun _ => Ret None) ;;
      match found with
      | Some amount => Ret amount
      | None => search fuel' (i + 1) point
      end
  end.

Definition recoverAmountFromPoint (point : ProjectivePoint) : prog Z :=
  if equals point ZERO then Ret 0
  else search (Z.to_nat maxAmount) 1 point.

Definition decryptAmount (encrypted : EncryptedAmount) (privateKey : jsstring)
    : prog Z :=
  c1Point <- pointOfHex (c1 encrypted) ;;
  c2Point <- pointOfHex (c2 encrypted) ;;
  privateKeyBigInt <- hexToNumber privateKey ;;
  sharedSecret <- multiply c1Point privateKeyBigInt ;;
  let messagePoint := subtract c2Point sharedSecret in
  recoverAmountFromPoint messagePoint.

(** The round trip of the SDK's own test script: encrypt under the public
    key, decrypt with the private key. *)
Definition decrypt_of_encrypt (amount : Z) (keys : ElGamalKeypair) : prog Z :=
  encrypted <- encryptAmount amount (publicKey keys) ;;
  decryptAmount encrypted (privateKey keys).

End WithCurve.

End ElGamal.

(* ===================================================================== *)
(** * Exact verification *)
(* ===================================================================== *)

Module Verification.

(** A verifier accepts the lower-case, unpadded, unprefixed hexadecimal
    text of [h] and nothing else: not the same number with a 0x prefix,
    with leading zeros, in upper case, or in decimal. *)
Definition canonical_only (verify : jsstring -> outcome bool) (h : Z) : Prop :=
  (forall candidate, verify candidate = Returned (streq (toString 16 h) candidate))
  /\ verify (toString 16 h) = Returned true
  /\ (forall candidate, verify candidate = Returned true -> candidate = toString 16 h)
  /\ verify (js "0x" ++ toString 16 h) = Returned false
  /\ (forall k, verify (repeat 48%N (S k) ++ toString 16 h) = Returned false)
  /\ (has_hex_letter (toString 16 h) = true ->
      verify (toUpperCaseAscii (toString 16 h)) = Returned false)
  /\ (10 <= h -> verify (toString 10 h) = Returned false).

(** The four integers [generateCommitment] hashes. *)
Definition preimage (amt : Z) (recipient token : jsstring) (nv : Z) : list Z :=
  [amt; Commitment.stringToBigInt recipient; Commitment.stringToBigInt token; nv].

End Verification.

(* ===================================================================== *)
(** * The assembled circuit inputs *)
(* ===================================================================== *)

Module Assembly.
Import ProofGenerator.

(** The text a non-negative [v] is given in the input object. *)
Definition field_text (v : Z) : jsstring := toString 10 (v mod BN254_FIELD_MODULUS).

(** The machine after [ensureFieldElement(v, name)]: one more warning when
    [v] reaches the modulus. *)
Definition after_field (name : jsstring) (v : Z) (m : Machine) : Machine :=
  if BN254_FIELD_MODULUS <=? v
  then {| drawn := drawn m; console := modulo_warning name :: console m;
          hashed := hashed m; proved := proved m |}
  else m.

(** An entry the checking loop lets pass. *)
Definition passes (entry : jsstring * jsstring) : Prop :=
  exists v, BigInt (snd entry) = Ret v /\ v < BN254_FIELD_MODULUS.

(** The input object built from values that are all accepted. *)
Definition assembled (inputs : ProofInputs) (token : jsstring)
    (sc ss rc sa c1 c2 er sr rk : Z) : CircuitInputs :=
  {| sender_commitment := field_text sc;
     sender_secret := field_text ss;
     receiver_commitment := field_text rc;
     Runtime.amount := field_text (amount inputs);
     token_mint := token;
     Runtime.salt := field_text sa;
     merkle_path := merklePath inputs;
     path_indices := pathIndices inputs;
     encrypted_amount_c1 := field_text c1;
     encrypted_amount_c2 := field_text c2;
     elgamal_randomness := field_text er;
     shadowid_root := field_text sr;
     max_amount := field_text (maxAmount inputs);
     receiver_elgamal_pubkey := field_text rk |}.

(** [inputs] with another token. *)
Definition with_tokenMint (inputs : ProofInputs) (t : jsstring) : ProofInputs :=
  {| senderCommitment := senderCommitment inputs;
     senderSecret := senderSecret inputs;
     receiverCommitment := receiverCommitment inputs;
     amount := amount inputs;
     tokenMint := t;
     salt := salt inputs;
     merklePath := merklePath inputs;
     pathIndices := pathIndices inputs;
     encryptedC1 := encryptedC1 inputs;
     encryptedC2 := encryptedC2 inputs;
     elgamalRandomness := elgamalRandomness inputs;
     shadowidRoot := shadowidRoot inputs;
     maxAmount := maxAmount inputs;
     receiverElGamalPubkey := receiverElGamalPubkey inputs |}.

End Assembly.

(* ===================================================================== *)
(** * packages/client/src/ShadowPayClient.ts: the jobs of [pay] *)
(* ===================================================================== *)

(** [ShadowPay.pay] and [generateAndSubmitProof] are async functions.  Each
    runs in pieces, one piece per await: a piece runs to completion, and the
    next one is queued when the awaited promise settles.  The model has one
    job per piece, a FIFO queue of the jobs that are ready, the requests
    the outside has not answered yet, and the trace of what has happened.
    An answer may arrive at any moment after its request; the piece that
    was waiting for it is then queued behind the jobs already there. *)
Module Client.

(** api-client.ts *)
Record AuthorizeResponse := {
  commitment : jsstring;
  nullifier : jsstring;
  access_token : jsstring;
  expires_at : Z;
  proof_deadline : Z
}.

Record SettleResponse := {
  success : bool;
  signature : option jsstring;
  settlement_time : Z;
  error : option jsstring
}.

(** types.ts *)
Record Settlement := {
  settlementSignature : option jsstring;   (* [settlement.signature!] *)
  settlementTime : Z
}.

Inductive Status := authorized | settling | settled.

Record PaymentResult := {
  accessToken : jsstring;
  resultCommitment : jsstring;
  status : Status;
  proofPending : bool;
  settlement : option Settlement
}.

(** The awaited calls that leave the client. *)
Inductive request :=
| Register      (* fetch(.../shadowid/auto-register) in autoRegisterWallet *)
| Authorize     (* this.api.authorize *)
| MerkleProof   (* this.api.getMerkleProof *)
| Prove         (* generateProof, i.e. snarkjs.groth16.fullProve *)
| Settle.       (* this.api.settle *)

(** The pieces of code between two awaits. *)
Inductive job :=
| PayEntered
    (* pay(): validatePaymentOptions, the wallet checks, and
       autoRegisterWallet up to its fetch *)
| AfterRegister (senderCommitment : jsstring)
    (* the secret, the salt, the two derivations, up to api.authorize *)
| AfterAuthorize (auth : AuthorizeResponse)
    (* builds [result], calls generateAndSubmitProof, attaches then/catch,
       and returns [result] *)
| CallerContinuation (result : PaymentResult)
    (* the caller's code after [await shadowpay.pay(...)] *)
| CallerRejected (e : jsError)
    (* the catch of pay(): rethrows to the caller *)
| AfterMerkle
    (* generateAndSubmitProof after getMerkleProof: calls generateProof *)
| AfterProve (g : GeneratedProof)
    (* after generateProof: calls api.settle *)
| AfterSettle (resp : SettleResponse)
    (* after api.settle: throws unless resp.success, else returns *)
| ThenCallback (s : Settlement)
    (* .then(settlement => ...): marks the result settled, saves the
       history, calls onProofComplete *)
| CatchCallback (e : jsError).
    (* .catch(error => ...): marks the result not pending *)

(** What can be observed, in the order it happens. *)
Inductive observation :=
| Requested (r : request)
| PayReturned (result : PaymentResult)
    (* [return result]: the promise of pay() is fulfilled *)
| CallerResumed (accessToken : jsstring)
    (* the caller holds the access credential *)
| PayThrew (e : jsError)
| ProofComplete (s : Settlement)
    (* onProofComplete(settlement) is called *)
| BackgroundFailed (e : jsError).

(** The object literal [result] of pay(). *)
Definition initial_result (auth : AuthorizeResponse) : PaymentResult :=
  {| accessToken := access_token auth;
     resultCommitment := commitment auth;
     status := authorized;
     proofPending := true;
     settlement := None |}.

(** The assignments of the then-callback and of the catch-callback to the
    shared [result] object. *)
Definition mark_settled (s : Settlement) (r : option PaymentResult) : option PaymentResult :=
  option_map (fun result =>
    {| accessToken := accessToken result;
       resultCommitment := resultCommitment result;
       status := settled;
       proofPending := false;
       settlement := Some s |}) r.

Definition mark_failed (r : option PaymentResult) : option PaymentResult :=
  option_map (fun result =>
    {| accessToken := accessToken result;
       resultCommitment := resultCommitment result;
       status := authorized;
       proofPending := false;
       settlement := settlement result |}) r.

(** [settlement.error || 'Settlement failed'] *)
Definition settle_error (resp : SettleResponse) : jsstring :=
  match error resp with
  | Some (c :: msg) => c :: msg
  | Some [] | None => js "Settlement failed"
  end.

(** What running a job does: the jobs it makes ready, the requests it
    sends, what it lets observe (latest first) and what it does to the
    shared result. *)
Record effect := {
  spawned : list job;
  asked : list request;
  seen : list observation;
  store : option PaymentResult -> option PaymentResult
}.

Definition same (r : option PaymentResult) : option PaymentResult := r.

Inductive exec : job -> effect -> Prop :=
| exec_pay :
    exec PayEntered
      {| spawned := []; asked := [Register];
         seen := [Requested Register]; store := same |}
| exec_pay_invalid e :
    (* validation or the wallet check throws *)
    exec PayEntered
      {| spawned := [CallerRejected e]; asked := []; seen := []; store := same |}
| exec_registered sc :
    exec (AfterRegister sc)
      {| spawned := []; asked := [Authorize];
         seen := [Requested Authorize]; store := same |}
| exec_registered_throws sc e :
    (* a derivation throws *)
    exec (AfterRegister sc)
      {| spawned := [CallerRejected e]; asked := []; seen := []; store := same |}
| exec_authorized auth :
    (* generateAndSubmitProof runs up to its first await, getMerkleProof,
       before pay() returns *)
    exec (AfterAuthorize auth)
      {| spawned := [CallerContinuation (initial_result auth)];
         asked := [MerkleProof];
         seen := [PayReturned (initial_result auth); Requested MerkleProof];
         store := fun _ => Some (initial_result auth) |}
| exec_authorized_keys_throw auth e :
    (* getOrCreateKeys or encryptAmount throws: the promise of
       generateAndSubmitProof is rejected at once, and the catch-callback
       is reached through the then, behind the caller *)
    exec (AfterAuthorize auth)
      {| spawned := [CallerContinuation (initial_result auth); CatchCallback e];
         asked := [];
         seen := [PayReturned (initial_result auth)];
         store := fun _ => Some (initial_result auth) |}
| exec_caller result :
    exec (CallerContinuation result)
      {| spawned := []; asked := [];
         seen := [CallerResumed (accessToken result)]; store := same |}
| exec_rejected e :
    exec (CallerRejected e)
      {| spawned := []; asked := []; seen := [PayThrew e]; store := same |}
| exec_merkle :
    exec AfterMerkle
      {| spawned := []; asked := [Prove]; seen := [Requested Prove]; store := same |}
| exec_merkle_throws e :
    (* generateProof throws before it reaches the prover *)
    exec AfterMerkle
      {| spawned := [CatchCallback e]; asked := []; seen := []; store := same |}
| exec_proved g :
    exec (AfterProve g)
      {| spawned := []; asked := [Settle]; seen := [Requested Settle]; store := same |}
| exec_proved_throws g e :
    (* api.settle throws before its fetch *)
    exec (AfterProve g)
      {| spawned := [CatchCallback e]; asked := []; seen := []; store := same |}
| exec_settled resp :
    success resp = true ->
    exec (AfterSettle resp)
      {| spawned := [ThenCallback {| settlementSignature := signature resp;
                                     settlementTime := settlement_time resp |}];
         asked := []; seen := []; store := same |}
| exec_not_settled resp :
    (* throw new Error(settlement.error || 'Settlement failed') *)
    success resp = false ->
    exec (AfterSettle resp)
      {| spawned := [CatchCallback (Error (settle_error resp))];
         asked := []; seen := []; store := same |}
| exec_then s :
    exec (ThenCallback s)
      {| spawned := []; asked := []; seen := [ProofComplete s];
         store := mark_settled s |}
| exec_then_callback_throws s e :
    (* onProofComplete itself throws: the catch-callback follows *)
    exec (ThenCallback s)
      {| spawned := [CatchCallback e]; asked := []; seen := [ProofComplete s];
         store := mark_settled s |}
| exec_catch e :
    exec (CatchCallback e)
      {| spawned := []; asked := []; seen := [BackgroundFailed e];
         store := mark_failed |}.

(** The job an answer makes ready.  A failed call of pay()'s own path
    rejects pay(); a failed call of the background path reaches the
    catch-callback. *)
Inductive answers : request -> job -> Prop :=
| registered sc : answers Register (AfterRegister sc)
| register_failed e : answers Register (CallerRejected e)
| authorize_ok auth : answers Authorize (AfterAuthorize auth)
| authorize_failed e : answers Authorize (CallerRejected e)
| merkle_ok : answers MerkleProof AfterMerkle
| merkle_failed e : answers MerkleProof (CatchCallback e)
| prove_ok g : answers Prove (AfterProve g)
| prove_failed e : answers Prove (CatchCallback e)
| settle_answered resp : answers Settle (AfterSettle resp)
| settle_failed e : answers Settle (CatchCallback e).

Record config := {
  queue : list job;
  pending : list request;
  trace : list observation;
  result : option PaymentResult
}.

(** One call of pay(). *)
Definition initial : config :=
  {| queue := [PayEntered]; pending := []; trace := []; result := None |}.

Inductive step : config -> config -> Prop :=
| step_run j q eff c :
    queue c = j :: q -> exec j eff ->
    step c {| queue := q ++ spawned eff;
              pending := pending c ++ asked eff;
              trace := seen eff ++ trace c;
              result := store eff (result c) |}
| step_answer r j before after c :
    pending c = before ++ r :: after -> answers r j ->
    step c {| queue := queue c ++ [j];
              pending := before ++ after;
              trace := trace c;
              result := result c |}.

Inductive reachable : config -> Prop :=
| reach_initial : reachable initial
| reach_step c c' : reachable c -> step c c' -> reachable c'.

(** The background task has got somewhere: it went on after an answer, or
    it signalled its completion or its failure. *)
Definition background_progress (x : observation) : Prop :=
  match x with
  | Requested Prove | Requested Settle | ProofComplete _ | BackgroundFailed _ => True
  | _ => False
  end.

(** In a trace (latest first), whatever the background task did came after
    pay() returned and after the caller held the credential. *)
Definition credential_first (t : list observation) : Prop :=
  forall later x earlier,
    t = later ++ x :: earlier -> background_progress x ->
    (exists r, In (PayReturned r) earlier)
    /\ (exists token, In (CallerResumed token) earlier).

End Client.

(* ===================================================================== *)
(** * The phases of a payment *)
(* ===================================================================== *)

Module ClientInvariant.
Import Client.

Definition returned (t : list observation) : Prop := exists r, In (PayReturned r) t.
Definition resumed (t : list observation) : Prop := exists token, In (CallerResumed token) t.
Definition quiet (t : list observation) : Prop :=
  Forall (fun x => ~ background_progress x) t.

(** The jobs and requests of pay()'s own path, and those of the background
    task. *)
Definition pre_job (j : job) : Prop :=
  match j with
  | PayEntered | AfterRegister _ | AfterAuthorize _ | CallerRejected _ => True
  | _ => False
  end.

Definition bg_job (j : job) : Prop :=
  match j with
  | AfterMerkle | AfterProve _ | AfterSettle _ | ThenCallback _ | CatchCallback _ => True
  | _ => False
  end.

Definition pre_request (r : request) : Prop :=
  match r with Register | Authorize => True | _ => False end.

Definition bg_request (r : request) : Prop :=
  match r with MerkleProof | Prove | Settle => True | _ => False end.

(** Before the authorization is in: at most one thing is going on, and
    nothing of the background task exists. *)
Definition before_authorization (c : config) : Prop :=
  Forall pre_job (queue c) /\ Forall pre_request (pending c)
  /\ (List.length (queue c) + List.length (pending c) <= 1)%nat
  /\ quiet (trace c).

(** pay() has returned and the caller's continuation is the next job. *)
Definition caller_is_next (c : config) : Prop :=
  (exists r q, queue c = CallerContinuation r :: q /\ Forall bg_job q)
  /\ Forall bg_request (pending c)
  /\ quiet (trace c) /\ returned (trace c).

(** The caller holds the credential; only the background task is left. *)
Definition caller_has_credential (c : config) : Prop :=
  Forall bg_job (queue c) /\ Forall bg_request (pending c)
  /\ resumed (trace c) /\ returned (trace c).

Definition invariant (c : config) : Prop :=
  credential_first (trace c)
  /\ (before_authorization c \/ caller_is_next c \/ caller_has_credential c).

End ClientInvariant.

(* ===================================================================== *)
(** * The requests of a payment and its result object *)
(* ===================================================================== *)

Module ClientOrder.
Import Client.

(** The requests of one payment, in the order of the source. *)
Definition order : list request := [Register; Authorize; MerkleProof; Prove; Settle].

(** The requests in a trace, latest first as the trace is. *)
Fixpoint requested (t : list observation) : list request :=
  match t with
  | [] => []
  | Requested r :: t' => r :: requested t'
  | _ :: t' => requested t'
  end.

(** How many requests have been sent when a job that can still send one
    is ready, and when a request is pending. *)
Definition stage_job (j : job) : option nat :=
  match j with
  | PayEntered => Some 0%nat
  | AfterRegister _ => Some 1%nat
  | AfterAuthorize _ => Some 2%nat
  | AfterMerkle => Some 3%nat
  | AfterProve _ => Some 4%nat
  | _ => None
  end.

Definition stage_request (r : request) : nat :=
  match r with
  | Register => 1%nat
  | Authorize => 2%nat
  | MerkleProof => 3%nat
  | Prove => 4%nat
  | Settle => 5%nat
  end.

Fixpoint stages (q : list job) : list nat :=
  match q with
  | [] => []
  | j :: q' =>
      match stage_job j with
      | Some k => k :: stages q'
      | None => stages q'
      end
  end.

(** The stages of what is going on: ready jobs, then pending requests. *)
Definition live (c : config) : list nat :=
  stages (queue c) ++ map stage_request (pending c).

(** One line of requests: the requests sent are the first [k] of the
    order, and whatever can still send one stands at stage [k]. *)
Definition in_order (c : config) : Prop :=
  exists k, requested (trace c) = rev (firstn k order)
            /\ (live c = [] \/ live c = [k]).



End ClientOrder.

(* ===================================================================== *)
(** * packages/client/src/ShadowPayClient.ts: the values pay() derives *)
(* ===================================================================== *)

Module ClientPayload.

Record CryptoValues := {
  senderSecret : jsstring;
  salt : jsstring;
  receiverCommitment : jsstring;
  paymentCommitment : jsstring;
  paymentNullifier : jsstring
}.

(** The part of pay() between the registration and the authorization:
    the secret, the salt, the receiver commitment, the payment commitment
    and the nullifier.  [lamports] is the number [parseAmount] gave;
    [BigInt(lamports)] is evaluated before [computePaymentCommitment] is
    entered. *)
Definition cryptoValues (merchantWallet senderCommitmentHex : jsstring)
    (lamports : number) (token : jsstring) : prog CryptoValues :=
  senderSecret <- generateRandomSecret ;;
  salt <- generateRandomSalt ;;
  let receiverCommitment := addressToFieldElement merchantWallet in
  lamportsBigInt <- BigInt_of_number lamports ;;
  paymentCommitment <- computePaymentCommitment
                         senderCommitmentHex receiverCommitment lamportsBigInt token salt ;;
  paymentNullifier <- computePaymentNullifier senderSecret paymentCommitment ;;
  Ret {| senderSecret := senderSecret;
         salt := salt;
         receiverCommitment := receiverCommitment;
         paymentCommitment := paymentCommitment;
         paymentNullifier := paymentNullifier |}.

(** The parameters [pay] hands to [generateAndSubmitProof]; [lamports]
    is [BigInt(params.lamports)]. *)
Record ProofParams := {
  params_senderSecret : jsstring;
  params_senderCommitment : jsstring;
  params_receiverCommitment : jsstring;
  params_salt : jsstring;
  params_lamports : Z;
  params_token : jsstring
}.

(** ['00'.repeat(32)] *)
Definition zeros64 : jsstring := List.concat (repeat (js "00") 32).

(** The object [generateAndSubmitProof] gives to [generateProof], from
    the parameters, the user's own public key, the ciphertext of the
    amount under that key, and the Merkle proof. *)
Definition proofInputs (params : ProofParams) (userPublicKey : ElGamal.HexPoint)
    (encrypted : ElGamal.EncryptedAmount)
    (merkleRoot : jsstring) (merkleSiblings : list jsstring)
    (merklePathIndices : list number) : ProofGenerator.ProofInputs :=
  {| ProofGenerator.senderCommitment := params_senderCommitment params;
     ProofGenerator.senderSecret := params_senderSecret params;
     ProofGenerator.receiverCommitment := params_receiverCommitment params;
     ProofGenerator.amount := params_lamports params;
     ProofGenerator.tokenMint := params_token params;
     ProofGenerator.salt := params_salt params;
     ProofGenerator.merklePath := merkleSiblings;
     ProofGenerator.pathIndices := merklePathIndices;
     ProofGenerator.encryptedC1 := ElGamal.x (ElGamal.c1 encrypted);
     ProofGenerator.encryptedC2 := ElGamal.x (ElGamal.c2 encrypted);
     ProofGenerator.elgamalRandomness := js "0x" ++ zeros64;
     ProofGenerator.shadowidRoot := merkleRoot;
     ProofGenerator.maxAmount := params_lamports params * 2;
     ProofGenerator.receiverElGamalPubkey := ElGamal.x userPublicKey |}.

End ClientPayload.

(* ===================================================================== *)
(** * A sample environment *)
(* ===================================================================== *)

Module Samples.

(** A stand-in for the permutation, with values in the field. *)
Definition samplePoseidon (inputs : list Z) : Z :=
  fold_left (fun acc v => (acc * 1000003 + v + 1) mod Utils.BN254_FIELD_MODULUS)
            inputs 7.

(** A prover that accepts every input. *)
Definition sampleProver (ci : CircuitInputs) : outcome GeneratedProof :=
  Returned {| proof := js "{}";
              publicSignals := [shadowid_root ci; max_amount ci] |}.

Definition sampleWorld : World :=
  {| poseidon := samplePoseidon;
     entropy := fun i => u8 (N.of_nat (7 * i + 1));
     groth16 := sampleProver |}.

(** The merchant wallet of the SDK's documentation. *)
Definition merchantWallet : jsstring :=
  js "BdDcNpsjGKdabkX1xo6XhYhUsJtADYnUT5hPmW5AoLFi".

(** Proof inputs in which only the amount, p + 7, is out of the field. *)
Definition sampleInputs : ProofGenerator.ProofInputs :=
  {| ProofGenerator.senderCommitment := js "0x2a";
     ProofGenerator.senderSecret := js "0x1f";
     ProofGenerator.receiverCommitment := js "0x07";
     ProofGenerator.amount := ProofGenerator.BN254_FIELD_MODULUS + 7;
     ProofGenerator.tokenMint := js "SOL";
     ProofGenerator.salt := js "0xab";
     ProofGenerator.merklePath := [js "11"; js "12"];
     ProofGenerator.pathIndices := [Integral 0; Integral 1];
     ProofGenerator.encryptedC1 := js "c1";
     ProofGenerator.encryptedC2 := js "c2";
     ProofGenerator.elgamalRandomness := js "0x00";
     ProofGenerator.shadowidRoot := js "99";
     ProofGenerator.maxAmount := 14;
     ProofGenerator.receiverElGamalPubkey := js "0d" |}.

(** The authorization and settlement responses of ARCHITECTURE.md. *)
Definition sampleAuth : Client.AuthorizeResponse :=
  {| Client.commitment := js "commitment_01K9";
     Client.nullifier := js "nullifier_01K9";
     Client.access_token := js "eyJhbG";
     Client.expires_at := 1762534760;
     Client.proof_deadline := 1762534750 |}.

Definition sampleSettle : Client.SettleResponse :=
  {| Client.success := true;
     Client.signature := Some (js "5X7vQ");
     Client.settlement_time := 1762534770;
     Client.error := None |}.

Definition sampleSettlement : Client.Settlement :=
  {| Client.settlementSignature := Some (js "5X7vQ");
     Client.settlementTime := 1762534770 |}.

(** The end of a run of pay() in which the Merkle proof arrives before the
    caller's continuation has run, and everything succeeds. *)
Definition settledRun : Client.config :=
  {| Client.queue := [];
     Client.pending := [];
     Client.trace :=
       [ Client.ProofComplete sampleSettlement;
         Client.Requested Client.Settle;
         Client.Requested Client.Prove;
         Client.CallerResumed (js "eyJhbG");
         Client.PayReturned (Client.initial_result sampleAuth);
         Client.Requested Client.MerkleProof;
         Client.Requested Client.Authorize;
         Client.Requested Client.Register ];
     Client.result :=
       Client.mark_settled sampleSettlement (Some (Client.initial_result sampleAuth)) |}.

End Samples.

(* ===================================================================== *)
(** * A model of the curve interface *)
(* ===================================================================== *)

(** The group of order [n] written through its discrete logarithm: the
    point [k BASE] is the residue [k].  It satisfies the contract of
    [Curve.G1], so the interface is consistent, and it lets the ElGamal
    code run on concrete inputs. *)
Module CurveModel.
Import Curve.

Definition model_multiply (P k : Z) : prog Z :=
  if (1 <=? k) && (k <? n) then Ret ((k * P) mod n) else Throw CurveError.

Definition ExponentGroup : G1.
Proof.
  refine
    {| ProjectivePoint := Z;
       ZERO := 0;
       BASE := 1;
       add := fun P Q => (P + Q) mod n;
       subtract := fun P Q => (P - Q) mod n;
       multiply := model_multiply;
       equals := Z.eqb;
       toAffine := fun P => {| x := P; y := 0 |};
       fromAffine := fun a => x a;
       inG1 := fun P => 0 <= P < n;
       dlog := fun P => P;
       dlog_range := fun P H => H;
       equals_dlog := fun P Q _ _ => eq_refl;
       ZERO_inG1 := conj (Z.le_refl 0) eq_refl;
       ZERO_dlog := eq_refl;
       BASE_inG1 := conj (Z.le_0_1) eq_refl;
       BASE_dlog := eq_refl;
       add_inG1 := fun P Q _ _ => Z.mod_pos_bound (P + Q) n eq_refl;
       add_dlog := fun P Q _ _ => eq_refl;
       subtract_inG1 := fun P Q _ _ => Z.mod_pos_bound (P - Q) n eq_refl;
       subtract_dlog := fun P Q _ _ => eq_refl;
       multiply_rejects := _;
       multiply_accepts := _;
       affine_inG1 := fun P H => H;
       affine_dlog := fun P _ => eq_refl;
       affine_x_nonneg := fun P H => proj1 H;
       affine_y_nonneg := fun P _ => Z.le_refl 0 |}.
  - intros P k H. unfold model_multiply.
    destruct (Z.leb_spec 1 k), (Z.ltb_spec k n); simpl; try reflexivity. lia.
  - intros P k HP Hk. exists ((k * P) mod n). unfold model_multiply.
    destruct (Z.leb_spec 1 k), (Z.ltb_spec k n); simpl; try lia.
    repeat split; apply Z.mod_pos_bound; reflexivity.
Defined.

(** The key pair [generateElGamalKeypair] returns in the sample world. *)
Definition sampleKeys : ElGamal.ElGamalKeypair :=
  Eval vm_compute in
    match fst (run Samples.sampleWorld
                 (ElGamal.generateElGamalKeypair (curve := ExponentGroup)) boot) with
    | Returned keys => keys
    | Thrown _ =>
        {| ElGamal.privateKey := [];
           ElGamal.publicKey := {| ElGamal.x := []; ElGamal.y := [] |} |}
    end.

(** The machine after that key generation: 32 bytes drawn. *)
Definition afterKeys : Machine :=
  {| drawn := 32; console := []; hashed := []; proved := [] |}.

(** A world whose random source only gives zero bytes. *)
Definition zeroWorld : World :=
  {| poseidon := Samples.samplePoseidon;
     entropy := fun _ => Byte.x00;
     groth16 := Samples.sampleProver |}.

End CurveModel.

(* ===================================================================== *)
(** * packages/core/src/crypto/poseidon.ts: the other exports *)
(* ===================================================================== *)

Module PoseidonExports.

(** [hashPoseidonHex(inputs)] *)
Definition hashPoseidonHex (inputs : list Z) : prog jsstring :=
  hash <- hashPoseidon inputs ;;
  Ret (toString 16 hash).

(** [hashPoseidon2(a, b)] *)
Definition hashPoseidon2 (a b : Z) : prog Z := hashPoseidon [a; b].

(** [hashPoseidonBytes(inputs)]: every byte array is read big-endian. *)
Definition hashPoseidonBytes (inputs : list (list byte)) : prog Z :=
  let bigints := map (fun bytes => fold_left be_step bytes 0) inputs in
  hashPoseidon bigints.

End PoseidonExports.

(* ===================================================================== *)
(** * A second key pair *)
(* ===================================================================== *)

Module MoreSamples.

(** The key pair [generateElGamalKeypair] returns in the sample world
    after the first one, from the next 32 bytes. *)
Definition otherKeys : ElGamal.ElGamalKeypair :=
  Eval vm_compute in
    match fst (run Samples.sampleWorld
                 (ElGamal.generateElGamalKeypair (curve := CurveModel.ExponentGroup))
                 CurveModel.afterKeys) with
    | Returned keys => keys
    | Thrown _ =>
        {| ElGamal.privateKey := [];
           ElGamal.publicKey := {| ElGamal.x := []; ElGamal.y := [] |} |}
    end.

(** The machine after both key generations: 64 bytes drawn. *)
Definition afterBothKeys : Machine :=
  {| drawn := 64; console := []; hashed := []; proved := [] |}.

(** 10,000 lamports encrypted for the first key pair, from the bytes
    after it. *)
Definition sampleEncrypted : ElGamal.EncryptedAmount :=
  Eval vm_compute in
    match fst (run Samples.sampleWorld
                 (ElGamal.encryptAmount (curve := CurveModel.ExponentGroup) 10000
                    (ElGamal.publicKey CurveModel.sampleKeys))
                 CurveModel.afterKeys) with
    | Returned encrypted => encrypted
    | Thrown _ =>
        {| ElGamal.c1 := {| ElGamal.x := []; ElGamal.y := [] |};
           ElGamal.c2 := {| ElGamal.x := []; ElGamal.y := [] |} |}
    end.

(** The parameters of a payment of 10,000 lamports in SOL. *)
Definition sampleParams : ClientPayload.ProofParams :=
  {| ClientPayload.params_senderSecret := js "0x1f";
     ClientPayload.params_senderCommitment := js "0x2a";
     ClientPayload.params_receiverCommitment := js "0x07";
     ClientPayload.params_salt := js "0xab";
     ClientPayload.params_lamports := 10000;
     ClientPayload.params_token := js "SOL" |}.

(** Proof inputs in which only the Merkle proof is out of range: a
    sibling of p + 5 and a path index of 7. *)
Definition rawPathInputs : ProofGenerator.ProofInputs :=
  {| ProofGenerator.senderCommitment := js "0x2a";
     ProofGenerator.senderSecret := js "0x1f";
     ProofGenerator.receiverCommitment := js "0x07";
     ProofGenerator.amount := 7;
     ProofGenerator.tokenMint := js "SOL";
     ProofGenerator.salt := js "0xab";
     ProofGenerator.merklePath :=
       [toString 10 (ProofGenerator.BN254_FIELD_MODULUS + 5)];
     ProofGenerator.pathIndices := [Integral 7];
     ProofGenerator.encryptedC1 := js "c1";
     ProofGenerator.encryptedC2 := js "c2";
     ProofGenerator.elgamalRandomness := js "0x00";
     ProofGenerator.shadowidRoot := js "99";
     ProofGenerator.maxAmount := 14;
     ProofGenerator.receiverElGamalPubkey := js "0d" |}.

End MoreSamples.

(* ===================================================================== *)
(** * JSON values, thrown values and HTTP answers *)
(* ===================================================================== *)

(** What the client and the server helpers see of the network: the value
    a promise settles with, the parsed body of a response, and the values
    that are thrown. *)
Module Http.

(** A value [JSON.parse] can give, and [undefined] for a missing property.
    [JSON.parse] never gives NaN, so every [NotIntegral] number here is a
    fraction or an infinity. *)
#[warnings="-register-all"]
Inductive jsval :=
| VUndefined
| VNull
| VBool (b : bool)
| VNumber (x : number)
| VString (s : jsstring)
| VArray (items : list jsval)
| VObject (fields : list (jsstring * jsval)).

(** [!!v] *)
Definition truthy (v : jsval) : bool :=
  match v with
  | VUndefined | VNull => false
  | VBool b => b
  | VNumber (Integral z) => negb (z =? 0)
  | VNumber NotIntegral => true
  | VString [] => false
  | VString (_ :: _) => true
  | VArray _ | VObject _ => true
  end.

Inductive error_class := PlainError | TypeErrorClass | SyntaxErrorClass | OtherErrorClass.

(** A thrown value, as the catch blocks of the SDK look at it: an [Error]
    of some class with its message, a ShadowPayError of api-client.ts with
    its message, status code and details, or a value that is no [Error]. *)
#[warnings="-register-all"]
Inductive thrown :=
| Err (class : error_class) (message : jsstring)
| NotError (v : jsval)
| ShadowPayError (message : jsstring) (statusCode : Z) (details : details)
with details :=
| NoDetails
| Body (v : jsval)
| Caught (e : thrown).

(** What a promise settles with. *)
Inductive settled (A : Type) :=
| Fulfilled (a : A)
| Rejected (e : thrown).
Arguments Fulfilled {A} a.
Arguments Rejected {A} e.

(** The texts that depend on the JavaScript engine: how a value that is
    not a string prints in a template literal or a concatenation, the
    message of the TypeError for reading a property of [undefined] or
    [null] or for calling what is no function, and the message of the
    SyntaxError of [BigInt] on a text. *)
Record Engine := {
  ToString : jsval -> jsstring;
  type_error_message : jsval -> jsstring -> jsstring;
  bigint_error_message : jsstring -> jsstring
}.

(** [`${v}`], ['' + v] *)
Definition to_text (eng : Engine) (v : jsval) : jsstring :=
  match v with
  | VString s => s
  | _ => ToString eng v
  end.

Fixpoint lookup (key : jsstring) (fields : list (jsstring * jsval)) : jsval :=
  match fields with
  | [] => VUndefined
  | (k, v) :: rest => if streq k key then v else lookup key rest
  end.

(** [v.key] for the property names the SDK reads (error, isValid, root,
    siblings, api_key, ...): none of them is a property of a primitive, of
    an array or of [Object.prototype]. *)
Definition get (eng : Engine) (v : jsval) (key : jsstring) : settled jsval :=
  match v with
  | VUndefined | VNull => Rejected (Err TypeErrorClass (type_error_message eng v key))
  | VObject fields => Fulfilled (lookup key fields)
  | VBool _ | VNumber _ | VString _ | VArray _ => Fulfilled VUndefined
  end.

(** [BigInt(text)] with the error the engine throws. *)
Definition BigInt_of_text (eng : Engine) (text : jsstring) : settled Z :=
  match StringToBigInt text with
  | Some v => Fulfilled v
  | None => Rejected (Err SyntaxErrorClass (bigint_error_message eng text))
  end.

(** A [Response]: [ok] is true for the statuses 200 to 299;
    [json] is what [response.json()] settles with. *)
Record Response := {
  status : Z;
  statusText : jsstring;
  json : settled jsval
}.

Definition ok (response : Response) : bool :=
  (200 <=? status response) && (status response <=? 299).

(** What [await fetch(...)] does: it gives a response or throws. *)
Inductive fetched :=
| Responds (response : Response)
| Fails (e : thrown).

(** [error instanceof Error ? error.message : 'Unknown error'] *)
Definition message_or_unknown (e : thrown) : jsstring :=
  match e with
  | Err _ m => m
  | ShadowPayError m _ _ => m
  | NotError _ => js "Unknown error"
  end.

(** [await response.json().catch(() => ({ error: 'Unknown error' }))] *)
Definition error_body (response : Response) : jsval :=
  match json response with
  | Fulfilled v => v
  | Rejected _ => VObject [(js "error", VString (js "Unknown error"))]
  end.

(** [`${error.error || response.statusText}`] *)
Definition error_text (eng : Engine) (error : jsval) (response : Response)
    : settled jsstring :=
  match get eng error (js "error") with
  | Fulfilled v => Fulfilled (if truthy v then to_text eng v else statusText response)
  | Rejected e => Rejected e
  end.

End Http.

(* ===================================================================== *)
(** * packages/client/src/api-client.ts *)
(* ===================================================================== *)

Module ApiClient.
Import Http.

(** The digits [parseInt] reads: the longest run of digits of the radix
    at the start of the text; [None] when there is none. *)
Fixpoint leading_digits (radix : Z) (s : jsstring) (acc : option Z) : option Z :=
  match s with
  | [] => acc
  | c :: s' =>
      match digit_value radix c with
      | Some d =>
          leading_digits radix s'
            (Some (match acc with Some a => a * radix + d | None => d end))
      | None => acc
      end
  end.

(** [parseInt(s, 16)]: leading white space is skipped, then a sign, then a
    0x or 0X prefix; [None] is NaN.  The value is exact for the two
    characters [hexToBytes] passes; -0 is not told apart from 0. *)
Definition parseInt16 (s : jsstring) : option Z :=
  let t := trimStart s in
  let signed :=
    match t with
    | c :: rest =>
        if N.eqb c 45 then (-1, rest)
        else if N.eqb c 43 then (1, rest)
        else (1, t)
    | [] => (1, t)
    end in
  let digits :=
    match snd signed with
    | c0 :: c1 :: rest =>
        if N.eqb c0 48 && (N.eqb c1 120 || N.eqb c1 88) then rest else snd signed
    | other => other
    end in
  option_map (Z.mul (fst signed)) (leading_digits 16 digits None).

(** The loop [for (i = 0; i < truncatedHex.length; i += 2)
    bytes.push(parseInt(truncatedHex.slice(i, i + 2), 16))]. *)
Fixpoint byte_loop (truncatedHex : jsstring) : list (option Z) :=
  match truncatedHex with
  | [] => []
  | [c] => [parseInt16 [c]]
  | c0 :: c1 :: rest => parseInt16 [c0; c1] :: byte_loop rest
  end.

Definition hexToBytes (hex : jsstring) : list (option Z) :=
  let cleanHex := if startsWith hex (js "0x") then slice_from 2 hex else hex in
  let paddedHex := padStart 64 48 cleanHex in
  let truncatedHex := slice_to 64 paddedHex in
  byte_loop truncatedHex.

Definition ShadowPayError_invalid_key : jsstring :=
  js "Invalid API key - please check your merchant API key".

Definition ShadowPayError_not_found : jsstring :=
  js "Commitment not found in merkle tree - user may need to register with ShadowID first".

(** The catch block every method ends with: a ShadowPayError is thrown
    again as it is, anything else is wrapped into one with status 0. *)
Definition rethrow (what : jsstring) (e : thrown) : thrown :=
  match e with
  | ShadowPayError _ _ _ => e
  | Err _ _ | NotError _ =>
      ShadowPayError (js "Network error " ++ what ++ js ": " ++ message_or_unknown e)
        0 (Caught e)
  end.

(** [try { ... } catch (error) { ... }] around a body that throws, or
    returns a promise it does not await: the catch block sees what the
    body throws, not how the returned promise settles. *)
Definition try_returning {A : Type} (what : jsstring) (body : settled (settled A))
    : settled A :=
  match body with
  | Fulfilled promise => promise
  | Rejected e => Rejected (rethrow what e)
  end.

(** The same around a body whose awaits are all inside. *)
Definition try_awaiting {A : Type} (what : jsstring) (body : settled A) : settled A :=
  match body with
  | Fulfilled a => Fulfilled a
  | Rejected e => Rejected (rethrow what e)
  end.

(** [throw new ShadowPayError(`${label}: ${error.error || response.statusText}`,
    response.status, error)] *)
Definition throw_failed {A : Type} (eng : Engine) (label : jsstring)
    (error : jsval) (response : Response) : settled A :=
  match error_text eng error response with
  | Fulfilled text =>
      Rejected (ShadowPayError (label ++ js ": " ++ text) (status response) (Body error))
  | Rejected e => Rejected e
  end.

(** [authorize(params)], given what its fetch does. *)
Definition authorize (eng : Engine) (answer : fetched) : settled jsval :=
  try_returning (js "during authorization")
    match answer with
    | Fails e => Rejected e
    | Responds response =>
        if negb (ok response) then
          let error := error_body response in
          if status response =? 401
          then Rejected (ShadowPayError ShadowPayError_invalid_key 401 (Body error))
          else throw_failed eng (js "Authorization failed") error response
        else Fulfilled (json response)
    end.

(** [verifyAccess(accessToken)] *)
Definition verifyAccess (answer : fetched) : settled jsval :=
  try_returning (js "during verification")
    match answer with
    | Fails e => Rejected e
    | Responds response =>
        if negb (ok response)
        then Rejected (ShadowPayError (js "Access verification failed")
                         (status response) NoDetails)
        else Fulfilled (json response)
    end.

Record SettleRequest := {
  commitment : jsstring;
  proof : jsstring;
  publicSignals : list jsstring;
  encryptedAmount : option ElGamal.EncryptedAmount
}.

(** The body [settle] posts. *)
Record SettleBody := {
  body_commitment : jsstring;
  body_proof : jsstring;
  public_signals : list jsstring;
  encrypted_amount : option (list (option Z))
}.

(** [[...hexToBytes(c1.x), ...hexToBytes(c2.x)]], or [null] without a
    ciphertext. *)
Definition encryptedAmountBytes (encryptedAmount : option ElGamal.EncryptedAmount)
    : option (list (option Z)) :=
  match encryptedAmount with
  | Some encrypted =>
      let c1Bytes := hexToBytes (ElGamal.x (ElGamal.c1 encrypted)) in
      let c2Bytes := hexToBytes (ElGamal.x (ElGamal.c2 encrypted)) in
      Some (c1Bytes ++ c2Bytes)
  | None => None
  end.

(** What [settle] computes before its fetch; [base64] is [btoa] in a
    browser, which throws on a character above U+00FF, and [Buffer] in
    Node. *)
Definition settle_body (base64 : jsstring -> settled jsstring) (params : SettleRequest)
    : settled SettleBody :=
  match base64 (proof params) with
  | Fulfilled proofBase64 =>
      Fulfilled {| body_commitment := commitment params;
                   body_proof := proofBase64;
                   public_signals := publicSignals params;
                   encrypted_amount := encryptedAmountBytes (encryptedAmount params) |}
  | Rejected e => Rejected e
  end.

(** [settle(params)]; the fetch is made only when the body was built. *)
Definition settle (eng : Engine) (base64 : jsstring -> settled jsstring)
    (params : SettleRequest) (answer : fetched) : settled jsval :=
  try_returning (js "during settlement")
    match settle_body base64 params with
    | Rejected e => Rejected e
    | Fulfilled _ =>
        match answer with
        | Fails e => Rejected e
        | Responds response =>
            if negb (ok response)
            then throw_failed eng (js "Settlement failed") (error_body response) response
            else Fulfilled (json response)
        end
    end.

Record MerkleProofResponse := {
  root : jsstring;
  siblings : list jsstring;
  pathIndices : jsval
}.

(** The commitment as it is put into the URL: without a 0x prefix. *)
Definition commitmentHex (senderCommitment : jsstring) : jsstring :=
  if startsWith senderCommitment (js "0x")
  then slice_from 2 senderCommitment
  else senderCommitment.

(** [BigInt('0x' + hex).toString()] *)
Definition hex_to_decimal (eng : Engine) (hex : jsval) : settled jsstring :=
  match BigInt_of_text eng (js "0x" ++ to_text eng hex) with
  | Fulfilled v => Fulfilled (toString 10 v)
  | Rejected e => Rejected e
  end.

(** [items.map(hex => BigInt('0x' + hex).toString())], left to right. *)
Fixpoint map_hex_to_decimal (eng : Engine) (items : list jsval) : settled (list jsstring) :=
  match items with
  | [] => Fulfilled []
  | hex :: rest =>
      match hex_to_decimal eng hex with
      | Fulfilled d =>
          match map_hex_to_decimal eng rest with
          | Fulfilled ds => Fulfilled (d :: ds)
          | Rejected e => Rejected e
          end
      | Rejected e => Rejected e
      end
  end.

(** The conversion of the body of a successful answer. *)
Definition convert_proof (eng : Engine) (data : jsval) : settled MerkleProofResponse :=
  match get eng data (js "root") with
  | Rejected e => Rejected e
  | Fulfilled dataRoot =>
      match hex_to_decimal eng dataRoot with
      | Rejected e => Rejected e
      | Fulfilled root =>
          match get eng data (js "siblings") with
          | Rejected e => Rejected e
          | Fulfilled (VArray items) =>
              match map_hex_to_decimal eng items with
              | Rejected e => Rejected e
              | Fulfilled siblings =>
                  match get eng data (js "pathIndices") with
                  | Rejected e => Rejected e
                  | Fulfilled indices =>
                      Fulfilled {| root := root; siblings := siblings;
                                   pathIndices := indices |}
                  end
              end
          | Fulfilled other =>
              Rejected (Err TypeErrorClass (type_error_message eng other (js "map")))
          end
      end
  end.

(** [getMerkleProof(senderCommitment)], given what its fetch does. *)
Definition getMerkleProof (eng : Engine) (answer : fetched) : settled MerkleProofResponse :=
  try_awaiting (js "getting merkle proof")
    match answer with
    | Fails e => Rejected e
    | Responds response =>
        if negb (ok response) then
          let error := error_body response in
          if status response =? 404
          then Rejected (ShadowPayError ShadowPayError_not_found 404 (Body error))
          else throw_failed eng (js "Failed to get merkle proof") error response
        else
          match json response with
          | Rejected e => Rejected e
          | Fulfilled data => convert_proof eng data
          end
    end.

End ApiClient.

(* ===================================================================== *)
(** * packages/server/src: ShadowPayServer.ts, middleware.ts, webhooks.ts *)
(* ===================================================================== *)

Module Server.
Import Http.

Section WithNumbers.

(** A JavaScript number with the text [toString()] gives for it. *)
Context {Num : Type} (Num_toString : Num -> jsstring).

(** types.ts *)
Record PaymentRequirement := {
  amount : Num;
  token : option jsstring;
  description : option jsstring
}.

Record VerificationResult := {
  isValid : jsval;
  resultAmount : jsval;
  resultToken : jsval;
  resultNullifier : jsval;
  message : jsval
}.

(** [req.shadowpay] *)
Record Attached := {
  verified : bool;
  attachedAmount : Num;
  attachedToken : jsstring
}.

(** The object a failing branch of [verifyPaymentDetailed] returns. *)
Definition invalid (message : jsval) : VerificationResult :=
  {| isValid := VBool false;
     resultAmount := VUndefined;
     resultToken := VUndefined;
     resultNullifier := VUndefined;
     message := message |}.

(** The body of the try block of [verifyPaymentDetailed], given what its
    fetch does. *)
Definition verifyPaymentDetailed_try (eng : Engine) (answer : fetched)
    : settled VerificationResult :=
  match answer with
  | Fails e => Rejected e
  | Responds response =>
      if negb (ok response) then
        let error := error_body response in
        match get eng error (js "error") with
        | Rejected e => Rejected e
        | Fulfilled errorError =>
            Fulfilled (invalid (if truthy errorError then errorError
                                else VString (statusText response)))
        end
      else
        match json response with
        | Rejected e => Rejected e
        | Fulfilled result =>
            match get eng result (js "isValid") with
            | Rejected e => Rejected e
            | Fulfilled resultIsValid =>
                Fulfilled
                  {| isValid := resultIsValid;
                     resultAmount :=
                       match result with
                       | VObject fields => lookup (js "amount") fields
                       | _ => VUndefined
                       end;
                     resultToken :=
                       match result with
                       | VObject fields => lookup (js "token") fields
                       | _ => VUndefined
                       end;
                     resultNullifier :=
                       match result with
                       | VObject fields => lookup (js "nullifier") fields
                       | _ => VUndefined
                       end;
                     message := VUndefined |}
            end
        end
  end.

(** [verifyPaymentDetailed(header, requirement)]: the catch block turns
    whatever was thrown into a result. *)
Definition verifyPaymentDetailed (eng : Engine) (answer : fetched)
    : settled VerificationResult :=
  match verifyPaymentDetailed_try eng answer with
  | Fulfilled result => Fulfilled result
  | Rejected e => Fulfilled (invalid (VString (message_or_unknown e)))
  end.

(** [verifyPayment(header, requirement)] *)
Definition verifyPayment (eng : Engine) (answer : fetched) : settled jsval :=
  match verifyPaymentDetailed eng answer with
  | Fulfilled result => Fulfilled (isValid result)
  | Rejected _ => Fulfilled (VBool false)
  end.

(** [generateApiKey(walletAddress)] *)
Definition generateApiKey (eng : Engine) (answer : fetched) : settled jsval :=
  let body :=
    match answer with
    | Fails e => Rejected e
    | Responds response =>
        if negb (ok response)
        then Rejected (Err PlainError
                         (js "Failed to generate API key: " ++ statusText response))
        else
          match json response with
          | Rejected e => Rejected e
          | Fulfilled result => get eng result (js "api_key")
          end
    end in
  match body with
  | Fulfilled api_key => Fulfilled api_key
  | Rejected e =>
      Rejected (Err PlainError (js "API key generation failed: " ++ message_or_unknown e))
  end.

(** generate-key.ts: [generateMerchantKey(walletAddress)] *)
Definition generateMerchantKey (eng : Engine) (answer : fetched) : settled jsval :=
  let body :=
    match answer with
    | Fails e => Rejected e
    | Responds response =>
        if negb (ok response) then
          match error_text eng (error_body response) response with
          | Rejected e => Rejected e
          | Fulfilled text =>
              Rejected (Err PlainError (js "Failed to generate API key: " ++ text))
          end
        else json response
    end in
  match body with
  | Fulfilled data => Fulfilled data
  | Rejected (NotError _) =>
      Rejected (Err PlainError (js "Failed to generate merchant API key: Unknown error"))
  | Rejected e => Rejected e
  end.

(** ** middleware.ts *)

(** An Express request, as far as the handlers read it. *)
Record Request := {
  x_payment : option jsstring;            (* req.headers['x-payment'] *)
  x_shadowpay_signature : option jsstring;
  path : jsstring
}.

(** The replies of the two handlers. *)
Inductive reply_body :=
| PaymentRequired (maxAmountRequired resource description payTo : jsstring)
| InvalidPayment
| VerificationFailed (message : jsstring)
| MissingSignature
| InvalidSignature
| Received
| ProcessingFailed (message : jsstring).

Inductive handled :=
| Replied (status : Z) (body : reply_body)
| CalledNext (shadowpay : Attached).

(** [text || fallback] *)
Definition or_default (text : option jsstring) (fallback : jsstring) : jsstring :=
  match text with
  | Some (c :: s) => c :: s
  | Some [] | None => fallback
  end.

(** The handler [createPaymentMiddleware(requirement, apiKey, verifyFn)]
    returns, run on a request. *)
Definition createPaymentMiddleware (requirement : PaymentRequirement)
    (apiKey : jsstring)
    (verifyFn : jsstring -> PaymentRequirement -> settled jsval)
    (req : Request) : handled :=
  match x_payment req with
  | None | Some [] =>
      Replied 402
        (PaymentRequired (Num_toString (amount requirement)) (path req)
           (or_default (description requirement) (js "Payment required")) apiKey)
  | Some paymentHeader =>
      match verifyFn paymentHeader requirement with
      | Fulfilled isValid =>
          if negb (truthy isValid) then Replied 402 InvalidPayment
          else CalledNext {| verified := true;
                             attachedAmount := amount requirement;
                             attachedToken := or_default (token requirement) (js "SOL") |}
      | Rejected e => Replied 402 (VerificationFailed (message_or_unknown e))
      end
  end.

(** [requirePayment(requirement)] of the server class: the middleware
    with [verifyPayment] as its verifier; [backend] is what the fetch of
    the verification does for a header and a requirement. *)
Definition requirePayment (eng : Engine) (apiKey : jsstring)
    (backend : jsstring -> PaymentRequirement -> fetched)
    (requirement : PaymentRequirement) (req : Request) : handled :=
  createPaymentMiddleware requirement apiKey
    (fun header required => verifyPayment eng (backend header required)) req.

End WithNumbers.

(** ** webhooks.ts *)

(** [req.body]: a string, or a value with what [JSON.stringify] makes of
    it - a text, or nothing ([undefined], or an exception). *)
Inductive raw_body :=
| BodyText (s : jsstring)
| BodyValue (stringified : option jsstring).

Fixpoint bytes_eqb (a b : list byte) : bool :=
  match a, b with
  | [], [] => true
  | x :: a', y :: b' => Byte.eqb x y && bytes_eqb a' b'
  | _, _ => false
  end.

Section WithHmac.

(** [crypto.createHmac('sha256', key).update(message).digest()] *)
Variable hmac_sha256 : list byte -> list byte -> list byte.

(** The expected signature: the digest in lower-case hexadecimal. *)
Definition expected_signature (bodyString secret : jsstring) : jsstring :=
  bytesToHex (hmac_sha256 (TextEncoder_encode secret) (TextEncoder_encode bodyString)).

(** [verifyWebhookSignature(body, signature, secret)]:
    [crypto.timingSafeEqual] throws when the two buffers differ in length,
    [update] throws on [undefined]; the catch block answers false. *)
Definition verifyWebhookSignature (body : raw_body) (signature secret : jsstring) : bool :=
  let bodyString :=
    match body with
    | BodyText s => Some s
    | BodyValue stringified => stringified
    end in
  match bodyString with
  | Some s =>
      bytes_eqb (TextEncoder_encode signature)
                (TextEncoder_encode (expected_signature s secret))
  | None => false
  end.

(** What the webhook handler did: the event it gave to the callback, if
    it called it, and its reply. *)
Record webhook_outcome := {
  delivered : option raw_body;
  reply : handled (Num := unit)
}.

(** The handler [createWebhookHandler(webhookSecret, callback)] returns,
    run on a request with the given body. *)
Definition createWebhookHandler (webhookSecret : option jsstring)
    (callback : raw_body -> settled unit)
    (req : Request) (body : raw_body) : webhook_outcome :=
  let deliver :=
    match callback body with
    | Fulfilled _ => {| delivered := Some body; reply := Replied 200 Received |}
    | Rejected e =>
        {| delivered := Some body;
           reply := Replied 500 (ProcessingFailed (message_or_unknown e)) |}
    end in
  match webhookSecret with
  | Some (c :: secret) =>
      match x_shadowpay_signature req with
      | None | Some [] =>
          {| delivered := None; reply := Replied 401 MissingSignature |}
      | Some signature =>
          if negb (verifyWebhookSignature body signature (c :: secret))
          then {| delivered := None; reply := Replied 401 InvalidSignature |}
          else deliver
      end
  | Some [] | None => deliver
  end.

End WithHmac.

End Server.

(* ===================================================================== *)
(** * A sample engine *)
(* ===================================================================== *)

Module HttpSamples.
Import Http.


End HttpSamples.

(* ===================================================================== *)
(** * packages/client/src/ShadowPayClient.ts: the payment history *)
(* ===================================================================== *)

Module ClientStorage.
Import Http.

(** A JS number as [JSON.stringify] tells numbers apart: an integer,
    another finite number, or one of NaN, Infinity and -Infinity, which
    it writes as null. *)
Inductive written_number :=
| Whole (z : Z)
| Fractional
| NaN_or_Infinity.

(** What [JSON.parse] reads from the text [JSON.stringify] writes for a
    number. *)
Definition stringify_number (x : written_number) : jsval :=
  match x with
  | Whole z => VNumber (Integral z)
  | Fractional => VNumber NotIntegral
  | NaN_or_Infinity => VNull
  end.

(** types.ts; [signature] is [settlement.signature!], which the settle
    response may leave undefined. *)
Record PaymentHistory := {
  timestamp : written_number;
  amount : written_number;
  token : jsstring;
  recipient : jsstring;
  signature : option jsstring;
  nullifier : jsstring
}.

(** The JSON value of a history entry: an undefined property is left out
    by [JSON.stringify], and a number that is NaN or infinite becomes
    null. *)
Definition entry (payment : PaymentHistory) : jsval :=
  VObject
    ([ (js "timestamp", stringify_number (timestamp payment));
       (js "amount", stringify_number (amount payment));
       (js "token", VString (token payment));
       (js "recipient", VString (recipient payment)) ]
     ++ match signature payment with
        | Some s => [(js "signature", VString s)]
        | None => []
        end
     ++ [ (js "nullifier", VString (nullifier payment)) ]).

(** What [localStorage.getItem(STORAGE_KEYS.PAYMENT_HISTORY)] holds, as
    the code reads it: nothing, the empty text, a text [JSON.parse]
    throws on, or a text with the value [JSON.parse] reads from it.
    [JSON.stringify] followed by [JSON.parse] gives a JSON value back, so
    a written value is kept as the value that will be read. *)
Inductive item :=
| NoItem
| EmptyText
| Unparsable
| Parsed (v : jsval).

(** The browser side: [None] when there is no [window] or no
    [localStorage]. *)
Definition Storage := option item.

(** [stored ? JSON.parse(stored) : []]; [None] when [JSON.parse] throws. *)
Definition read_history (stored : item) : option jsval :=
  match stored with
  | NoItem | EmptyText => Some (VArray [])
  | Unparsable => None
  | Parsed v => Some v
  end.

(** [history.push(payment); if (history.length > 100) history.shift()] on
    an array. *)
Definition push_capped (items : list jsval) (payment : jsval) : list jsval :=
  let history := items ++ [payment] in
  if (100 <? List.length history)%nat then tl history else history.

(** [savePaymentHistory(payment)]: the storage afterwards, and whether
    the catch block printed its warning.  Only an array has [push]; on
    anything else the call throws and nothing is written.  The write
    itself is taken to succeed. *)
Definition savePaymentHistory (payment : PaymentHistory) (storage : Storage)
    : Storage * bool :=
  match storage with
  | None => (None, false)
  | Some stored =>
      match read_history stored with
      | Some (VArray items) =>
          (Some (Parsed (VArray (push_capped items (entry payment)))), false)
      | Some _ | None => (Some stored, true)
      end
  end.

(** [getPaymentHistory()] *)
Definition getPaymentHistory (storage : Storage) : jsval :=
  match storage with
  | None => VArray []
  | Some stored =>
      match read_history stored with
      | Some v => v
      | None => VArray []
      end
  end.

(** One [savePaymentHistory] after the other. *)
Definition save_all (payments : list PaymentHistory) (storage : Storage) : Storage :=
  fold_left (fun st payment => fst (savePaymentHistory payment st)) payments storage.

(** ** The stored ElGamal keys *)

(** What [getOrCreateKeys] returns: the two properties, as they are. *)
Record ReturnedKeys := {
  returnedPrivateKey : jsval;
  returnedPublicKey : jsval
}.

Definition keys_of (keys : ElGamal.ElGamalKeypair) : ReturnedKeys :=
  {| returnedPrivateKey := VString (ElGamal.privateKey keys);
     returnedPublicKey :=
       VObject [ (js "x", VString (ElGamal.x (ElGamal.publicKey keys)));
                 (js "y", VString (ElGamal.y (ElGamal.publicKey keys))) ] |}.

(** The object [storedKeys], as JSON. *)
Definition storedKeys (keys : ElGamal.ElGamalKeypair) (createdAt : number) : jsval :=
  VObject [ (js "privateKey", returnedPrivateKey (keys_of keys));
            (js "publicKey", returnedPublicKey (keys_of keys));
            (js "createdAt", VNumber createdAt) ].

(** [{ privateKey: parsed.privateKey, publicKey: parsed.publicKey }];
    [None] when reading a property of [null] throws. *)
Definition stored_keys (parsed : jsval) : option ReturnedKeys :=
  match parsed with
  | VNull | VUndefined => None
  | VObject fields =>
      Some {| returnedPrivateKey := lookup (js "privateKey") fields;
              returnedPublicKey := lookup (js "publicKey") fields |}
  | VBool _ | VNumber _ | VString _ | VArray _ =>
      Some {| returnedPrivateKey := VUndefined; returnedPublicKey := VUndefined |}
  end.



Section WithCurve.
Context {curve : Curve.G1}.


End WithCurve.

End ClientStorage.

(* ===================================================================== *)
(** * Facts about the built-ins *)
(* ===================================================================== *)

Module JsFacts.

(** Case analysis on every integer comparison of the goal. *)
Ltac split_Z_test :=
  match goal with
  | |- context [Z.eqb ?p ?q] => destruct (Z.eqb_spec p q)
  | |- context [Z.ltb ?p ?q] => destruct (Z.ltb_spec p q)
  | |- context [Z.leb ?p ?q] => destruct (Z.leb_spec p q)
  end.

Ltac split_N_test :=
  match goal with
  | |- context [N.eqb ?p ?q] => destruct (N.eqb_spec p q)
  | |- context [N.ltb ?p ?q] => destruct (N.ltb_spec p q)
  | |- context [N.leb ?p ?q] => destruct (N.leb_spec p q)
  end.

Ltac cmp :=
  repeat first [split_Z_test | split_N_test];
  simpl; try lia; try reflexivity.

Lemma streq_refl s : streq s s = true.
Proof. induction s as [|c s IH]; simpl; [reflexivity|]. now rewrite N.eqb_refl. Qed.

Lemma streq_eq a b : streq a b = true <-> a = b.
Proof.
  split; [|intros ->; apply streq_refl].
  revert b; induction a as [|x a IH]; destruct b as [|y b]; simpl; try easy.
  intros H. apply andb_true_iff in H as [Hxy Hab].
  apply N.eqb_eq in Hxy. apply IH in Hab. congruence.
Qed.

Lemma streq_neq a b : a <> b -> streq a b = false.
Proof.
  intros H. destruct (streq a b) eqn:E; [|reflexivity].
  apply streq_eq in E. contradiction.
Qed.

(** ** Digits *)

Lemma digit_value_char radix d :
  0 <= d < radix -> radix <= 36 -> digit_value radix (digit_char d) = Some d.
Proof.
  intros Hd Hr. unfold digit_value, digit_char.
  destruct (Z.ltb_spec d 10).
  - rewrite Z2N.id by lia.
    replace ((48 <=? 48 + d) && (48 + d <=? 57)) with true by (symmetry; cmp).
    replace (48 + d - 48) with d by lia.
    destruct (Z.ltb_spec d radix); [reflexivity | lia].
  - rewrite Z2N.id by lia.
    replace ((48 <=? 87 + d) && (87 + d <=? 57)) with false by (symmetry; cmp).
    replace ((97 <=? 87 + d) && (87 + d <=? 122)) with true by (symmetry; cmp).
    replace (87 + d - 87) with d by lia.
    destruct (Z.ltb_spec d radix); [reflexivity | lia].
Qed.

(** Decide each comparison of the goal from the hypotheses. *)
Ltac settle_tests :=
  repeat match goal with
  | |- context [Z.eqb ?p ?q] => rewrite (proj2 (Z.eqb_neq p q)) by lia
  | |- context [Z.leb ?p ?q] =>
      first [ rewrite (proj2 (Z.leb_gt p q)) by lia
            | rewrite (proj2 (Z.leb_le p q)) by lia ]
  end.

Lemma digit_unit_not_space radix c :
  radix <= 36 -> digit_unit radix c -> is_space c = false.
Proof.
  intros Hr (d & Hd & ->). unfold is_space, digit_char.
  destruct (Z.ltb_spec d 10); rewrite Z2N.id by lia;
    settle_tests; reflexivity.
Qed.

Lemma to_radix_app fuel radix n acc :
  to_radix fuel radix n acc = to_radix fuel radix n [] ++ acc.
Proof.
  revert n acc. induction fuel as [|fuel IH]; intros n acc; simpl; [reflexivity|].
  destruct (n <? radix); [reflexivity|].
  rewrite IH. rewrite (IH _ [_]). now rewrite <- app_assoc.
Qed.

Lemma to_radix_digits fuel radix n acc :
  0 < radix -> Forall (digit_unit radix) acc ->
  Forall (digit_unit radix) (to_radix fuel radix n acc).
Proof.
  intros Hr. revert n acc. induction fuel as [|fuel IH]; intros n acc Hacc; simpl; [assumption|].
  assert (Hd : digit_unit radix (digit_char (n mod radix))).
  { exists (n mod radix). split; [apply Z.mod_pos_bound; lia | reflexivity]. }
  destruct (n <? radix); [constructor; assumption|].
  apply IH. constructor; assumption.
Qed.

Lemma parse_to_radix fuel radix n acc :
  2 <= radix <= 36 -> 0 <= n < 2 ^ Z.of_nat fuel ->
  parse_digits radix (to_radix fuel radix n acc) 0 = parse_digits radix acc n.
Proof.
  intros Hr. revert n acc. induction fuel as [|fuel IH]; intros n acc Hn.
  - simpl in *. now replace n with 0 by lia.
  - cbn [to_radix]. destruct (Z.ltb_spec n radix) as [Hlt|Hge].
    + cbn [parse_digits]. rewrite Z.mod_small by lia.
      rewrite digit_value_char by lia. reflexivity.
    + rewrite IH.
      * cbn [parse_digits]. rewrite digit_value_char
          by (try apply Z.mod_pos_bound; lia).
        f_equal. rewrite (Z.div_mod n radix) at 3 by lia. lia.
      * rewrite Nat2Z.inj_succ, Z.pow_succ_r in Hn by lia.
        split; [apply Z.div_pos; lia|].
        apply Z.div_lt_upper_bound; [lia|]. nia.
Qed.

Lemma render_fuel n : 0 <= n -> n < 2 ^ Z.of_nat (S (Z.to_nat (Z.log2 n))).
Proof.
  intros Hn. rewrite Nat2Z.inj_succ, Z2Nat.id by apply Z.log2_nonneg.
  destruct (Z.eq_dec n 0) as [->|]; [reflexivity|].
  apply Z.log2_spec. lia.
Qed.

Lemma parse_render radix n :
  2 <= radix <= 36 -> 0 <= n -> parse_digits radix (render radix n) 0 = Some n.
Proof.
  intros Hr Hn. unfold render. rewrite parse_to_radix; [reflexivity|assumption|].
  split; [assumption | now apply render_fuel].
Qed.

Lemma render_digits radix n : 0 < radix -> Forall (digit_unit radix) (render radix n).
Proof. intros Hr. apply to_radix_digits; [assumption | constructor]. Qed.

Lemma render_cons radix n : exists c s, render radix n = c :: s.
Proof.
  unfold render. cbn [to_radix]. destruct (n <? radix); [eauto|].
  rewrite to_radix_app. destruct (to_radix _ _ _ []); simpl; eauto.
Qed.

(** ** Trimming *)

Lemma trimStart_id s : Forall (fun c => is_space c = false) s -> trimStart s = s.
Proof. destruct 1 as [|c s Hc Hs]; simpl; [reflexivity | now rewrite Hc]. Qed.

Lemma trimEnd_id s : Forall (fun c => is_space c = false) s -> trimEnd s = s.
Proof.
  induction 1 as [|c s Hc Hs IH]; simpl; [reflexivity|].
  rewrite IH, Hc. now destruct s.
Qed.

Lemma trim_id s : Forall (fun c => is_space c = false) s -> trim s = s.
Proof. intros H. unfold trim. rewrite trimStart_id by assumption. now apply trimEnd_id. Qed.

Lemma digits_no_space radix s :
  radix <= 36 -> Forall (digit_unit radix) s -> Forall (fun c => is_space c = false) s.
Proof.
  intros Hr H. eapply Forall_impl; [|exact H].
  intros c Hc. now apply (digit_unit_not_space radix).
Qed.

End JsFacts.

(* ===================================================================== *)
(** * Running computations *)
(* ===================================================================== *)

Module RuntimeFacts.

Lemma run_bind {A B : Type} (w : World) (p : prog A) (f : A -> prog B) m :
  run w (bind p f) m =
  match run w p m with
  | (Returned a, m') => run w (f a) m'
  | (Thrown e, m') => (Thrown e, m')
  end.
Proof.
  revert m. induction p as [a|e|X ev k IH]; intros m; simpl; try reflexivity.
  destruct ev; apply IH.
Qed.

Lemma bind_Ret {A B : Type} (a : A) (f : A -> prog B) : bind (Ret a) f = f a.
Proof. reflexivity. Qed.

Lemma bind_Throw {A B : Type} (e : jsError) (f : A -> prog B) :
  bind (Throw e) f = Throw e.
Proof. reflexivity. Qed.

End RuntimeFacts.

(* ===================================================================== *)
(** * Big-endian byte strings *)
(* ===================================================================== *)

Module BytesFacts.
Import JsFacts.

Lemma byte_val_range b : 0 <= byte_val b < 256.
Proof. unfold byte_val. pose proof (Byte.to_N_bounded b). lia. Qed.

Lemma lor_shiftl_8 r v : 0 <= v < 256 -> Z.lor (Z.shiftl r 8) v = r * 256 + v.
Proof.
  intros Hv.
  assert (Hland : Z.land (Z.shiftl r 8) v = 0).
  { apply Z.bits_inj'. intros i Hi. rewrite Z.land_spec, Z.bits_0.
    destruct (Z.ltb_spec i 8).
    - rewrite Z.shiftl_spec_low by lia. reflexivity.
    - rewrite <- (Z.mod_small v (2 ^ 8)) by (simpl; lia).
      rewrite Z.mod_pow2_bits_high by lia. apply andb_false_r. }
  pose proof (Z.add_lor_land (Z.shiftl r 8) v) as H.
  rewrite Hland in H. rewrite Z.shiftl_mul_pow2 in * by lia.
  change (2 ^ 8) with 256 in *. lia.
Qed.

Lemma be_step_arith r b : be_step r b = r * 256 + byte_val b.
Proof. unfold be_step. apply lor_shiftl_8, byte_val_range. Qed.

Lemma be_fold_bound bytes acc :
  0 <= acc ->
  0 <= fold_left be_step bytes acc
    < (acc + 1) * 256 ^ Z.of_nat (List.length bytes).
Proof.
  revert acc. induction bytes as [|b bytes IH]; intros acc Hacc.
  - simpl. lia.
  - cbn [fold_left List.length]. rewrite be_step_arith.
    pose proof (byte_val_range b) as Hb.
    specialize (IH (acc * 256 + byte_val b) ltac:(lia)).
    rewrite Nat2Z.inj_succ, Z.pow_succ_r by lia.
    assert (0 < 256 ^ Z.of_nat (List.length bytes)) by (apply Z.pow_pos_nonneg; lia).
    nia.
Qed.

Lemma be_bytes_bound bytes :
  0 <= be_bytes bytes < 256 ^ Z.of_nat (List.length bytes).
Proof. pose proof (be_fold_bound bytes 0 ltac:(lia)). unfold be_bytes. lia. Qed.

Lemma be_bytes_window k bytes :
  0 <= fold_left be_step (firstn (Nat.min (List.length bytes) k) bytes) 0
    < 256 ^ Z.of_nat k.
Proof.
  pose proof (be_fold_bound (firstn (Nat.min (List.length bytes) k) bytes) 0 ltac:(lia)) as H.
  rewrite length_firstn in H.
  assert (256 ^ Z.of_nat (Nat.min (Nat.min (List.length bytes) k) (List.length bytes))
          <= 256 ^ Z.of_nat k) by (apply Z.pow_le_mono_r; lia).
  lia.
Qed.

End BytesFacts.

(* ===================================================================== *)
(** * Printing a bigint and reading it back *)
(* ===================================================================== *)

Module BigIntFacts.
Import JsFacts.

Lemma decimal_unit_range c : digit_unit 10 c -> 48 <= Z.of_N c <= 57.
Proof.
  intros (d & Hd & ->). unfold digit_char.
  destruct (Z.ltb_spec d 10); rewrite Z2N.id; lia.
Qed.

Lemma hex_unit_range c :
  digit_unit 16 c -> 48 <= Z.of_N c <= 57 \/ 97 <= Z.of_N c <= 102.
Proof.
  intros (d & Hd & ->). unfold digit_char.
  destruct (Z.ltb_spec d 10); rewrite Z2N.id; lia.
Qed.

Lemma decimal_no_hex_letter s :
  Forall (digit_unit 10) s -> has_hex_letter s = false.
Proof.
  induction 1 as [|c s Hc Hs IH]; simpl; [reflexivity|].
  rewrite IH, orb_false_r. apply decimal_unit_range in Hc.
  unfold is_hex_letter. cmp.
Qed.

Lemma parse_zeros radix k s :
  0 < radix -> parse_digits radix (repeat 48%N k ++ s) 0 = parse_digits radix s 0.
Proof.
  intros Hr. induction k as [|k IH]; simpl; [reflexivity|].
  unfold digit_value. simpl Z.of_N. simpl.
  destruct (Z.ltb_spec 0 radix); [|lia]. exact IH.
Qed.

(** A decimal literal, signed or not, reads back as the number printed. *)
Lemma StringToBigInt_decimal v : StringToBigInt (toString 10 v) = Some v.
Proof.
  unfold toString. destruct (Z.ltb_spec v 0) as [Hneg|Hpos].
  - pose proof (render_digits 10 (- v) ltac:(lia)) as Hd.
    pose proof (parse_render 10 (- v) ltac:(lia) ltac:(lia)) as Hp.
    destruct (render_cons 10 (- v)) as (c & s & E). rewrite E in *.
    unfold StringToBigInt. rewrite trim_id.
    + replace (N.eqb 45 48) with false by reflexivity.
      replace (N.eqb 45 43) with false by reflexivity.
      replace (N.eqb 45 45) with true by reflexivity.
      cbn [andb parse_radix option_map]. rewrite Hp. simpl. f_equal. lia.
    + constructor; [reflexivity|]. now apply (digits_no_space 10).
  - pose proof (render_digits 10 v ltac:(lia)) as Hd.
    pose proof (parse_render 10 v ltac:(lia) ltac:(lia)) as Hp.
    destruct (render_cons 10 v) as (c & s & E). rewrite E in *.
    unfold StringToBigInt. rewrite trim_id by now apply (digits_no_space 10).
    inversion Hd as [|? ? Hc Hs]; subst. apply decimal_unit_range in Hc.
    destruct s as [|c1 ds]; [exact Hp|].
    inversion Hs as [|? ? Hc1 _]; subst. apply decimal_unit_range in Hc1.
    replace (N.eqb c1 120 || N.eqb c1 88) with false by (symmetry; cmp).
    replace (N.eqb c1 111 || N.eqb c1 79) with false by (symmetry; cmp).
    replace (N.eqb c1 98 || N.eqb c1 66) with false by (symmetry; cmp).
    rewrite !andb_false_r.
    replace (N.eqb c 43) with false by (symmetry; cmp).
    replace (N.eqb c 45) with false by (symmetry; cmp).
    exact Hp.
Qed.

(** A 0x literal reads as the value of its hexadecimal digits. *)
Lemma StringToBigInt_0x ds :
  ds <> [] -> Forall (digit_unit 16) ds ->
  StringToBigInt (js "0x" ++ ds) = parse_digits 16 ds 0.
Proof.
  intros Hne Hd. unfold StringToBigInt. rewrite trim_id.
  - simpl. destruct ds; [contradiction | reflexivity].
  - simpl. do 2 (constructor; [reflexivity|]). now apply (digits_no_space 16).
Qed.

Lemma BigInt_decimal v : BigInt (toString 10 v) = Ret v.
Proof. unfold BigInt. now rewrite StringToBigInt_decimal. Qed.

Lemma zero_unit radix : 0 < radix -> digit_unit radix 48%N.
Proof. intros Hr. exists 0. split; [lia | reflexivity]. Qed.

(** [hexToNumber(numberToHex(v))] gives [v] back. *)
Lemma BigInt_0x_padded len v :
  0 <= v -> BigInt (js "0x" ++ padStart len 48 (toString 16 v)) = Ret v.
Proof.
  intros Hv. unfold BigInt, padStart, toString.
  destruct (Z.ltb_spec v 0); [lia|].
  rewrite StringToBigInt_0x.
  - rewrite parse_zeros by lia. now rewrite parse_render by lia.
  - destruct (render_cons 16 v) as (c & s & E). rewrite E.
    destruct (repeat _ _); discriminate.
  - apply Forall_app. split; [|apply render_digits; lia].
    apply Forall_forall. intros c Hc. apply repeat_spec in Hc. subst c.
    apply zero_unit. lia.
Qed.

(** [toBigInt] on the decimal text of a non-negative bigint. *)
Lemma toBigInt_decimal v : 0 <= v -> toBigInt (toString 10 v) = Ret v.
Proof.
  intros Hv. pose proof (BigInt_decimal v) as HB.
  unfold toBigInt, toString in *. destruct (Z.ltb_spec v 0); [lia|].
  pose proof (render_digits 10 v ltac:(lia)) as Hd.
  destruct (render_cons 10 v) as (c & s & E). rewrite E in *.
  rewrite (decimal_no_hex_letter _ Hd).
  inversion Hd as [|? ? Hc Hs]; subst.
  destruct s as [|c1 ds].
  - simpl. rewrite andb_false_r. exact HB.
  - inversion Hs as [|? ? Hc1 _]; subst. apply decimal_unit_range in Hc1.
    cbn [startsWith js map list_ascii_of_string].
    replace (N.eqb c1 (N_of_ascii "x")) with false; [|symmetry; simpl; cmp].
    destruct (_ && _); exact HB.
Qed.

End BigIntFacts.

(* ===================================================================== *)
(** * The field codec and the commitment engine of utils.ts *)
(* ===================================================================== *)

Module UtilsFacts.
Import JsFacts BytesFacts BigIntFacts RuntimeFacts.

Lemma window_below_modulus : 256 ^ Z.of_nat 31 < Utils.BN254_FIELD_MODULUS.
Proof. reflexivity. Qed.

Lemma firstn_min {A : Type} k (l : list A) :
  firstn (Nat.min (List.length l) k) l = firstn k l.
Proof.
  destruct (Nat.le_ge_cases (List.length l) k) as [H|H].
  - rewrite Nat.min_l by assumption. now rewrite firstn_all, firstn_all2.
  - now rewrite Nat.min_r.
Qed.

(** The 31-byte window never reaches the modulus: [% p] changes nothing. *)
Lemma addressFieldValue_window address :
  addressFieldValue address = be_bytes (firstn 31 (TextEncoder_encode address)).
Proof.
  unfold addressFieldValue.
  pose proof (be_bytes_window 31 (TextEncoder_encode address)) as H.
  pose proof window_below_modulus.
  rewrite Z.rem_small by lia. now rewrite firstn_min.
Qed.

Lemma addressFieldValue_range address :
  0 <= addressFieldValue address < 256 ^ Z.of_nat 31.
Proof.
  unfold addressFieldValue.
  pose proof (be_bytes_window 31 (TextEncoder_encode address)) as H.
  pose proof window_below_modulus.
  rewrite Z.rem_small by lia. exact H.
Qed.

Lemma toBigInt_address address :
  toBigInt (addressToFieldElement address) = Ret (addressFieldValue address).
Proof. apply toBigInt_decimal, addressFieldValue_range. Qed.

(** C9. [addressToFieldElement] is a function defined on every string: its
    output is the decimal text of an integer [v] with [0 <= v < p]
    ([BigInt] reads it back as [v]), and [v] is the big-endian value of the
    first 31 bytes of the UTF-8 text, whatever the length of the input. *)
Theorem addressToFieldElement_in_field (address : jsstring) :
  exists v : Z,
    addressToFieldElement address = toString 10 v
    /\ BigInt (addressToFieldElement address) = Ret v
    /\ 0 <= v < Utils.BN254_FIELD_MODULUS
    /\ v = be_bytes (firstn 31 (TextEncoder_encode address)).
Proof.
  exists (addressFieldValue address).
  pose proof (addressFieldValue_range address).
  pose proof window_below_modulus.
  repeat split; try lia.
  - apply BigInt_decimal.
  - apply addressFieldValue_window.
Qed.

(** [toBigInt] reads its argument or throws one of two errors. *)
Lemma toBigInt_cases x :
  (exists v, toBigInt x = Ret v)
  \/ (x = [] /\ toBigInt x = Throw (Error (js "Cannot convert empty string to BigInt")))
  \/ (x <> [] /\ toBigInt x = Throw SyntaxError).
Proof.
  destruct x as [|c x]; [right; left; split; reflexivity|].
  assert (H : forall t, (exists v, BigInt t = Ret v) \/ BigInt t = Throw SyntaxError).
  { intros t. unfold BigInt. destruct (StringToBigInt t); eauto. }
  unfold toBigInt.
  destruct (startsWith (c :: x) (js "0x")); [|destruct (has_hex_letter (c :: x))].
  - destruct (H (c :: x)) as [Hv| ->]; [now left | right; right; split; [discriminate | reflexivity]].
  - destruct (H (js "0x" ++ c :: x)) as [Hv| ->];
      [now left | right; right; split; [discriminate | reflexivity]].
  - destruct (H (c :: x)) as [Hv| ->]; [now left | right; right; split; [discriminate | reflexivity]].
Qed.

(** C6 (as amended). With [H] the Poseidon of the world and [encode] the
    integer [addressToFieldElement] prints, and for string arguments that
    [toBigInt] reads as the integers named on the right:
    computeSenderCommitment = H(encode(wallet), secret),
    computePaymentCommitment = H(sender, receiver, amount, encode(token), salt),
    computePaymentNullifier = H(secret, paymentCommitment),
    each returned as decimal text after exactly that one call of [H].
    This does not hold for all inputs.  [toBigInt] refuses the empty
    string with an Error and every other text [BigInt] cannot read with a
    SyntaxError; the first argument refused, in the order the code reads
    them, makes the derivation throw that error before [H] is called.  A
    text of decimal digits is read as a decimal number, also when it was
    meant as hexadecimal. *)
Theorem commitment_engine_derivations
    (w : World)
    (walletPubkey secret senderCommitment receiverCommitment tokenMint salt
       paymentCommitment : jsstring)
    (amount : Z) :
  (forall s sc rc sa pc,
      toBigInt secret = Ret s ->
      toBigInt senderCommitment = Ret sc ->
      toBigInt receiverCommitment = Ret rc ->
      toBigInt salt = Ret sa ->
      toBigInt paymentCommitment = Ret pc ->
      run w (computeSenderCommitment walletPubkey secret) boot =
        (Returned (toString 10 (poseidon w [addressFieldValue walletPubkey; s])),
         {| drawn := 0; console := [];
            hashed := [[addressFieldValue walletPubkey; s]]; proved := [] |})
      /\ run w (computePaymentCommitment senderCommitment receiverCommitment
                  amount tokenMint salt) boot =
        (Returned (toString 10
           (poseidon w [sc; rc; amount; addressFieldValue tokenMint; sa])),
         {| drawn := 0; console := [];
            hashed := [[sc; rc; amount; addressFieldValue tokenMint; sa]];
            proved := [] |})
      /\ run w (computePaymentNullifier secret paymentCommitment) boot =
        (Returned (toString 10 (poseidon w [s; pc])),
         {| drawn := 0; console := []; hashed := [[s; pc]]; proved := [] |}))
  /\ (forall e,
      toBigInt secret = Throw e ->
      run w (computeSenderCommitment walletPubkey secret) boot = (Thrown e, boot)
      /\ run w (computePaymentNullifier secret paymentCommitment) boot
         = (Thrown e, boot))
  /\ (forall s e,
      toBigInt secret = Ret s -> toBigInt paymentCommitment = Throw e ->
      run w (computePaymentNullifier secret paymentCommitment) boot = (Thrown e, boot))
  /\ (forall e,
      toBigInt senderCommitment = Throw e ->
      run w (computePaymentCommitment senderCommitment receiverCommitment
               amount tokenMint salt) boot = (Thrown e, boot))
  /\ (forall sc e,
      toBigInt senderCommitment = Ret sc -> toBigInt receiverCommitment = Throw e ->
      run w (computePaymentCommitment senderCommitment receiverCommitment
               amount tokenMint salt) boot = (Thrown e, boot))
  /\ (forall sc rc e,
      toBigInt senderCommitment = Ret sc -> toBigInt receiverCommitment = Ret rc ->
      toBigInt salt = Throw e ->
      run w (computePaymentCommitment senderCommitment receiverCommitment
               amount tokenMint salt) boot = (Thrown e, boot))
  /\ (forall x,
      (exists v, toBigInt x = Ret v)
      \/ (x = [] /\ toBigInt x = Throw (Error (js "Cannot convert empty string to BigInt")))
      \/ (x <> [] /\ toBigInt x = Throw SyntaxError))
  /\ (forall v, 0 <= v -> toBigInt (toString 10 v) = Ret v).
Proof.
  split.
  { intros s sc rc sa pc Hs Hsc Hrc Hsa Hpc. repeat split.
    - unfold computeSenderCommitment.
      rewrite toBigInt_address, bind_Ret, Hs. reflexivity.
    - unfold computePaymentCommitment.
      rewrite Hsc, bind_Ret, Hrc, bind_Ret, toBigInt_address, bind_Ret, Hsa.
      reflexivity.
    - unfold computePaymentNullifier. rewrite Hs, bind_Ret, Hpc. reflexivity. }
  split.
  { intros e He. split.
    - unfold computeSenderCommitment. rewrite toBigInt_address, bind_Ret, He.
      reflexivity.
    - unfold computePaymentNullifier. rewrite He. reflexivity. }
  split.
  { intros s e Hs He. unfold computePaymentNullifier. rewrite Hs, bind_Ret, He.
    reflexivity. }
  split.
  { intros e He. unfold computePaymentCommitment. rewrite He. reflexivity. }
  split.
  { intros sc e Hsc He. unfold computePaymentCommitment.
    rewrite Hsc, bind_Ret, He. reflexivity. }
  split.
  { intros sc rc e Hsc Hrc He. unfold computePaymentCommitment.
    rewrite Hsc, bind_Ret, Hrc, bind_Ret, toBigInt_address, bind_Ret, He.
    reflexivity. }
  split; [exact toBigInt_cases | exact toBigInt_decimal].
Qed.

(** The three derivations on a sample payment: a secret and a salt in 0x
    form, commitments in decimal form. *)
Lemma commitment_engine_derivations_sample :
  run Samples.sampleWorld
      (computePaymentNullifier (js "0x1f") (js "777")) boot =
    (Returned (toString 10 (Samples.samplePoseidon [31; 777])),
     {| drawn := 0; console := []; hashed := [[31; 777]]; proved := [] |}).
Proof.
  exact (proj2 (proj2 (proj1 (commitment_engine_derivations
           Samples.sampleWorld Samples.merchantWallet (js "0x1f")
           (js "12345") (js "67890") (js "SOL") (js "0xab") (js "777")
           1000000)
           31 12345 67890 171 777
           eq_refl eq_refl eq_refl eq_refl eq_refl))).
Defined.

(** Inputs on which the claim of C6 fails: with an empty secret, and with
    a secret [BigInt] cannot read, the derivations throw and [H] is not
    called.  The secret "10" is hashed as ten, the secret "0x10" as
    sixteen. *)
Lemma unreadable_secret_is_not_hashed :
  run Samples.sampleWorld
      (computeSenderCommitment Samples.merchantWallet []) boot
  = (Thrown (Error (js "Cannot convert empty string to BigInt")), boot)
  /\ run Samples.sampleWorld (computePaymentNullifier (js "zz") (js "1")) boot
     = (Thrown SyntaxError, boot)
  /\ hashed (snd (run Samples.sampleWorld
                    (computePaymentNullifier (js "10") (js "1")) boot))
     = [[10; 1]]
  /\ hashed (snd (run Samples.sampleWorld
                    (computePaymentNullifier (js "0x10") (js "1")) boot))
     = [[16; 1]].
Proof. repeat split; vm_compute; reflexivity. Qed.

End UtilsFacts.

(* ===================================================================== *)
(** * The two identifier encodings *)
(* ===================================================================== *)

Module CodecFacts.
Import JsFacts BytesFacts BigIntFacts RuntimeFacts UtilsFacts.
Import ProofGenerator.

Lemma digit_value_range radix c d :
  digit_value radix c = Some d -> 0 <= d < radix.
Proof.
  unfold digit_value. generalize (Z.of_N c). intros z.
  destruct (Z.leb_spec 48 z), (Z.leb_spec z 57), (Z.leb_spec 97 z),
    (Z.leb_spec z 122), (Z.leb_spec 65 z), (Z.leb_spec z 90); simpl;
    match goal with
    | |- (if ?u <? ?r then _ else _) = _ -> _ => destruct (Z.ltb_spec u r)
    end; intros Hd; try discriminate; injection Hd as <-; lia.
Qed.

Lemma parse_digits_bound radix s acc v :
  0 < radix -> 0 <= acc -> parse_digits radix s acc = Some v ->
  0 <= v < (acc + 1) * radix ^ Z.of_nat (List.length s).
Proof.
  intros Hr. revert acc. induction s as [|c s IH]; intros acc Hacc H.
  - simpl in *. injection H as <-. lia.
  - cbn [parse_digits] in H. destruct (digit_value radix c) as [d|] eqn:Ed; [|discriminate].
    apply digit_value_range in Ed. apply IH in H; [|nia].
    cbn [List.length]. rewrite Nat2Z.inj_succ, Z.pow_succ_r by lia.
    assert (0 < radix ^ Z.of_nat (List.length s)) by (apply Z.pow_pos_nonneg; lia).
    nia.
Qed.

Lemma trimEnd_cons c s : is_space c = false -> trimEnd (c :: s) = c :: trimEnd s.
Proof. intros Hc. simpl. rewrite Hc. now destruct (trimEnd s). Qed.

Lemma trimEnd_length s : (List.length (trimEnd s) <= List.length s)%nat.
Proof.
  induction s as [|c s IH]; simpl; [lia|].
  destruct (trimEnd s); [destruct (is_space c)|]; simpl in *; lia.
Qed.

Lemma trim_0x t : trim (48%N :: 120%N :: t) = 48%N :: 120%N :: trimEnd t.
Proof.
  unfold trim. change (trimStart (48%N :: 120%N :: t)) with (48%N :: 120%N :: t).
  now rewrite !trimEnd_cons by reflexivity.
Qed.

(** What [BigInt] reads in a 0x literal of at most [k] characters. *)
Lemma BigInt_0x_bound k t v :
  (List.length t <= k)%nat -> BigInt (js "0x" ++ t) = Ret v ->
  0 <= v < 16 ^ Z.of_nat k.
Proof.
  intros Hk. unfold BigInt, StringToBigInt.
  change (js "0x" ++ t) with (48%N :: 120%N :: t). rewrite trim_0x.
  pose proof (trimEnd_length t) as Hlen.
  replace (N.eqb 48 48 && (N.eqb 120 120 || N.eqb 120 88)) with true by reflexivity.
  destruct (trimEnd t) as [|c ds] eqn:E; cbn [parse_radix]; [discriminate|].
  destruct (parse_digits 16 (c :: ds) 0) as [u|] eqn:Ep; [|discriminate].
  intros [= <-]. apply parse_digits_bound in Ep; try lia.
  assert (16 ^ Z.of_nat (List.length (c :: ds)) <= 16 ^ Z.of_nat k)
    by (apply Z.pow_le_mono_r; lia).
  lia.
Qed.

Lemma BigInt_cases s : BigInt s = Throw SyntaxError \/ exists v, BigInt s = Ret v.
Proof. unfold BigInt. destruct (StringToBigInt s); eauto. Qed.

Lemma hex_window_below_modulus : 16 ^ Z.of_nat 62 < BN254_FIELD_MODULUS.
Proof. reflexivity. Qed.

Lemma ensureFieldElement_in_range v name :
  0 <= v < BN254_FIELD_MODULUS -> ensureFieldElement v name = Ret v.
Proof.
  intros Hv. unfold ensureFieldElement.
  destruct (Z.leb_spec BN254_FIELD_MODULUS v); [lia|].
  destruct (Z.ltb_spec v 0); [lia|]. reflexivity.
Qed.

(** C4 (as amended). The two encodings are different functions that share a
    31-byte window.  [addressToFieldElement] prints in decimal the
    big-endian value of the first 31 bytes of the UTF-8 text.
    [pubkeyToFieldElement] drops a leading 0x, keeps 62 characters and reads
    them as a hexadecimal literal: it throws SyntaxError when they are not
    one, and otherwise prints the value as 0x and 64 hexadecimal digits.
    Both values stay below 256^31 = 16^62 < p, so neither is ever reduced. *)
Theorem identifier_encodings (s : jsstring) :
  (addressToFieldElement s
     = toString 10 (be_bytes (firstn 31 (TextEncoder_encode s)))
   /\ 0 <= be_bytes (firstn 31 (TextEncoder_encode s)) < 256 ^ 31)
  /\ (pubkeyToFieldElement s = Throw SyntaxError
      \/ exists v,
           BigInt (js "0x" ++ slice_to 62
                     (if startsWith s (js "0x") then slice_from 2 s else s)) = Ret v
           /\ 0 <= v < 16 ^ 62
           /\ pubkeyToFieldElement s
              = Ret (js "0x" ++ padStart 64 48 (toString 16 v)))
  /\ 256 ^ 31 = 16 ^ 62
  /\ 16 ^ 62 < BN254_FIELD_MODULUS.
Proof.
  split; [|split; [|split; reflexivity]].
  - unfold addressToFieldElement. rewrite addressFieldValue_window. split; [reflexivity|].
    rewrite <- addressFieldValue_window. apply addressFieldValue_range.
  - unfold pubkeyToFieldElement.
    set (t := slice_to 62 _).
    destruct (BigInt_cases (js "0x" ++ t)) as [E|[v E]]; rewrite E.
    + now left.
    + right. exists v. split; [reflexivity|].
      assert (Hv : 0 <= v < 16 ^ Z.of_nat 62).
      { apply (BigInt_0x_bound 62 t); [|assumption]. apply firstn_le_length. }
      split; [exact Hv|].
      rewrite bind_Ret, ensureFieldElement_in_range; [reflexivity|].
      pose proof hex_window_below_modulus. lia.
Qed.

(** The two encodings on the same identifiers: "ab" is 0x6162 = 24930 to
    one and 0xab = 171 to the other, and the merchant wallet of the
    documentation, a base58 address, is rejected by the second. *)
Lemma identifier_encodings_disagree :
  BigInt (addressToFieldElement (js "ab")) = Ret 24930
  /\ bind (pubkeyToFieldElement (js "ab")) BigInt = Ret 171
  /\ addressToFieldElement (js "ab") = js "24930"
  /\ pubkeyToFieldElement (js "ab")
     = Ret (js "0x00000000000000000000000000000000000000000000000000000000000000ab")
  /\ pubkeyToFieldElement Samples.merchantWallet = Throw SyntaxError.
Proof. repeat split; vm_compute; reflexivity. Qed.

End CodecFacts.

(* ===================================================================== *)
(** * Commitments and nullifiers *)
(* ===================================================================== *)

Module CommitmentFacts.
Import JsFacts BytesFacts BigIntFacts RuntimeFacts UtilsFacts CodecFacts.
Import Verification.

(** ** The text of a number determines the number *)

Lemma digit_unit_not_minus radix c : digit_unit radix c -> c <> 45%N.
Proof.
  intros (d & Hd & ->). unfold digit_char.
  destruct (Z.ltb_spec d 10); lia.
Qed.

Lemma render_inj radix a b :
  2 <= radix <= 36 -> 0 <= a -> 0 <= b -> render radix a = render radix b -> a = b.
Proof.
  intros Hr Ha Hb E.
  pose proof (parse_render radix a Hr Ha) as Pa.
  pose proof (parse_render radix b Hr Hb) as Pb.
  rewrite E in Pa. congruence.
Qed.

Lemma render_not_minus radix n s : 0 < radix -> render radix n <> 45%N :: s.
Proof.
  intros Hr E. pose proof (render_digits radix n Hr) as Hd.
  rewrite E in Hd. inversion Hd as [|? ? Hc _]; subst.
  now apply digit_unit_not_minus in Hc.
Qed.

Lemma toString_inj radix a b :
  2 <= radix <= 36 -> toString radix a = toString radix b -> a = b.
Proof.
  intros Hr. unfold toString.
  destruct (Z.ltb_spec a 0), (Z.ltb_spec b 0); intros E.
  - injection E as E. apply render_inj in E; lia.
  - symmetry in E. apply render_not_minus in E; [contradiction | lia].
  - apply render_not_minus in E; [contradiction | lia].
  - apply render_inj in E; lia.
Qed.

Lemma toString_units radix h :
  0 < radix -> Forall (fun c => digit_unit radix c \/ c = 45%N) (toString radix h).
Proof.
  intros Hr. unfold toString.
  assert (forall n, Forall (fun c => digit_unit radix c \/ c = 45%N) (render radix n)).
  { intros n. eapply Forall_impl; [|apply render_digits; assumption]. now left. }
  destruct (h <? 0); [constructor; [now right|]|]; auto.
Qed.

(** ** Upper case *)

Lemma upper_differs s :
  Forall (fun c => digit_unit 16 c \/ c = 45%N) s ->
  has_hex_letter s = true -> toUpperCaseAscii s <> s.
Proof.
  induction 1 as [|c s Hc Hs IH]; simpl; [discriminate|].
  intros Hl E. injection E as Ec Es.
  apply orb_true_iff in Hl as [Hl|Hl]; [|now apply IH].
  unfold upper_unit in Ec. unfold is_hex_letter in Hl.
  destruct Hc as [Hc| ->]; [|discriminate].
  apply hex_unit_range in Hc.
  destruct (Z.leb_spec 97 (Z.of_N c)), (Z.leb_spec (Z.of_N c) 122),
    (Z.leb_spec (Z.of_N c) 102), (Z.leb_spec 65 (Z.of_N c)),
    (Z.leb_spec (Z.of_N c) 70); simpl in *; try discriminate; lia.
Qed.

(** ** Decimal against hexadecimal *)

Lemma digit_value_mono r r' c d :
  digit_value r c = Some d -> r <= r' -> digit_value r' c = Some d.
Proof.
  unfold digit_value. generalize (Z.of_N c). intros z.
  destruct (Z.leb_spec 48 z), (Z.leb_spec z 57), (Z.leb_spec 97 z),
    (Z.leb_spec z 122), (Z.leb_spec 65 z), (Z.leb_spec z 90); simpl;
    match goal with
    | |- (if ?u <? ?q then _ else _) = _ -> _ => destruct (Z.ltb_spec u q)
    end; intros Hd Hle; try discriminate; injection Hd as <-;
    match goal with
    | |- (if ?u <? ?q then _ else _) = _ => destruct (Z.ltb_spec u q)
    end; try reflexivity; lia.
Qed.

Lemma parse_strict s a b v u :
  0 <= a < b -> parse_digits 10 s a = Some v -> parse_digits 16 s b = Some u -> v < u.
Proof.
  revert a b. induction s as [|c s IH]; intros a b Hab; cbn [parse_digits].
  - intros [= <-] [= <-]. lia.
  - destruct (digit_value 10 c) as [d|] eqn:Ed; [|discriminate].
    rewrite (digit_value_mono 10 16 c d Ed ltac:(lia)).
    apply digit_value_range in Ed. apply IH. lia.
Qed.

Lemma parse_same s a v :
  0 <= a < 10 -> parse_digits 10 s a = Some v -> parse_digits 16 s a = Some v ->
  0 <= v < 10.
Proof.
  revert a. induction s as [|c s IH]; intros a Ha; cbn [parse_digits].
  - intros [= <-] _. lia.
  - destruct (digit_value 10 c) as [d|] eqn:Ed; [|discriminate].
    rewrite (digit_value_mono 10 16 c d Ed ltac:(lia)).
    apply digit_value_range in Ed.
    destruct (Z.eq_dec a 0) as [->|Hne].
    + simpl. apply IH. lia.
    + intros H10 H16.
      pose proof (parse_strict s (a * 10 + d) (a * 16 + d) v v ltac:(lia) H10 H16).
      lia.
Qed.

Lemma decimal_is_not_hex h : 10 <= h -> toString 10 h <> toString 16 h.
Proof.
  intros Hh. unfold toString. destruct (Z.ltb_spec h 0); [lia|]. intros E.
  pose proof (parse_render 10 h ltac:(lia) ltac:(lia)) as P10.
  pose proof (parse_render 16 h ltac:(lia) ltac:(lia)) as P16.
  rewrite <- E in P16.
  pose proof (parse_same _ 0 h ltac:(lia) P10 P16). lia.
Qed.

(** ** A verifier that compares strings is exact *)

Lemma streq_is_canonical (verify : jsstring -> outcome bool) (h : Z) :
  (forall candidate, verify candidate = Returned (streq (toString 16 h) candidate)) ->
  canonical_only verify h.
Proof.
  intros Hv. unfold canonical_only. split; [exact Hv|].
  split; [rewrite Hv, streq_refl; reflexivity|].
  split.
  { intros c Hc. rewrite Hv in Hc. injection Hc as Hc.
    apply streq_eq in Hc. now symmetry. }
  split.
  { rewrite Hv, streq_neq; [reflexivity|].
    intros E. apply (f_equal (@List.length N)) in E. simpl in E. lia. }
  split.
  { intros k. rewrite Hv, streq_neq; [reflexivity|].
    intros E. apply (f_equal (@List.length N)) in E.
    rewrite length_app, repeat_length in E. lia. }
  split.
  { intros Hl. rewrite Hv, streq_neq; [reflexivity|].
    intros E. symmetry in E. revert E. apply upper_differs; [|assumption].
    apply toString_units. lia. }
  intros Hh. rewrite Hv, streq_neq; [reflexivity|].
  intros E. symmetry in E. revert E. now apply decimal_is_not_hex.
Qed.

(** ** Running the two generators *)

Import Commitment.

Lemma run_generateCommitment w amount recipient token nonce amt nv m :
  nonce <> [] ->
  BigInt_of_number amount = Ret amt ->
  BigInt (js "0x" ++ nonce) = Ret nv ->
  run w (generateCommitment amount recipient token (Some nonce)) m =
  (Returned {| value := toString 16 (poseidon w (preimage amt recipient token nv));
               amount := amount; recipient := recipient; token := token;
               nonce := nonce |},
   {| drawn := drawn m; console := console m;
      hashed := preimage amt recipient token nv :: hashed m;
      proved := proved m |}).
Proof.
  intros Hne Ha Hn. unfold generateCommitment.
  destruct nonce as [|c rest]; [contradiction|].
  cbn [nonce_or_random]. rewrite bind_Ret, Ha, bind_Ret, Hn. reflexivity.
Qed.

Lemma run_verifyCommitment w candidate amount recipient token nonce amt nv :
  nonce <> [] ->
  BigInt_of_number amount = Ret amt ->
  BigInt (js "0x" ++ nonce) = Ret nv ->
  result_of w (verifyCommitment candidate amount recipient token nonce) =
  Returned (streq (toString 16 (poseidon w (preimage amt recipient token nv))) candidate).
Proof.
  intros Hne Ha Hn. unfold result_of, verifyCommitment.
  rewrite run_bind, (run_generateCommitment w _ _ _ _ amt nv) by assumption.
  reflexivity.
Qed.

Lemma run_verifyNullifier w candidate privateKey commitment paymentIndex sk cv idx :
  BigInt (js "0x" ++ privateKey) = Ret sk ->
  BigInt (js "0x" ++ commitment) = Ret cv ->
  BigInt_of_number paymentIndex = Ret idx ->
  result_of w (Nullifier.verifyNullifier candidate privateKey commitment paymentIndex) =
  Returned (streq (toString 16 (poseidon w [sk; cv; idx])) candidate).
Proof.
  intros Hs Hc Hi. unfold result_of, Nullifier.verifyNullifier, Nullifier.generateNullifier.
  rewrite Hs, bind_Ret, Hc, bind_Ret, Hi. reflexivity.
Qed.

End CommitmentFacts.

Module CommitmentClaims.
Import JsFacts BytesFacts BigIntFacts RuntimeFacts UtilsFacts CodecFacts CommitmentFacts.
Import Verification Commitment.

(** C10. For inputs that [generateCommitment] (resp. [generateNullifier])
    accepts, [verifyCommitment] and [verifyNullifier] return whether the
    candidate is, character for character, [toString(16)] of the recomputed
    hash: true for that text only, false for the same number written with
    a 0x prefix, with leading zeros, in upper case or in decimal. *)
Theorem verification_is_exact_hex
    (w : World)
    (amount : number) (recipient token nonce : jsstring) (amt nv : Z)
    (privateKey commitment : jsstring) (paymentIndex : number) (sk cv idx : Z) :
  nonce <> [] ->
  BigInt_of_number amount = Ret amt ->
  BigInt (js "0x" ++ nonce) = Ret nv ->
  BigInt (js "0x" ++ privateKey) = Ret sk ->
  BigInt (js "0x" ++ commitment) = Ret cv ->
  BigInt_of_number paymentIndex = Ret idx ->
  canonical_only
    (fun candidate =>
       result_of w (verifyCommitment candidate amount recipient token nonce))
    (poseidon w [amt; stringToBigInt recipient; stringToBigInt token; nv])
  /\ canonical_only
    (fun candidate =>
       result_of w (Nullifier.verifyNullifier candidate privateKey commitment paymentIndex))
    (poseidon w [sk; cv; idx]).
Proof.
  intros Hne Ha Hn Hs Hc Hi. split; apply streq_is_canonical; intros candidate.
  - now apply run_verifyCommitment.
  - now apply run_verifyNullifier.
Qed.

(** A 1,000,000-lamport payment to the merchant wallet with nonce "ab",
    and the first nullifier of key "1f" for commitment "c0ffee". *)
Lemma verification_is_exact_hex_sample :
  canonical_only
    (fun candidate =>
       result_of Samples.sampleWorld
         (verifyCommitment candidate (Integral 1000000)
            Samples.merchantWallet (js "SOL") (js "ab")))
    (Samples.samplePoseidon
       [1000000; stringToBigInt Samples.merchantWallet;
        stringToBigInt (js "SOL"); 171])
  /\ canonical_only
    (fun candidate =>
       result_of Samples.sampleWorld
         (Nullifier.verifyNullifier candidate (js "1f") (js "c0ffee") (Integral 0)))
    (Samples.samplePoseidon [31; 12648430; 0]).
Proof.
  apply (verification_is_exact_hex Samples.sampleWorld
           (Integral 1000000) Samples.merchantWallet (js "SOL") (js "ab")
           1000000 171 (js "1f") (js "c0ffee") (Integral 0) 31 12648430 0);
    first [discriminate | reflexivity].
Defined.

(** C7 (as amended). For an integral amount and a non-empty nonce that is
    a hexadecimal literal, [verifyCommitment] accepts the value
    [generateCommitment] returned for the same four inputs.  With inputs
    changed (and still accepted), it returns true exactly when Poseidon
    gives the same hash on the new integers, false exactly when the hash
    differs; in particular it still returns true whenever the changed
    inputs are read as the same four integers. *)
Theorem commitment_verifies_by_hash
    (w : World)
    (amount : number) (recipient token nonce : jsstring) (amt nv : Z)
    (amount' : number) (recipient' token' nonce' : jsstring) (amt' nv' : Z) :
  nonce <> [] ->
  BigInt_of_number amount = Ret amt ->
  BigInt (js "0x" ++ nonce) = Ret nv ->
  nonce' <> [] ->
  BigInt_of_number amount' = Ret amt' ->
  BigInt (js "0x" ++ nonce') = Ret nv' ->
  exists cm,
    result_of w (generateCommitment amount recipient token (Some nonce)) = Returned cm
    /\ value cm = toString 16 (poseidon w (preimage amt recipient token nv))
    /\ result_of w (verifyCommitment (value cm) amount recipient token nonce)
       = Returned true
    /\ (result_of w (verifyCommitment (value cm) amount' recipient' token' nonce')
          = Returned true
        <-> poseidon w (preimage amt' recipient' token' nv')
            = poseidon w (preimage amt recipient token nv))
    /\ (result_of w (verifyCommitment (value cm) amount' recipient' token' nonce')
          = Returned false
        <-> poseidon w (preimage amt' recipient' token' nv')
            <> poseidon w (preimage amt recipient token nv))
    /\ (preimage amt' recipient' token' nv' = preimage amt recipient token nv ->
        result_of w (verifyCommitment (value cm) amount' recipient' token' nonce')
          = Returned true).
Proof.
  intros Hne Ha Hn Hne' Ha' Hn'.
  eexists. split.
  { unfold result_of. rewrite (run_generateCommitment w _ _ _ _ amt nv) by assumption.
    reflexivity. }
  cbn [value]. split; [reflexivity|].
  rewrite (run_verifyCommitment w _ _ _ _ _ amt nv) by assumption.
  rewrite (run_verifyCommitment w _ _ _ _ _ amt' nv') by assumption.
  rewrite streq_refl.
  set (h := poseidon w (preimage amt recipient token nv)).
  set (h' := poseidon w (preimage amt' recipient' token' nv')).
  assert (Hiff : streq (toString 16 h') (toString 16 h) = true <-> h' = h).
  { rewrite streq_eq. split; [apply toString_inj; lia | now intros ->]. }
  split; [reflexivity|]. split; [|split].
  - rewrite <- Hiff. split; [now intros [= ->] | now intros ->].
  - split.
    + intros [= E] Heq. apply Hiff in Heq. congruence.
    + intros Hd. destruct (streq _ _) eqn:E; [|reflexivity].
      exfalso. apply Hd, Hiff. reflexivity.
  - intros Hp. subst h h'. rewrite Hp, streq_refl. reflexivity.
Qed.

(** Changing the letter case of the nonce leaves the four integers, and so
    the verdict, unchanged. *)
Lemma commitment_verifies_by_hash_sample :
  exists cm,
    result_of Samples.sampleWorld
      (generateCommitment (Integral 1000000) Samples.merchantWallet (js "SOL")
         (Some (js "ab"))) = Returned cm
    /\ result_of Samples.sampleWorld
         (verifyCommitment (value cm) (Integral 1000000) Samples.merchantWallet
            (js "SOL") (js "AB")) = Returned true.
Proof.
  assert (Hab : js "ab" <> []) by discriminate.
  assert (HAB : js "AB" <> []) by discriminate.
  destruct (commitment_verifies_by_hash Samples.sampleWorld
              (Integral 1000000) Samples.merchantWallet (js "SOL") (js "ab")
              1000000 171
              (Integral 1000000) Samples.merchantWallet (js "SOL") (js "AB")
              1000000 171 Hab eq_refl eq_refl HAB eq_refl eq_refl)
    as (cm & Hgen & _ & _ & _ & _ & Hsame).
  exists cm. split; [exact Hgen | apply Hsame; reflexivity].
Defined.

(** Inputs on which the claim of C7 fails: a nonce changed from "ab" to
    "AB", a recipient changed from "a" to U+0000 followed by "a", and a
    nonce changed from "ab" to "0ab" are all still accepted; and with the
    empty nonce each call draws a nonce of its own, so the value just
    generated is rejected. *)
Lemma commitment_change_undetected :
  (streq (js "ab") (js "AB") = false
   /\ result_of Samples.sampleWorld
        (bind (generateCommitment (Integral 1000000) (js "a") (js "SOL") (Some (js "ab")))
           (fun cm => verifyCommitment (value cm) (Integral 1000000) (js "a")
                        (js "SOL") (js "AB")))
      = Returned true)
  /\ (streq (js "a") (0%N :: js "a") = false
      /\ result_of Samples.sampleWorld
           (bind (generateCommitment (Integral 1000000) (js "a") (js "SOL") (Some (js "ab")))
              (fun cm => verifyCommitment (value cm) (Integral 1000000) (0%N :: js "a")
                           (js "SOL") (js "ab")))
         = Returned true)
  /\ (streq (js "ab") (js "0ab") = false
      /\ result_of Samples.sampleWorld
           (bind (generateCommitment (Integral 1000000) (js "a") (js "SOL") (Some (js "ab")))
              (fun cm => verifyCommitment (value cm) (Integral 1000000) (js "a")
                           (js "SOL") (js "0ab")))
         = Returned true)
  /\ result_of Samples.sampleWorld
       (bind (generateCommitment (Integral 1000000) (js "a") (js "SOL") (Some []))
          (fun cm => verifyCommitment (value cm) (Integral 1000000) (js "a")
                       (js "SOL") []))
     = Returned false.
Proof. repeat split; vm_compute; reflexivity. Qed.

(** C5 (as amended). Neither derivation checks its inputs against the
    field: whenever the arguments are read at all, Poseidon is called, once,
    on the integers exactly as read (whatever their sign or size), and the
    derivation returns; the only value reduced modulo [p] is the encoding
    of the token in [computePaymentCommitment]. *)
Theorem hash_inputs_are_not_checked
    (w : World)
    (amount : number) (recipient token nonce : jsstring) (amt nv : Z)
    (senderCommitment receiverCommitment tokenMint salt : jsstring)
    (lamports sc rc sa : Z) :
  nonce <> [] ->
  BigInt_of_number amount = Ret amt ->
  BigInt (js "0x" ++ nonce) = Ret nv ->
  toBigInt senderCommitment = Ret sc ->
  toBigInt receiverCommitment = Ret rc ->
  toBigInt salt = Ret sa ->
  (exists cm,
     run w (generateCommitment amount recipient token (Some nonce)) boot =
     (Returned cm,
      {| drawn := 0; console := [];
         hashed := [[amt; stringToBigInt recipient; stringToBigInt token; nv]];
         proved := [] |}))
  /\ (exists out,
     run w (computePaymentCommitment senderCommitment receiverCommitment
              lamports tokenMint salt) boot =
     (Returned out,
      {| drawn := 0; console := [];
         hashed := [[sc; rc; lamports; addressFieldValue tokenMint; sa]];
         proved := [] |})).
Proof.
  intros Hne Ha Hn Hsc Hrc Hsa. split.
  - eexists. rewrite (run_generateCommitment w _ _ _ _ amt nv) by assumption.
    reflexivity.
  - eexists. unfold computePaymentCommitment.
    rewrite Hsc, bind_Ret, Hrc, bind_Ret, toBigInt_address, bind_Ret, Hsa.
    reflexivity.
Qed.

(** An amount of -1 and the 44-character merchant wallet as recipient; a
    sender commitment of 2^256 - 1 and -5 lamports. *)
Lemma hash_inputs_are_not_checked_sample :
  (exists cm,
     run Samples.sampleWorld
         (generateCommitment (Integral (-1)) Samples.merchantWallet (js "SOL")
            (Some (js "ab"))) boot =
     (Returned cm,
      {| drawn := 0; console := [];
         hashed := [[-1; stringToBigInt Samples.merchantWallet;
                     stringToBigInt (js "SOL"); 171]];
         proved := [] |}))
  /\ (exists out,
     run Samples.sampleWorld
         (computePaymentCommitment
            (js "0xffffffffffffffffffffffffffffffffffffffffffffffffffffffffffffffff")
            (js "12345") (-5) (js "SOL") (js "0xab")) boot =
     (Returned out,
      {| drawn := 0; console := [];
         hashed := [[2 ^ 256 - 1; 12345; -5; addressFieldValue (js "SOL"); 171]];
         proved := [] |})).
Proof.
  apply (hash_inputs_are_not_checked Samples.sampleWorld
           (Integral (-1)) Samples.merchantWallet (js "SOL") (js "ab") (-1) 171
           (js "0xffffffffffffffffffffffffffffffffffffffffffffffffffffffffffffffff")
           (js "12345") (js "SOL") (js "0xab") (-5) (2 ^ 256 - 1) 12345 171);
    first [discriminate | reflexivity].
Defined.

(** Inputs on which the claim of C5 fails: Poseidon receives -1 and the
    352-bit integer of the wallet text from [generateCommitment], and
    2^256 - 1 and -5 from [computePaymentCommitment]; no error is raised and
    nothing is reduced. *)
Lemma out_of_field_values_reach_poseidon :
  (exists cm,
     run Samples.sampleWorld
         (generateCommitment (Integral (-1)) Samples.merchantWallet (js "SOL")
            (Some (js "ab"))) boot =
     (Returned cm,
      {| drawn := 0; console := [];
         hashed := [[-1; stringToBigInt Samples.merchantWallet; 5459788; 171]];
         proved := [] |}))
  /\ (Utils.BN254_FIELD_MODULUS <=? stringToBigInt Samples.merchantWallet) = true
  /\ (exists out,
     run Samples.sampleWorld
         (computePaymentCommitment
            (js "0xffffffffffffffffffffffffffffffffffffffffffffffffffffffffffffffff")
            (js "12345") (-5) (js "SOL") (js "0xab")) boot =
     (Returned out,
      {| drawn := 0; console := [];
         hashed := [[2 ^ 256 - 1; 12345; -5; 5459788; 171]];
         proved := [] |}))
  /\ (Utils.BN254_FIELD_MODULUS <=? 2 ^ 256 - 1) = true.
Proof.
  split; [|split; [|split]]; try (eexists; vm_compute; reflexivity);
    vm_compute; reflexivity.
Qed.

End CommitmentClaims.

(* ===================================================================== *)
(** * Assembling the circuit inputs *)
(* ===================================================================== *)

Module ProofFacts.
Import JsFacts BytesFacts BigIntFacts RuntimeFacts UtilsFacts CodecFacts CommitmentFacts.
Import ProofGenerator Assembly.

Lemma run_catch {A : Type} (w : World) (p : prog A) (h : jsError -> prog A) m :
  run w (catch p h) m =
  match run w p m with
  | (Returned a, m') => (Returned a, m')
  | (Thrown e, m') => run w (h e) m'
  end.
Proof.
  revert m. induction p as [a|e|X ev k IH]; intros m; simpl; try reflexivity.
  destruct ev; apply IH.
Qed.

Lemma modulus_pos : 0 < BN254_FIELD_MODULUS.
Proof. reflexivity. Qed.

Lemma run_ensure_reduces w v name m :
  BN254_FIELD_MODULUS <= v ->
  run w (ensureFieldElement v name) m =
  (Returned (v mod BN254_FIELD_MODULUS),
   {| drawn := drawn m; console := modulo_warning name :: console m;
      hashed := hashed m; proved := proved m |}).
Proof.
  intros Hv. unfold ensureFieldElement.
  destruct (Z.leb_spec BN254_FIELD_MODULUS v); [|lia]. simpl.
  pose proof modulus_pos. rewrite Z.rem_mod_nonneg by lia. reflexivity.
Qed.

Lemma run_ensure_negative w v name m :
  v < 0 ->
  run w (ensureFieldElement v name) m =
  (Thrown (Error (name ++ js " cannot be negative: " ++ toString 10 v)), m).
Proof.
  intros Hv. unfold ensureFieldElement. pose proof modulus_pos.
  destruct (Z.leb_spec BN254_FIELD_MODULUS v); [lia|].
  destruct (Z.ltb_spec v 0); [reflexivity | lia].
Qed.

Lemma run_ensure w v name m :
  0 <= v ->
  run w (ensureFieldElement v name) m =
  (Returned (v mod BN254_FIELD_MODULUS), after_field name v m).
Proof.
  intros Hv. unfold after_field.
  destruct (Z.leb_spec BN254_FIELD_MODULUS v).
  - now apply run_ensure_reduces.
  - rewrite ensureFieldElement_in_range by lia.
    rewrite Z.mod_small by lia. reflexivity.
Qed.

Lemma hexToBigInt_nonneg hex v : hexToBigInt hex = Ret v -> 0 <= v.
Proof.
  unfold hexToBigInt. intros H.
  eapply (BigInt_0x_bound _ _ v (Nat.le_refl _)) in H. lia.
Qed.

Lemma run_hex_field w hex name v m :
  hexToBigInt hex = Ret v ->
  run w (hex_field hex name) m = (Returned (field_text v), after_field name v m).
Proof.
  intros H. unfold hex_field. rewrite H, bind_Ret, run_bind.
  rewrite run_ensure by (eapply hexToBigInt_nonneg; eassumption). reflexivity.
Qed.

Lemma run_big_field w v name m :
  0 <= v ->
  run w (big_field v name) m = (Returned (field_text v), after_field name v m).
Proof.
  intros H. unfold big_field. rewrite run_bind, run_ensure by assumption. reflexivity.
Qed.

Lemma proved_after_field name v m : proved (after_field name v m) = proved m.
Proof. unfold after_field. now destruct (_ <=? _). Qed.

Lemma field_text_passes key v : passes (key, field_text v).
Proof.
  exists (v mod BN254_FIELD_MODULUS). split; [apply BigInt_decimal|].
  apply Z.mod_pos_bound, modulus_pos.
Qed.

Lemma checkEntries_pass entries : Forall passes entries -> checkEntries entries = Ret tt.
Proof.
  induction 1 as [|[key value] rest (v & Hv & Hlt) _ IH]; [reflexivity|].
  cbn [checkEntries]. simpl in Hv. rewrite Hv, bind_Ret.
  destruct (Z.leb_spec BN254_FIELD_MODULUS v); [lia | exact IH].
Qed.

Lemma checkEntries_stop good key value rest v :
  Forall passes good -> BigInt value = Ret v -> BN254_FIELD_MODULUS <= v ->
  checkEntries (good ++ (key, value) :: rest) = Throw (exceeds_error key).
Proof.
  intros Hgood Hv Hge. induction Hgood as [|[k0 v0] good (u & Hu & Hlt) _ IH].
  - cbn [app checkEntries]. rewrite Hv, bind_Ret.
    destruct (Z.leb_spec BN254_FIELD_MODULUS v); [reflexivity | lia].
  - cbn [app checkEntries]. simpl in Hu. rewrite Hu, bind_Ret.
    destruct (Z.leb_spec BN254_FIELD_MODULUS u); [lia | exact IH].
Qed.

Lemma run_fullProve w ci m :
  run w (fullProve ci) m =
  (groth16 w ci,
   {| drawn := drawn m; console := console m; hashed := hashed m;
      proved := ci :: proved m |}).
Proof. unfold fullProve. simpl. now destruct (groth16 w ci). Qed.

Section Assembled.
Variables (w : World) (inputs : ProofInputs) (token : jsstring).
Variables (sc ss rc sa c1 c2 er sr rk : Z).
Hypothesis Htoken : tokenMintFieldElement (tokenMint inputs) = Ret token.
Hypothesis Hsc : hexToBigInt (senderCommitment inputs) = Ret sc.
Hypothesis Hss : hexToBigInt (senderSecret inputs) = Ret ss.
Hypothesis Hrc : hexToBigInt (receiverCommitment inputs) = Ret rc.
Hypothesis Hsa : hexToBigInt (salt inputs) = Ret sa.
Hypothesis Hc1 : hexToBigInt (encryptedC1 inputs) = Ret c1.
Hypothesis Hc2 : hexToBigInt (encryptedC2 inputs) = Ret c2.
Hypothesis Her : hexToBigInt (elgamalRandomness inputs) = Ret er.
Hypothesis Hsr : hexToBigInt (shadowidRoot inputs) = Ret sr.
Hypothesis Hrk : hexToBigInt (receiverElGamalPubkey inputs) = Ret rk.
Hypothesis Hamount : 0 <= amount inputs.
Hypothesis HmaxAmount : 0 <= maxAmount inputs.

Lemma run_buildCircuitInputs :
  exists m,
    run w (buildCircuitInputs inputs) boot
      = (Returned (assembled inputs token sc ss rc sa c1 c2 er sr rk), m)
    /\ proved m = [].
Proof.
  unfold buildCircuitInputs. rewrite Htoken, bind_Ret.
  repeat first
    [ rewrite run_bind, (run_hex_field w _ _ _ _ Hsc)
    | rewrite run_bind, (run_hex_field w _ _ _ _ Hss)
    | rewrite run_bind, (run_hex_field w _ _ _ _ Hrc)
    | rewrite run_bind, (run_hex_field w _ _ _ _ Hsa)
    | rewrite run_bind, (run_hex_field w _ _ _ _ Hc1)
    | rewrite run_bind, (run_hex_field w _ _ _ _ Hc2)
    | rewrite run_bind, (run_hex_field w _ _ _ _ Her)
    | rewrite run_bind, (run_hex_field w _ _ _ _ Hsr)
    | rewrite run_bind, (run_hex_field w _ _ _ _ Hrk)
    | rewrite run_bind, (run_big_field w _ _ _ Hamount)
    | rewrite run_bind, (run_big_field w _ _ _ HmaxAmount) ].
  eexists. split; [reflexivity|].
  now rewrite !proved_after_field.
Qed.

Lemma good_prefix :
  Forall passes
    [ (js "sender_commitment", field_text sc);
      (js "sender_secret", field_text ss);
      (js "receiver_commitment", field_text rc);
      (js "amount", field_text (amount inputs)) ].
Proof. repeat constructor; apply field_text_passes. Qed.

Lemma good_suffix :
  Forall passes
    [ (js "salt", field_text sa);
      (js "encrypted_amount_c1", field_text c1);
      (js "encrypted_amount_c2", field_text c2);
      (js "elgamal_randomness", field_text er);
      (js "shadowid_root", field_text sr);
      (js "max_amount", field_text (maxAmount inputs));
      (js "receiver_elgamal_pubkey", field_text rk) ].
Proof. repeat constructor; apply field_text_passes. Qed.

(** With a token text the loop accepts, the prover is called on the
    assembled object and its answer is the answer of [generateProof]. *)
Lemma run_generateProof_pass :
  passes (js "token_mint", token) ->
  fst (run w (generateProof inputs) boot)
    = match groth16 w (assembled inputs token sc ss rc sa c1 c2 er sr rk) with
      | Returned g => Returned g
      | Thrown e => Thrown (ProofGenerationError e)
      end
  /\ proved (snd (run w (generateProof inputs) boot))
     = [assembled inputs token sc ss rc sa c1 c2 er sr rk].
Proof.
  intros Htok. destruct run_buildCircuitInputs as (m & Hrun & Hproved).
  unfold generateProof. rewrite run_catch, run_bind, Hrun, run_bind.
  rewrite checkEntries_pass.
  - cbn [run]. rewrite run_fullProve, Hproved.
    destruct (groth16 w _); split; reflexivity.
  - change (scalar_entries (assembled inputs token sc ss rc sa c1 c2 er sr rk))
      with ([ (js "sender_commitment", field_text sc);
              (js "sender_secret", field_text ss);
              (js "receiver_commitment", field_text rc);
              (js "amount", field_text (amount inputs)) ]
            ++ (js "token_mint", token)
            :: [ (js "salt", field_text sa);
                 (js "encrypted_amount_c1", field_text c1);
                 (js "encrypted_amount_c2", field_text c2);
                 (js "elgamal_randomness", field_text er);
                 (js "shadowid_root", field_text sr);
                 (js "max_amount", field_text (maxAmount inputs));
                 (js "receiver_elgamal_pubkey", field_text rk) ]).
    apply Forall_app. split; [apply good_prefix|].
    constructor; [exact Htok | apply good_suffix].
Qed.

(** With a token text that denotes [t >= p], the loop stops at token_mint
    and the prover is never called. *)
Lemma run_generateProof_token_rejected t :
  BigInt token = Ret t -> BN254_FIELD_MODULUS <= t ->
  fst (run w (generateProof inputs) boot)
    = Thrown (ProofGenerationError (exceeds_error (js "token_mint")))
  /\ proved (snd (run w (generateProof inputs) boot)) = [].
Proof.
  intros Ht Hge. destruct run_buildCircuitInputs as (m & Hrun & Hproved).
  unfold generateProof. rewrite run_catch, run_bind, Hrun, run_bind.
  change (scalar_entries (assembled inputs token sc ss rc sa c1 c2 er sr rk))
    with ([ (js "sender_commitment", field_text sc);
            (js "sender_secret", field_text ss);
            (js "receiver_commitment", field_text rc);
            (js "amount", field_text (amount inputs)) ]
          ++ (js "token_mint", token)
          :: [ (js "salt", field_text sa);
               (js "encrypted_amount_c1", field_text c1);
               (js "encrypted_amount_c2", field_text c2);
               (js "elgamal_randomness", field_text er);
               (js "shadowid_root", field_text sr);
               (js "max_amount", field_text (maxAmount inputs));
               (js "receiver_elgamal_pubkey", field_text rk) ]).
  rewrite (checkEntries_stop _ _ _ _ t good_prefix Ht Hge).
  cbn [run fst snd]. split; [reflexivity | exact Hproved].
Qed.

End Assembled.

End ProofFacts.

Module ProofClaims.
Import JsFacts BytesFacts BigIntFacts RuntimeFacts UtilsFacts CodecFacts CommitmentFacts.
Import ProofGenerator Assembly ProofFacts.

Lemma tokenMint_decimal t :
  1 <= t -> tokenMintFieldElement (toString 10 t) = Ret (toString 10 t).
Proof.
  intros Ht. unfold tokenMintFieldElement.
  assert (E0 : streq (toString 10 t) (js "0") = false).
  { apply streq_neq. change (js "0") with (toString 10 0).
    intros E. apply toString_inj in E; lia. }
  rewrite E0, orb_false_r. clear E0.
  unfold toString. destruct (Z.ltb_spec t 0); [lia|].
  pose proof (render_digits 10 t ltac:(lia)) as Hd.
  rewrite (decimal_no_hex_letter _ Hd), orb_false_r.
  destruct (render_cons 10 t) as (c & s & E). rewrite E in *.
  inversion Hd as [|? ? Hc Hs]; subst. apply decimal_unit_range in Hc.
  assert (E1 : streq (c :: s) (js "SOL") = false).
  { simpl. destruct (N.eqb_spec c 83); [lia | reflexivity]. }
  rewrite E1. clear E1.
  destruct s as [|c1 ds]; simpl.
  - rewrite andb_false_r. reflexivity.
  - inversion Hs as [|? ? Hc1 _]; subst. apply decimal_unit_range in Hc1.
    destruct (N.eqb_spec c1 120); [lia|]. simpl. rewrite andb_false_r. reflexivity.
Qed.

(** C3 (as amended). No input that is too large is rejected by
    [ensureFieldElement]: for [v >= p] it prints a warning on the console
    and returns [v mod p]; it throws only for a negative [v], with an error
    that names the input.  The eleven scalar inputs other than token_mint
    go through it.  So when the nine hexadecimal inputs and the token are
    read and the two amounts are not negative, then, for a token value
    below [p], [generateProof] hands the prover an object whose scalar
    entries are the decimal texts of [v mod p], and returns the prover's
    answer.  The one input rejected for reaching [p] is token_mint, which
    the later loop reads: a token value [tv >= p] raises
    Circuit input "token_mint" exceeds BN254 field modulus (inside
    ProofGenerationError) and the prover is not called; the decimal text
    of any [t >= p] is such a token.  The two arrays merkle_path and
    path_indices go through no check at all: whatever the prover is
    called with has them as they were given. *)
Theorem circuit_inputs_are_reduced
    (w : World) (inputs : ProofInputs) (token : jsstring)
    (sc ss rc sa c1 c2 er sr rk tv : Z) :
  tokenMintFieldElement (tokenMint inputs) = Ret token ->
  BigInt token = Ret tv ->
  hexToBigInt (senderCommitment inputs) = Ret sc ->
  hexToBigInt (senderSecret inputs) = Ret ss ->
  hexToBigInt (receiverCommitment inputs) = Ret rc ->
  hexToBigInt (salt inputs) = Ret sa ->
  hexToBigInt (encryptedC1 inputs) = Ret c1 ->
  hexToBigInt (encryptedC2 inputs) = Ret c2 ->
  hexToBigInt (elgamalRandomness inputs) = Ret er ->
  hexToBigInt (shadowidRoot inputs) = Ret sr ->
  hexToBigInt (receiverElGamalPubkey inputs) = Ret rk ->
  0 <= amount inputs ->
  0 <= maxAmount inputs ->
  (forall v name m,
      BN254_FIELD_MODULUS <= v ->
      run w (ensureFieldElement v name) m =
      (Returned (v mod BN254_FIELD_MODULUS),
       {| drawn := drawn m; console := modulo_warning name :: console m;
          hashed := hashed m; proved := proved m |}))
  /\ (forall v name m,
      v < 0 ->
      run w (ensureFieldElement v name) m =
      (Thrown (Error (name ++ js " cannot be negative: " ++ toString 10 v)), m))
  /\ (forall v name m,
      0 <= v < BN254_FIELD_MODULUS ->
      run w (ensureFieldElement v name) m = (Returned v, m))
  /\ (tv < BN254_FIELD_MODULUS ->
      fst (run w (generateProof inputs) boot)
      = match groth16 w (assembled inputs token sc ss rc sa c1 c2 er sr rk) with
        | Returned g => Returned g
        | Thrown e => Thrown (ProofGenerationError e)
        end
      /\ proved (snd (run w (generateProof inputs) boot))
         = [assembled inputs token sc ss rc sa c1 c2 er sr rk])
  /\ (BN254_FIELD_MODULUS <= tv ->
      fst (run w (generateProof inputs) boot)
      = Thrown (ProofGenerationError (exceeds_error (js "token_mint")))
      /\ proved (snd (run w (generateProof inputs) boot)) = [])
  /\ (forall t,
      BN254_FIELD_MODULUS <= t ->
      fst (run w (generateProof (with_tokenMint inputs (toString 10 t))) boot)
      = Thrown (ProofGenerationError (exceeds_error (js "token_mint")))
      /\ proved (snd (run w (generateProof (with_tokenMint inputs (toString 10 t))) boot))
         = [])
  /\ (forall ci,
      In ci (proved (snd (run w (generateProof inputs) boot))) ->
      merkle_path ci = merklePath inputs /\ path_indices ci = pathIndices inputs).
Proof.
  intros Htok Htv Hsc Hss Hrc Hsa Hc1 Hc2 Her Hsr Hrk Ha Hm.
  split; [intros; now apply run_ensure_reduces|].
  split; [intros; now apply run_ensure_negative|].
  split; [intros v name m Hv; now rewrite ensureFieldElement_in_range|].
  assert (Hpass : tv < BN254_FIELD_MODULUS ->
     fst (run w (generateProof inputs) boot)
     = match groth16 w (assembled inputs token sc ss rc sa c1 c2 er sr rk) with
       | Returned g => Returned g
       | Thrown e => Thrown (ProofGenerationError e)
       end
     /\ proved (snd (run w (generateProof inputs) boot))
        = [assembled inputs token sc ss rc sa c1 c2 er sr rk]).
  { intros Hlt. apply run_generateProof_pass; try assumption.
    exists tv. split; [exact Htv | exact Hlt]. }
  assert (Hstop : BN254_FIELD_MODULUS <= tv ->
     fst (run w (generateProof inputs) boot)
     = Thrown (ProofGenerationError (exceeds_error (js "token_mint")))
     /\ proved (snd (run w (generateProof inputs) boot)) = []).
  { intros Hge.
    apply (run_generateProof_token_rejected w inputs token sc ss rc sa c1 c2 er sr rk)
      with (t := tv); assumption. }
  split; [exact Hpass|]. split; [exact Hstop|].
  split.
  { intros t Ht. pose proof modulus_pos.
    apply (run_generateProof_token_rejected w (with_tokenMint inputs (toString 10 t))
             (toString 10 t) sc ss rc sa c1 c2 er sr rk) with (t := t);
      try assumption.
    - cbn [tokenMint with_tokenMint]. apply tokenMint_decimal. lia.
    - apply BigInt_decimal. }
  intros ci Hin. destruct (Z.lt_ge_cases tv BN254_FIELD_MODULUS) as [Hlt|Hge].
  - destruct (Hpass Hlt) as [_ Hp]. rewrite Hp in Hin.
    destruct Hin as [<-|[]]. split; reflexivity.
  - destruct (Hstop Hge) as [_ Hp]. rewrite Hp in Hin. destruct Hin.
Qed.

(** The sample inputs, whose amount is p + 7: the prover receives "7". *)
Lemma circuit_inputs_are_reduced_sample :
  proved (snd (run Samples.sampleWorld (generateProof Samples.sampleInputs) boot))
  = [assembled Samples.sampleInputs (js "0") 42 31 7 171 193 194 0 153 13].
Proof.
  exact (proj2 (proj1 (proj2 (proj2 (proj2
           (circuit_inputs_are_reduced Samples.sampleWorld Samples.sampleInputs
              (js "0") 42 31 7 171 193 194 0 153 13 0
              eq_refl eq_refl
              eq_refl eq_refl eq_refl eq_refl eq_refl eq_refl eq_refl eq_refl
              eq_refl
              (Z.add_nonneg_nonneg _ _ (Z.lt_le_incl _ _ modulus_pos) (Zle_0_pos 7))
              (Zle_0_pos 14))))) modulus_pos)).
Defined.

(** An input on which the claim of C3 fails: with the amount p + 7 no
    error is raised; the console gets the warning for "amount", the prover
    is called with the amount "7" and its proof is returned. *)
Lemma out_of_field_amount_is_reduced :
  fst (run Samples.sampleWorld (generateProof Samples.sampleInputs) boot)
    = Returned {| proof := js "{}"; publicSignals := [js "153"; js "14"] |}
  /\ console (snd (run Samples.sampleWorld (generateProof Samples.sampleInputs) boot))
     = [modulo_warning (js "amount")]
  /\ map Runtime.amount
       (proved (snd (run Samples.sampleWorld (generateProof Samples.sampleInputs) boot)))
     = [js "7"].
Proof. repeat split; vm_compute; reflexivity. Qed.

(** A sibling of p + 5 and a path index of 7 reach the prover as they
    are, with no warning. *)
Lemma unchecked_arrays_reach_prover :
  map merkle_path
    (proved (snd (run Samples.sampleWorld (generateProof MoreSamples.rawPathInputs) boot)))
  = [[toString 10 (BN254_FIELD_MODULUS + 5)]]
  /\ map path_indices
       (proved (snd (run Samples.sampleWorld (generateProof MoreSamples.rawPathInputs) boot)))
     = [[Integral 7]]
  /\ console (snd (run Samples.sampleWorld (generateProof MoreSamples.rawPathInputs) boot))
     = [].
Proof. repeat split; vm_compute; reflexivity. Qed.

End ProofClaims.

(* ===================================================================== *)
(** * ElGamal over the curve library *)
(* ===================================================================== *)

Module ElGamalFacts.
Import JsFacts BytesFacts BigIntFacts RuntimeFacts.
Import Curve ElGamal.

Lemma n_pos : 0 < n.
Proof. reflexivity. Qed.

Lemma maxAmount_below_n : maxAmount + 1 < n.
Proof. reflexivity. Qed.

Lemma hexToNumber_numberToHex v : 0 <= v -> hexToNumber (numberToHex v) = Ret v.
Proof. intros Hv. unfold hexToNumber, numberToHex. now apply BigInt_0x_padded. Qed.


Lemma scalar_range bytes : 0 <= Z.rem (bytesToNumberBE bytes) n < n.
Proof.
  unfold bytesToNumberBE. pose proof (be_bytes_bound bytes). pose proof n_pos.
  rewrite Z.rem_mod_nonneg by lia. apply Z.mod_pos_bound. lia.
Qed.

Section WithCurve.
Context {curve : G1}.

Lemma pointOfHex_affine P :
  inG1 P -> pointOfHex (hexPoint (toAffine P)) = Ret (fromAffine (toAffine P)).
Proof.
  intros HP. unfold pointOfHex, hexPoint. cbn [ElGamal.x ElGamal.y].
  rewrite hexToNumber_numberToHex by now apply affine_x_nonneg.
  rewrite bind_Ret.
  rewrite hexToNumber_numberToHex by now apply affine_y_nonneg.
  rewrite bind_Ret. now destruct (toAffine P).
Qed.

Lemma multiply_cases P k :
  inG1 P ->
  (1 <= k < n /\ exists Q, multiply P k = Ret Q /\ inG1 Q /\ dlog Q = (k * dlog P) mod n)
  \/ (~ (1 <= k < n) /\ multiply P k = Throw CurveError).
Proof.
  intros HP. destruct (Z_le_dec 1 k) as [H1|H1]; [destruct (Z_lt_dec k n) as [H2|H2]|].
  - left. split; [lia|]. apply multiply_accepts; [assumption | lia].
  - right. split; [lia|]. apply multiply_rejects. lia.
  - right. split; [lia|]. apply multiply_rejects. lia.
Qed.

Lemma multiply_BASE k :
  1 <= k < n -> exists Q, multiply BASE k = Ret Q /\ inG1 Q /\ dlog Q = k.
Proof.
  intros Hk. destruct (multiply_accepts BASE k BASE_inG1 Hk) as (Q & HQ & Hin & Hd).
  exists Q. repeat split; try assumption.
  rewrite Hd, BASE_dlog, Z.mul_1_r. apply Z.mod_small. lia.
Qed.

(** ** The search *)

(** One turn of the loop on a candidate the library accepts. *)
Lemma search_step fuel i point :
  inG1 point -> 1 <= i < n ->
  search (S fuel) i point =
  if dlog point =? i then Ret i else search fuel (i + 1) point.
Proof.
  intros Hp Hi. destruct (multiply_BASE i Hi) as (Q & HQ & Hin & Hd).
  cbn [search]. rewrite HQ. cbn [bind catch].
  rewrite (equals_dlog point Q Hp Hin), Hd.
  now destruct (dlog point =? i).
Qed.

(** The search returns the discrete logarithm when it lies in the range
    it scans. *)
Lemma search_finds fuel i point :
  inG1 point -> 1 <= i -> i + Z.of_nat fuel <= n ->
  i <= dlog point < i + Z.of_nat fuel ->
  search fuel i point = Ret (dlog point).
Proof.
  intros Hp. revert i. induction fuel as [|fuel IH]; intros i Hi Hn Hd; [lia|].
  rewrite search_step by (try assumption; lia).
  destruct (Z.eqb_spec (dlog point) i) as [->|Hne]; [reflexivity|].
  apply IH; lia.
Qed.

(** It throws when the discrete logarithm lies outside. *)
Lemma search_fails fuel i point :
  inG1 point -> 1 <= i -> i + Z.of_nat fuel <= n ->
  ~ (i <= dlog point < i + Z.of_nat fuel) ->
  search fuel i point = Throw decrypt_error.
Proof.
  intros Hp. revert i. induction fuel as [|fuel IH]; intros i Hi Hn Hd; [reflexivity|].
  rewrite search_step by (try assumption; lia).
  destruct (Z.eqb_spec (dlog point) i) as [E|Hne]; [lia|].
  apply IH; lia.
Qed.

Lemma maxAmount_fuel : Z.of_nat (Z.to_nat maxAmount) = maxAmount.
Proof. apply Z2Nat.id. unfold maxAmount. lia. Qed.

Lemma recover_in_range point :
  inG1 point -> 0 <= dlog point <= maxAmount ->
  recoverAmountFromPoint point = Ret (dlog point).
Proof.
  intros Hp Hd. unfold recoverAmountFromPoint.
  rewrite (equals_dlog point ZERO Hp ZERO_inG1), ZERO_dlog.
  destruct (Z.eqb_spec (dlog point) 0) as [->|Hne]; [reflexivity|].
  pose proof maxAmount_below_n.
  apply search_finds; rewrite ?maxAmount_fuel; try assumption; lia.
Qed.

Lemma recover_out_of_range point :
  inG1 point -> maxAmount < dlog point ->
  recoverAmountFromPoint point = Throw decrypt_error.
Proof.
  intros Hp Hd. unfold recoverAmountFromPoint.
  rewrite (equals_dlog point ZERO Hp ZERO_inG1), ZERO_dlog.
  assert (0 < maxAmount) by reflexivity.
  destruct (Z.eqb_spec (dlog point) 0) as [E|Hne]; [lia|].
  pose proof maxAmount_below_n.
  apply search_fails; rewrite ?maxAmount_fuel; try assumption; lia.
Qed.

(** ** Key generation *)

Lemma run_randomBytes {A : Type} w len (f : list byte -> prog A) m :
  run w (bind (randomBytes len) f) m =
  run w (f (draw w (drawn m) len))
      {| drawn := drawn m + len; console := console m;
         hashed := hashed m; proved := proved m |}.
Proof. reflexivity. Qed.

(** A key pair that was returned: the private key is the text of a scalar
    [sk] in range and the public key the coordinates of [sk] times [BASE]. *)
Lemma keypair_returned w m keys :
  fst (run w generateElGamalKeypair m) = Returned keys ->
  exists sk P,
    1 <= sk < n /\ inG1 P /\ dlog P = sk
    /\ privateKey keys = numberToHex sk
    /\ publicKey keys = hexPoint (toAffine P).
Proof.
  remember (draw w (drawn m) 32) as kBytes eqn:EB.
  unfold generateElGamalKeypair. rewrite run_randomBytes, <- EB. cbv zeta.
  remember (Z.rem (bytesToNumberBE kBytes) n) as sk eqn:Esk. rewrite run_bind.
  destruct (multiply_cases BASE sk BASE_inG1) as [(Hsk & Q & HQ & Hin & Hd)|(_ & HT)].
  - rewrite HQ. cbn [run fst]. intros [= <-].
    exists sk, Q. repeat split; try assumption; try lia.
    rewrite Hd, BASE_dlog, Z.mul_1_r. apply Z.mod_small. lia.
  - rewrite HT. cbn [run fst]. discriminate.
Qed.

(** ** Encryption, then decryption *)

(** Encryption under a returned key, of an amount the library accepts as a
    scalar, with a non-zero ephemeral scalar [r]: the ciphertext holds the
    coordinates of [r BASE] and of [amount BASE + r P]. *)
Lemma run_encryptAmount w m amount sk P :
  1 <= sk < n -> inG1 P -> dlog P = sk ->
  1 <= amount < n ->
  Z.rem (bytesToNumberBE (draw w (drawn m) 32)) n <> 0 ->
  exists C1 C2,
    inG1 C1 /\ dlog C1 = Z.rem (bytesToNumberBE (draw w (drawn m) 32)) n
    /\ inG1 C2
    /\ dlog C2 = (amount + (Z.rem (bytesToNumberBE (draw w (drawn m) 32)) n * sk) mod n) mod n
    /\ run w (encryptAmount amount (hexPoint (toAffine P))) m
       = (Returned {| c1 := hexPoint (toAffine C1); c2 := hexPoint (toAffine C2) |},
          {| drawn := drawn m + 32; console := console m;
             hashed := hashed m; proved := proved m |}).
Proof.
  intros Hsk HP HdP Ha.
  remember (draw w (drawn m) 32) as rBytes eqn:EB.
  pose proof (scalar_range rBytes) as Hrange.
  intros Hr.
  assert (Hr1 : 1 <= Z.rem (bytesToNumberBE rBytes) n < n) by lia.
  destruct (multiply_BASE _ Hr1) as (C1 & HC1 & HinC1 & HdC1).
  destruct (multiply_BASE amount Ha) as (M & HM & HinM & HdM).
  pose proof (affine_inG1 P HP) as HinP'. pose proof (affine_dlog P HP) as HdP'.
  destruct (multiply_accepts _ _ HinP' Hr1) as (S & HS & HinS & HdS).
  exists C1, (add M S).
  split; [assumption|]. split; [assumption|].
  split; [now apply add_inG1|]. split.
  - rewrite add_dlog, HdM, HdS, HdP', HdP by assumption. reflexivity.
  - unfold encryptAmount. rewrite run_randomBytes, <- EB. cbv zeta.
    rewrite HC1, bind_Ret, pointOfHex_affine, bind_Ret, HM, bind_Ret, HS, bind_Ret
      by assumption.
    reflexivity.
Qed.

(** Decryption of such a ciphertext with the private key searches for the
    discrete logarithm of [C2 - sk C1]. *)
Lemma decryptAmount_recover sk C1 C2 :
  1 <= sk < n -> inG1 C1 -> inG1 C2 ->
  exists point,
    inG1 point
    /\ dlog point = (dlog C2 - (sk * dlog C1) mod n) mod n
    /\ decryptAmount {| c1 := hexPoint (toAffine C1); c2 := hexPoint (toAffine C2) |}
         (numberToHex sk)
       = recoverAmountFromPoint point.
Proof.
  intros Hsk HinC1 HinC2.
  pose proof (affine_inG1 C1 HinC1) as HinC1'. pose proof (affine_dlog C1 HinC1) as HdC1'.
  pose proof (affine_inG1 C2 HinC2) as HinC2'. pose proof (affine_dlog C2 HinC2) as HdC2'.
  destruct (multiply_accepts _ sk HinC1' Hsk) as (S' & HS' & HinS' & HdS').
  exists (subtract (fromAffine (toAffine C2)) S').
  split; [now apply subtract_inG1|]. split.
  - rewrite subtract_dlog, HdC2', HdS', HdC1' by assumption. reflexivity.
  - unfold decryptAmount. cbn [c1 c2].
    rewrite pointOfHex_affine, bind_Ret by assumption.
    rewrite pointOfHex_affine, bind_Ret by assumption.
    rewrite hexToNumber_numberToHex, bind_Ret by lia.
    rewrite HS', bind_Ret. reflexivity.
Qed.

(** Together: the round trip searches for the point [amount BASE]. *)
Lemma decrypt_of_encrypt_recover w m keys amount wk mk :
  fst (run wk generateElGamalKeypair mk) = Returned keys ->
  1 <= amount < n ->
  Z.rem (bytesToNumberBE (draw w (drawn m) 32)) n <> 0 ->
  exists point,
    inG1 point /\ dlog point = amount
    /\ fst (run w (decrypt_of_encrypt amount keys) m)
       = fst (run w (recoverAmountFromPoint point)
                  {| drawn := drawn m + 32; console := console m;
                     hashed := hashed m; proved := proved m |}).
Proof.
  intros Hkeys Ha Hr.
  destruct (keypair_returned _ _ _ Hkeys) as (sk & P & Hsk & HP & HdP & Hpriv & Hpub).
  destruct (run_encryptAmount w m amount sk P Hsk HP HdP Ha Hr)
    as (C1 & C2 & HinC1 & HdC1 & HinC2 & HdC2 & Hrun).
  destruct (decryptAmount_recover sk C1 C2 Hsk HinC1 HinC2) as (point & Hin & Hd & Hdec).
  exists point. split; [assumption|]. split.
  - rewrite Hd, HdC2, HdC1.
    rewrite (Z.mul_comm sk), Zminus_mod_idemp_l.
    match goal with
    | |- (amount + ?u - ?u) mod n = amount => replace (amount + u - u) with amount by lia
    end.
    apply Z.mod_small. lia.
  - unfold decrypt_of_encrypt. rewrite run_bind, Hpub, Hrun, Hpriv, Hdec. reflexivity.
Qed.

Lemma run_pure {A : Type} w (p : prog A) (r : prog A) m :
  p = r -> fst (run w p m) = fst (run w r m).
Proof. now intros ->. Qed.

(** A zero ephemeral scalar is refused by the library. *)
Lemma encrypt_zero_draw w m amount publicKey :
  Z.rem (bytesToNumberBE (draw w (drawn m) 32)) n = 0 ->
  fst (run w (encryptAmount amount publicKey) m) = Thrown CurveError.
Proof.
  remember (draw w (drawn m) 32) as rBytes eqn:EB.
  intros Hr. unfold encryptAmount. rewrite run_randomBytes, <- EB. cbv zeta.
  rewrite Hr, multiply_rejects by lia. reflexivity.
Qed.

(** So is an amount outside [1, n): zero, negative, or [n] and above. *)
Lemma encrypt_amount_refused w m amount keys wk mk :
  fst (run wk generateElGamalKeypair mk) = Returned keys ->
  ~ (1 <= amount < n) ->
  fst (run w (encryptAmount amount (publicKey keys)) m) = Thrown CurveError.
Proof.
  intros Hkeys Ha.
  destruct (keypair_returned _ _ _ Hkeys) as (sk & P & Hsk & HP & HdP & Hpriv & Hpub).
  remember (draw w (drawn m) 32) as rBytes eqn:EB.
  unfold encryptAmount. rewrite run_randomBytes, <- EB. cbv zeta.
  destruct (multiply_cases BASE (Z.rem (bytesToNumberBE rBytes) n) BASE_inG1)
    as [(Hr & C1 & HC1 & _)|(_ & HT)].
  - rewrite HC1, bind_Ret, Hpub, pointOfHex_affine, bind_Ret by assumption.
    rewrite multiply_rejects by assumption. reflexivity.
  - rewrite HT. reflexivity.
Qed.

End WithCurve.

End ElGamalFacts.

Module ElGamalClaims.
Import JsFacts BytesFacts BigIntFacts RuntimeFacts.
Import Curve ElGamal ElGamalFacts CurveModel.

(** C1 (as amended). For every amount [1 <= a <= maxAmount], every key
    pair that [generateElGamalKeypair] returned and every draw of the 32
    ephemeral bytes whose value is not a multiple of [n], [encryptAmount]
    returns a ciphertext and [decryptAmount] of it under the private key
    returns exactly [a]. *)
Theorem decrypt_encrypt_roundtrip
    {curve : G1} (wk w : World) (mk m : Machine)
    (keys : ElGamalKeypair) (amount : Z) :
  fst (run wk generateElGamalKeypair mk) = Returned keys ->
  1 <= amount <= maxAmount ->
  Z.rem (bytesToNumberBE (draw w (drawn m) 32)) n <> 0 ->
  (exists encrypted,
      fst (run w (encryptAmount amount (publicKey keys)) m) = Returned encrypted
      /\ decryptAmount encrypted (privateKey keys) = Ret amount)
  /\ fst (run w (decrypt_of_encrypt amount keys) m) = Returned amount.
Proof.
  intros Hkeys Ha Hr. pose proof maxAmount_below_n as Hmax.
  destruct (keypair_returned _ _ _ Hkeys) as (sk & P & Hsk & HP & HdP & Hpriv & Hpub).
  destruct (run_encryptAmount w m amount sk P Hsk HP HdP ltac:(lia) Hr)
    as (C1 & C2 & HinC1 & HdC1 & HinC2 & HdC2 & Hrun).
  destruct (decryptAmount_recover sk C1 C2 Hsk HinC1 HinC2) as (point & Hin & Hd & Hdec).
  assert (Hpoint : dlog point = amount).
  { rewrite Hd, HdC2, HdC1. rewrite (Z.mul_comm sk), Zminus_mod_idemp_l.
    match goal with
    | |- (amount + ?u - ?u) mod n = amount => replace (amount + u - u) with amount by lia
    end.
    apply Z.mod_small. lia. }
  assert (Hrec : recoverAmountFromPoint point = Ret amount).
  { rewrite <- Hpoint. apply recover_in_range; [assumption | lia]. }
  split.
  - eexists. rewrite Hpub, Hrun, Hpriv. split; [reflexivity|].
    rewrite Hdec. exact Hrec.
  - unfold decrypt_of_encrypt. rewrite run_bind, Hpub, Hrun, Hpriv, Hdec, Hrec.
    reflexivity.
Qed.

(** The scenario of the SDK's test script, on the model of the curve:
    10,000 lamports under the sample key pair. *)
Lemma decrypt_encrypt_roundtrip_sample :
  fst (run Samples.sampleWorld
         (decrypt_of_encrypt (curve := ExponentGroup) 10000 sampleKeys) afterKeys)
  = Returned 10000.
Proof.
  apply (decrypt_encrypt_roundtrip (curve := ExponentGroup)
           Samples.sampleWorld Samples.sampleWorld boot afterKeys sampleKeys 10000).
  - vm_compute. reflexivity.
  - unfold maxAmount. lia.
  - vm_compute. discriminate.
Defined.

(** Draws on which the claim of C1 fails: when the 32 ephemeral bytes are
    all zero (or spell a multiple of [n]) the ephemeral scalar is 0, the
    library refuses it and [encryptAmount] throws; there is no ciphertext
    to decrypt. *)
Lemma zero_draw_is_refused :
  fst (run zeroWorld
         (encryptAmount (curve := ExponentGroup) 5 (publicKey sampleKeys)) boot)
    = Thrown CurveError
  /\ fst (run zeroWorld
            (decrypt_of_encrypt (curve := ExponentGroup) 5 sampleKeys) boot)
     = Thrown CurveError.
Proof. split; vm_compute; reflexivity. Qed.

(** C2 (as amended). For every amount [a > maxAmount] and every key pair
    that was returned, the round trip never returns a value.  When
    [a < n] and the ephemeral scalar is not zero, encryption succeeds and
    [decryptAmount] throws the plain [Error] "Could not decrypt amount
    (too large or invalid)", the one error of the search; when [a >= n]
    there is no ciphertext: [encryptAmount] itself throws the library's
    scalar error. *)
Theorem large_amount_is_not_decrypted
    {curve : G1} (wk w : World) (mk m : Machine)
    (keys : ElGamalKeypair) (amount : Z) :
  fst (run wk generateElGamalKeypair mk) = Returned keys ->
  maxAmount < amount ->
  (exists e, fst (run w (decrypt_of_encrypt amount keys) m) = Thrown e)
  /\ (amount < n ->
      Z.rem (bytesToNumberBE (draw w (drawn m) 32)) n <> 0 ->
      (exists encrypted,
          fst (run w (encryptAmount amount (publicKey keys)) m) = Returned encrypted
          /\ decryptAmount encrypted (privateKey keys) = Throw decrypt_error)
      /\ fst (run w (decrypt_of_encrypt amount keys) m) = Thrown decrypt_error)
  /\ (n <= amount ->
      fst (run w (encryptAmount amount (publicKey keys)) m) = Thrown CurveError
      /\ fst (run w (decrypt_of_encrypt amount keys) m) = Thrown CurveError).
Proof.
  intros Hkeys Ha. assert (Hmax : 0 < maxAmount) by reflexivity.
  assert (Hbad : forall e,
      fst (run w (encryptAmount amount (publicKey keys)) m) = Thrown e ->
      fst (run w (decrypt_of_encrypt amount keys) m) = Thrown e).
  { intros e He. unfold decrypt_of_encrypt. rewrite run_bind.
    destruct (run w (encryptAmount amount (publicKey keys)) m) as [[ct|e'] m'];
      simpl in He; [discriminate|]. injection He as ->. reflexivity. }
  assert (Hin : amount < n ->
      Z.rem (bytesToNumberBE (draw w (drawn m) 32)) n <> 0 ->
      (exists encrypted,
          fst (run w (encryptAmount amount (publicKey keys)) m) = Returned encrypted
          /\ decryptAmount encrypted (privateKey keys) = Throw decrypt_error)
      /\ fst (run w (decrypt_of_encrypt amount keys) m) = Thrown decrypt_error).
  { intros Hn Hr.
    destruct (keypair_returned _ _ _ Hkeys) as (sk & P & Hsk & HP & HdP & Hpriv & Hpub).
    destruct (run_encryptAmount w m amount sk P Hsk HP HdP ltac:(lia) Hr)
      as (C1 & C2 & HinC1 & HdC1 & HinC2 & HdC2 & Hrun).
    destruct (decryptAmount_recover sk C1 C2 Hsk HinC1 HinC2) as (point & Hp & Hd & Hdec).
    assert (Hpoint : dlog point = amount).
    { rewrite Hd, HdC2, HdC1. rewrite (Z.mul_comm sk), Zminus_mod_idemp_l.
      match goal with
      | |- (amount + ?u - ?u) mod n = amount => replace (amount + u - u) with amount by lia
      end.
      apply Z.mod_small. lia. }
    assert (Hrec : recoverAmountFromPoint point = Throw decrypt_error).
    { apply recover_out_of_range; [assumption | lia]. }
    split.
    - eexists. rewrite Hpub, Hrun, Hpriv. split; [reflexivity|].
      rewrite Hdec. exact Hrec.
    - unfold decrypt_of_encrypt. rewrite run_bind, Hpub, Hrun, Hpriv, Hdec, Hrec.
      reflexivity. }
  assert (Hout : n <= amount ->
      fst (run w (encryptAmount amount (publicKey keys)) m) = Thrown CurveError).
  { intros Hn. apply (encrypt_amount_refused w m amount keys wk mk Hkeys). lia. }
  split; [|split; [exact Hin|]].
  - destruct (Z_lt_dec amount n) as [Hn|Hn].
    + destruct (Z.eq_dec (Z.rem (bytesToNumberBE (draw w (drawn m) 32)) n) 0) as [Hr|Hr].
      * exists CurveError. apply Hbad. now apply encrypt_zero_draw.
      * exists decrypt_error. now apply Hin.
    + exists CurveError. apply Hbad, Hout. lia.
  - intros Hn. split; [now apply Hout | apply Hbad; now apply Hout].
Qed.

(** 10,000,001 lamports under the sample key pair: the search runs out. *)
Lemma large_amount_is_not_decrypted_sample :
  fst (run Samples.sampleWorld
         (decrypt_of_encrypt (curve := ExponentGroup) 10000001 sampleKeys) afterKeys)
  = Thrown decrypt_error.
Proof.
  refine (proj2 (proj1 (proj2 (large_amount_is_not_decrypted (curve := ExponentGroup)
           Samples.sampleWorld Samples.sampleWorld boot afterKeys sampleKeys 10000001
           _ _)) _ _)).
  - vm_compute. reflexivity.
  - reflexivity.
  - reflexivity.
  - vm_compute. discriminate.
Defined.

(** An amount on which the claim of C2 fails: for [a = n] it is
    [encryptAmount] that throws, with the library's scalar error, and
    [decryptAmount] is never reached. *)
Lemma amount_of_group_order_fails_in_encrypt :
  fst (run Samples.sampleWorld
         (encryptAmount (curve := ExponentGroup) n (publicKey sampleKeys)) afterKeys)
    = Thrown CurveError
  /\ fst (run Samples.sampleWorld
            (decrypt_of_encrypt (curve := ExponentGroup) n sampleKeys) afterKeys)
     = Thrown CurveError.
Proof. split; vm_compute; reflexivity. Qed.

End ElGamalClaims.

(* ===================================================================== *)
(** * The order of the credential and the background task *)
(* ===================================================================== *)

Module ClientFacts.
Import Client ClientInvariant.

(** ** Traces *)

Lemma credential_first_nil : credential_first [].
Proof. intros later x earlier E. destruct later; discriminate. Qed.

Lemma credential_first_quiet x t :
  ~ background_progress x -> credential_first t -> credential_first (x :: t).
Proof.
  intros Hx Ht later y earlier E Hy. destruct later as [|z later]; simpl in E.
  - injection E as -> ->. contradiction.
  - injection E as -> ->. now apply (Ht later y earlier).
Qed.

Lemma credential_first_after x t :
  returned t -> resumed t -> credential_first t -> credential_first (x :: t).
Proof.
  intros Hret Hres Ht later y earlier E Hy. destruct later as [|z later]; simpl in E.
  - injection E as -> ->. now split.
  - injection E as -> ->. now apply (Ht later y earlier).
Qed.

Lemma returned_cons x t : returned t -> returned (x :: t).
Proof. intros (r & Hr). exists r. now right. Qed.

Lemma resumed_cons x t : resumed t -> resumed (x :: t).
Proof. intros (r & Hr). exists r. now right. Qed.

Lemma credential_first_after_all xs t :
  returned t -> resumed t -> credential_first t -> credential_first (xs ++ t).
Proof.
  intros Hret Hres Ht. induction xs as [|x xs IH]; [assumption|].
  simpl. apply credential_first_after; [| |assumption].
  - clear IH. induction xs; simpl; [assumption | now apply returned_cons].
  - clear IH. induction xs; simpl; [assumption | now apply resumed_cons].
Qed.

Lemma returned_app xs t : returned t -> returned (xs ++ t).
Proof. intros H. induction xs; simpl; [assumption | now apply returned_cons]. Qed.

Lemma resumed_app xs t : resumed t -> resumed (xs ++ t).
Proof. intros H. induction xs; simpl; [assumption | now apply resumed_cons]. Qed.

(** ** Jobs *)

(** A job of the background task only makes jobs and requests of the
    background task. *)
Lemma exec_bg j eff :
  exec j eff -> bg_job j -> Forall bg_job (spawned eff) /\ Forall bg_request (asked eff).
Proof.
  intros H Hj. destruct H; simpl in *; try contradiction;
    split; repeat constructor.
Qed.

(** A job of pay()'s path that is not the one after the authorization
    stays on pay()'s path, lets nothing of the background be observed and
    leaves one thing going on. *)
Lemma exec_pre j eff :
  exec j eff -> pre_job j -> (forall auth, j <> AfterAuthorize auth) ->
  Forall pre_job (spawned eff) /\ Forall pre_request (asked eff)
  /\ (List.length (spawned eff) + List.length (asked eff) <= 1)%nat
  /\ quiet (seen eff).
Proof.
  intros H Hj Hna. destruct H; simpl in *; try contradiction;
    try (exfalso; eapply Hna; reflexivity);
    repeat split; repeat constructor; simpl; auto.
Qed.

(** The job after the authorization returns the result, with the access
    token of the response, and makes the caller's continuation ready
    first. *)
Lemma exec_after_authorize auth eff :
  exec (AfterAuthorize auth) eff ->
  (exists rest, spawned eff = CallerContinuation (initial_result auth) :: rest
                /\ Forall bg_job rest)
  /\ Forall bg_request (asked eff)
  /\ (exists obs, seen eff = PayReturned (initial_result auth) :: obs /\ quiet obs).
Proof.
  intros H. inversion H; subst; simpl.
  - split; [exists []; split; [reflexivity | constructor]|].
    split; [repeat constructor|].
    eexists. split; [reflexivity|]. repeat constructor. simpl. auto.
  - split; [eexists; split; [reflexivity | repeat constructor]|].
    split; [constructor|].
    eexists. split; [reflexivity | constructor].
Qed.

Lemma answers_pre r j : answers r j -> pre_request r -> pre_job j.
Proof. intros H Hr. destruct H; simpl in *; auto. Qed.

Lemma answers_bg r j : answers r j -> bg_request r -> bg_job j.
Proof. intros H Hr. destruct H; simpl in *; auto. Qed.

Lemma quiet_app xs t : quiet xs -> quiet t -> quiet (xs ++ t).
Proof. intros. apply Forall_app. now split. Qed.

Lemma credential_first_quiet_all xs t :
  quiet xs -> credential_first t -> credential_first (xs ++ t).
Proof.
  intros Hq Ht. induction Hq as [|x xs Hx _ IH]; [assumption|].
  simpl. now apply credential_first_quiet.
Qed.

(** ** The invariant *)

Lemma invariant_initial : invariant initial.
Proof.
  split; [apply credential_first_nil|]. left.
  unfold before_authorization, initial; simpl.
  repeat split; repeat constructor.
Qed.

Lemma one_thing {A B : Type} (x : A) (q : list A) (p : list B) :
  (List.length (x :: q) + List.length p <= 1)%nat -> q = [] /\ p = [].
Proof. destruct q, p; simpl; intros; try lia. now split. Qed.

Lemma one_request {A B : Type} (q : list A) (before after : list B) r :
  (List.length q + List.length (before ++ r :: after) <= 1)%nat ->
  q = [] /\ before = [] /\ after = [].
Proof.
  rewrite length_app. destruct q, before, after; simpl; intros; try lia.
  now repeat split.
Qed.

Lemma invariant_step c c' : invariant c -> step c c' -> invariant c'.
Proof.
  intros [Hcf Hphase] Hstep.
  destruct Hstep as [j q eff c Hq Hexec | r j before after c Hp Hans].
  - (* a job runs *)
    destruct Hphase as [(Hjobs & Hreqs & Hone & Hquiet) | [Hnext | Hcred]].
    + rewrite Hq in Hjobs, Hone. inversion Hjobs as [|? ? Hj _]; subst.
      destruct (one_thing _ _ _ Hone) as [-> Hpend].
      destruct j; simpl in Hj; try contradiction.
      * destruct (exec_pre _ _ Hexec I ltac:(discriminate)) as (H1 & H2 & H3 & H4).
        split; [now apply credential_first_quiet_all|]. left.
        unfold before_authorization; simpl. rewrite Hpend; simpl.
        repeat split; try assumption. now apply quiet_app.
      * destruct (exec_pre _ _ Hexec I ltac:(discriminate)) as (H1 & H2 & H3 & H4).
        split; [now apply credential_first_quiet_all|]. left.
        unfold before_authorization; simpl. rewrite Hpend; simpl.
        repeat split; try assumption. now apply quiet_app.
      * destruct (exec_after_authorize _ _ Hexec)
          as ((rest & Hsp & Hrest) & Hasked & obs & Hseen & Hobs).
        assert (Hq' : quiet (seen eff)).
        { rewrite Hseen. constructor; [simpl; auto | assumption]. }
        split; [now apply credential_first_quiet_all|]. right. left.
        unfold caller_is_next; simpl. rewrite Hsp, Hpend, Hseen; simpl.
        repeat split.
        -- eauto.
        -- assumption.
        -- constructor; [simpl; auto|]. now apply quiet_app.
        -- exists (initial_result auth). now left.
      * destruct (exec_pre _ _ Hexec I ltac:(discriminate)) as (H1 & H2 & H3 & H4).
        split; [now apply credential_first_quiet_all|]. left.
        unfold before_authorization; simpl. rewrite Hpend; simpl.
        repeat split; try assumption. now apply quiet_app.
    + destruct Hnext as ((r & q0 & Hq0 & Hbg) & Hreqs & Hquiet & Hret).
      rewrite Hq in Hq0. injection Hq0 as -> ->.
      inversion Hexec; subst; simpl.
      split; [apply credential_first_quiet; [simpl; auto | assumption]|].
      right. right. unfold caller_has_credential; simpl.
      rewrite !app_nil_r. repeat split; try assumption.
      * eexists. now left.
      * now apply returned_cons.
    + destruct Hcred as (Hjobs & Hreqs & Hres & Hret).
      rewrite Hq in Hjobs. inversion Hjobs as [|? ? Hj Hrest]; subst.
      destruct (exec_bg _ _ Hexec Hj) as [Hsp Hask].
      split; [now apply credential_first_after_all|].
      right. right. unfold caller_has_credential; simpl.
      repeat split.
      * apply Forall_app. now split.
      * apply Forall_app. now split.
      * now apply resumed_app.
      * now apply returned_app.
  - (* an answer arrives *)
    simpl. split; [assumption|].
    destruct Hphase as [(Hjobs & Hreqs & Hone & Hquiet) | [Hnext | Hcred]].
    + rewrite Hp in Hreqs, Hone.
      destruct (one_request _ _ _ _ Hone) as (Hq & -> & ->).
      inversion Hreqs as [|? ? Hr _]; subst.
      left. unfold before_authorization; simpl. rewrite Hq; simpl.
      repeat split; try assumption; try constructor; try lia.
      * now apply (answers_pre r).
      * constructor.
    + destruct Hnext as ((r0 & q0 & Hq0 & Hbg) & Hreqs & Hquiet & Hret).
      rewrite Hp in Hreqs. apply Forall_app in Hreqs as [Hb Ha].
      inversion Ha as [|? ? Hr Ha']; subst.
      right. left. unfold caller_is_next; simpl. rewrite Hq0. simpl.
      repeat split; try assumption.
      * exists r0, (q0 ++ [j]). split; [reflexivity|].
        apply Forall_app. split; [assumption|].
        constructor; [now apply (answers_bg r) | constructor].
      * apply Forall_app. now split.
    + destruct Hcred as (Hjobs & Hreqs & Hres & Hret).
      rewrite Hp in Hreqs. apply Forall_app in Hreqs as [Hb Ha].
      inversion Ha as [|? ? Hr Ha']; subst.
      right. right. unfold caller_has_credential; simpl.
      repeat split; try assumption.
      * apply Forall_app. split; [assumption|].
        constructor; [now apply (answers_bg r) | constructor].
      * apply Forall_app. now split.
Qed.

Lemma reachable_invariant c : reachable c -> invariant c.
Proof.
  induction 1 as [|c c' _ IH Hstep]; [apply invariant_initial|].
  now apply (invariant_step c).
Qed.

End ClientFacts.

Module ClientClaims.
Import Client ClientInvariant ClientFacts Samples.

(** C8. In every execution of pay(), whatever shows that the background
    task has got somewhere (its request to the prover, its settlement
    request, the completion callback, the failure callback) happens after
    pay() has returned the result and after the caller has resumed with
    the access credential.  And the job that receives the authorization
    response returns the result in that same job, with the access token of
    the response, and puts the caller's continuation at the head of the
    queue: no answer to a background request is waited for. *)
Theorem credential_before_background (c : config) :
  reachable c ->
  credential_first (trace c)
  /\ (forall auth q c',
        queue c = AfterAuthorize auth :: q -> step c c' ->
        exists q' t',
          queue c' = CallerContinuation (initial_result auth) :: q'
          /\ trace c' = PayReturned (initial_result auth) :: t'
          /\ accessToken (initial_result auth) = access_token auth).
Proof.
  intros Hreach. destruct (reachable_invariant c Hreach) as [Hcf Hphase].
  split; [exact Hcf|].
  intros auth q c' Hq Hstep.
  assert (Hstate : q = [] /\ pending c = []).
  { destruct Hphase as [(Hjobs & Hreqs & Hone & _) | [Hnext | Hcred]].
    - rewrite Hq in Hone. now apply one_thing in Hone.
    - destruct Hnext as ((r & q0 & Hq0 & _) & _). rewrite Hq in Hq0. discriminate.
    - destruct Hcred as (Hjobs & _). rewrite Hq in Hjobs.
      inversion Hjobs as [|? ? Hj _]. contradiction. }
  destruct Hstate as [-> Hpend].
  destruct Hstep as [j q eff c Hq' Hexec | r j before after c Hp Hans].
  - rewrite Hq in Hq'. injection Hq' as <- <-.
    destruct (exec_after_authorize _ _ Hexec)
      as ((rest & Hsp & _) & _ & obs & Hseen & _).
    simpl. rewrite Hsp, Hseen. simpl. eauto.
  - rewrite Hpend in Hp. destruct before; discriminate.
Qed.

(** ** A complete payment *)

Lemma job_runs c j q eff :
  reachable c -> queue c = j :: q -> exec j eff ->
  reachable {| queue := q ++ spawned eff;
               pending := pending c ++ asked eff;
               trace := seen eff ++ trace c;
               result := store eff (result c) |}.
Proof. intros Hc Hq He. exact (reach_step _ _ Hc (step_run j q eff c Hq He)). Qed.

Lemma answer_arrives c r j before after :
  reachable c -> pending c = before ++ r :: after -> answers r j ->
  reachable {| queue := queue c ++ [j];
               pending := before ++ after;
               trace := trace c;
               result := result c |}.
Proof.
  intros Hc Hp Ha. exact (reach_step _ _ Hc (step_answer r j before after c Hp Ha)).
Qed.

Lemma settledRun_reachable : reachable settledRun.
Proof.
  pose proof (job_runs _ _ _ _ reach_initial eq_refl exec_pay) as H1.
  cbn in H1.
  pose proof (answer_arrives _ _ _ [] [] H1 eq_refl (registered (js "42"))) as H2.
  cbn in H2.
  pose proof (job_runs _ _ _ _ H2 eq_refl (exec_registered _)) as H3.
  cbn in H3.
  pose proof (answer_arrives _ _ _ [] [] H3 eq_refl (authorize_ok sampleAuth)) as H4.
  cbn in H4.
  pose proof (job_runs _ _ _ _ H4 eq_refl (exec_authorized _)) as H5.
  cbn in H5.
  pose proof (answer_arrives _ _ _ [] [] H5 eq_refl merkle_ok) as H6.
  cbn in H6.
  pose proof (job_runs _ _ _ _ H6 eq_refl (exec_caller _)) as H7.
  cbn in H7.
  pose proof (job_runs _ _ _ _ H7 eq_refl exec_merkle) as H8.
  cbn in H8.
  pose proof (answer_arrives _ _ _ [] [] H8 eq_refl
                (prove_ok {| proof := js "{}"; publicSignals := [] |})) as H9.
  cbn in H9.
  pose proof (job_runs _ _ _ _ H9 eq_refl (exec_proved _)) as H10.
  cbn in H10.
  pose proof (answer_arrives _ _ _ [] [] H10 eq_refl (settle_answered sampleSettle)) as H11.
  cbn in H11.
  pose proof (job_runs _ _ _ _ H11 eq_refl
                (exec_settled sampleSettle eq_refl)) as H12.
  cbn in H12.
  pose proof (job_runs _ _ _ _ H12 eq_refl (exec_then _)) as H13.
  cbn in H13.
  exact H13.
Qed.

Lemma credential_before_background_sample :
  credential_first (trace settledRun).
Proof.
  exact (proj1 (credential_before_background settledRun settledRun_reachable)).
Defined.

End ClientClaims.

(* ===================================================================== *)
(** * Further properties of the code *)
(* ===================================================================== *)

Module Further.
Import JsFacts BytesFacts BigIntFacts RuntimeFacts UtilsFacts CodecFacts CommitmentFacts.
Import Curve ElGamal ElGamalFacts CurveModel.
Import ProofGenerator Assembly ProofFacts.

(** X1. [encryptAmount] throws the library's scalar error for every amount
    outside [1, n), in particular for the amount 0, under every key pair
    that was returned and whatever the ephemeral draw; the round trip
    throws with it. *)
Theorem amount_outside_scalars_is_refused
    {curve : G1} (wk w : World) (mk m : Machine)
    (keys : ElGamalKeypair) (amount : Z) :
  fst (run wk generateElGamalKeypair mk) = Returned keys ->
  ~ (1 <= amount < n) ->
  fst (run w (encryptAmount amount (publicKey keys)) m) = Thrown CurveError
  /\ fst (run w (decrypt_of_encrypt amount keys) m) = Thrown CurveError.
Proof.
  intros Hkeys Ha.
  pose proof (encrypt_amount_refused w m amount keys wk mk Hkeys Ha) as He.
  split; [exact He|].
  unfold decrypt_of_encrypt. rewrite run_bind.
  destruct (run w (encryptAmount amount (publicKey keys)) m) as [[ct|e] m'];
    simpl in He; [discriminate|]. injection He as ->. reflexivity.
Qed.

(** The amount 0 under the sample key pair. *)
Lemma zero_amount_is_refused_sample :
  fst (run Samples.sampleWorld
         (encryptAmount (curve := ExponentGroup) 0 (publicKey sampleKeys)) afterKeys)
  = Thrown CurveError.
Proof.
  refine (proj1 (amount_outside_scalars_is_refused (curve := ExponentGroup)
            Samples.sampleWorld Samples.sampleWorld boot afterKeys sampleKeys 0 _ _)).
  - vm_compute. reflexivity.
  - lia.
Defined.

(** X2. [generateProof] fails for the tokens USDC and USDT, whatever the
    other inputs: the symbol contains a letter among a-f, so it is read as
    a hexadecimal literal, which it is not; the prover is never called. *)
Theorem usdc_and_usdt_proofs_fail (w : World) (inputs : ProofInputs) (m : Machine) :
  run w (generateProof (with_tokenMint inputs (js "USDC"))) m
    = (Thrown (ProofGenerationError SyntaxError), m)
  /\ run w (generateProof (with_tokenMint inputs (js "USDT"))) m
     = (Thrown (ProofGenerationError SyntaxError), m).
Proof.
  assert (HC : tokenMintFieldElement (js "USDC") = Throw SyntaxError)
    by (vm_compute; reflexivity).
  assert (HT : tokenMintFieldElement (js "USDT") = Throw SyntaxError)
    by (vm_compute; reflexivity).
  unfold generateProof, buildCircuitInputs. cbn [tokenMint with_tokenMint].
  rewrite HC, HT. split; reflexivity.
Qed.

Lemma parse_weak s a b v u :
  0 <= a <= b -> parse_digits 10 s a = Some v -> parse_digits 16 s b = Some u -> v <= u.
Proof.
  revert a b. induction s as [|c s IH]; intros a b Hab; cbn [parse_digits].
  - intros [= <-] [= <-]. lia.
  - destruct (digit_value 10 c) as [d|] eqn:Ed; [|discriminate].
    rewrite (digit_value_mono 10 16 c d Ed ltac:(lia)).
    apply digit_value_range in Ed. apply IH. lia.
Qed.

Lemma parse_decimal_as_hex s a b v :
  parse_digits 10 s a = Some v -> exists u, parse_digits 16 s b = Some u.
Proof.
  revert a b. induction s as [|c s IH]; intros a b; cbn [parse_digits]; [eauto|].
  destruct (digit_value 10 c) as [d|] eqn:Ed; [|discriminate].
  rewrite (digit_value_mono 10 16 c d Ed ltac:(lia)). apply IH.
Qed.

(** X3. A field element printed in decimal, as [addressToFieldElement]
    and [getMerkleProof] print it, is read by [hexToBigInt] as a
    hexadecimal literal: for every [v >= 10] the integer read is larger
    than [v].  ([pay] gives [generateProof] the receiver commitment and the
    Merkle root in that decimal form.) *)
Theorem decimal_text_is_read_as_hex (v : Z) :
  10 <= v ->
  exists v', hexToBigInt (toString 10 v) = Ret v' /\ v < v'.
Proof.
  intros Hv. unfold toString. destruct (Z.ltb_spec v 0); [lia|].
  pose proof (parse_render 10 v ltac:(lia) ltac:(lia)) as P10.
  destruct (parse_decimal_as_hex _ _ 0 _ P10) as (u & P16).
  exists u.
  pose proof (render_digits 10 v ltac:(lia)) as Hd.
  destruct (render_cons 10 v) as (c & s & E).
  assert (Hhex : hexToBigInt (render 10 v) = Ret u).
  { unfold hexToBigInt.
    assert (Hpre : startsWith (render 10 v) (js "0x") = false).
    { rewrite E in *. inversion Hd as [|? ? Hc Hs]; subst.
      destruct s as [|c1 ds]; simpl; [now rewrite andb_false_r|].
      inversion Hs as [|? ? Hc1 _]; subst. apply decimal_unit_range in Hc1.
      destruct (N.eqb_spec c1 120); [lia|]. simpl. now rewrite andb_false_r. }
    rewrite Hpre. unfold BigInt. rewrite StringToBigInt_0x.
    - now rewrite P16.
    - rewrite E. discriminate.
    - eapply Forall_impl; [|exact Hd].
      intros c0 (d & Hd0 & ->). exists d. split; [lia | reflexivity]. }
  split; [exact Hhex|].
  pose proof (parse_weak _ 0 0 v u ltac:(lia) P10 P16) as Hle.
  destruct (Z.eq_dec v u) as [->|Hne]; [|lia].
  pose proof (parse_same _ 0 u ltac:(lia) P10 P16). lia.
Qed.

(** The encoding of "ab", 24930, is read as 0x24930. *)
Lemma decimal_text_is_read_as_hex_sample :
  exists v', hexToBigInt (addressToFieldElement (js "ab")) = Ret v' /\ 24930 < v'.
Proof. apply (decimal_text_is_read_as_hex 24930). lia. Defined.

End Further.

(* ===================================================================== *)
(** * Secrets, salts and nonces *)
(* ===================================================================== *)

Module SecretFacts.
Import JsFacts BytesFacts BigIntFacts RuntimeFacts CodecFacts CommitmentFacts.
Import Commitment Verification PoseidonExports.

Lemma nibbles v :
  0 <= v < 256 ->
  0 <= v / 16 < 16 /\ 0 <= v mod 16 < 16 /\ 16 * (v / 16) + v mod 16 = v.
Proof. intros Hv. Z.div_mod_to_equations. lia. Qed.

(** The two digits of a byte. *)
Lemma byte_hex b :
  padStart 2 48 (toString 16 (byte_val b))
  = [digit_char (byte_val b / 16); digit_char (byte_val b mod 16)].
Proof. destruct b; vm_compute; reflexivity. Qed.

Lemma bytesToHex_cons b bytes :
  bytesToHex (b :: bytes)
  = digit_char (byte_val b / 16) :: digit_char (byte_val b mod 16) :: bytesToHex bytes.
Proof. unfold bytesToHex. cbn [map List.concat]. now rewrite byte_hex. Qed.

Lemma bytesToHex_length bytes :
  List.length (bytesToHex bytes) = (2 * List.length bytes)%nat.
Proof.
  induction bytes as [|b bytes IH]; [reflexivity|].
  rewrite bytesToHex_cons. cbn [List.length]. lia.
Qed.

Lemma bytesToHex_digits bytes : Forall (digit_unit 16) (bytesToHex bytes).
Proof.
  induction bytes as [|b bytes IH]; [constructor|].
  rewrite bytesToHex_cons.
  destruct (nibbles _ (byte_val_range b)) as (Hq & Hr & _).
  constructor; [|constructor; [|exact IH]].
  - exists (byte_val b / 16). split; [exact Hq | reflexivity].
  - exists (byte_val b mod 16). split; [exact Hr | reflexivity].
Qed.

(** Reading the hexadecimal text of bytes is reading the bytes big-endian. *)
Lemma parse_bytesToHex bytes rest acc :
  parse_digits 16 (bytesToHex bytes ++ rest) acc
  = parse_digits 16 rest (fold_left be_step bytes acc).
Proof.
  revert acc. induction bytes as [|b bytes IH]; intros acc; [reflexivity|].
  rewrite bytesToHex_cons.
  destruct (nibbles _ (byte_val_range b)) as (Hq & Hr & Hv).
  cbn [app parse_digits fold_left].
  rewrite (digit_value_char 16 _ Hq), (digit_value_char 16 _ Hr) by lia.
  rewrite IH, be_step_arith. do 2 f_equal.
  revert Hv. generalize (byte_val b / 16) (byte_val b mod 16) (byte_val b). clear.
  intros. lia.
Qed.

Lemma draw_length w from len : List.length (draw w from len) = len.
Proof. unfold draw. now rewrite length_map, length_seq. Qed.

Lemma bytesToHex_nonempty b bytes : bytesToHex (b :: bytes) <> [].
Proof. rewrite bytesToHex_cons. discriminate. Qed.

(** A prefixed text of bytes, read by [BigInt]. *)
Lemma BigInt_0x_bytes b bytes :
  BigInt (js "0x" ++ bytesToHex (b :: bytes)) = Ret (be_bytes (b :: bytes)).
Proof.
  unfold BigInt. rewrite StringToBigInt_0x.
  - rewrite <- (app_nil_r (bytesToHex (b :: bytes))), parse_bytesToHex. reflexivity.
  - apply bytesToHex_nonempty.
  - apply bytesToHex_digits.
Qed.

Lemma draw_cons w from len : exists b bytes, draw w from (S len) = b :: bytes.
Proof. unfold draw. cbn [seq map]. eauto. Qed.

End SecretFacts.

(* ===================================================================== *)
(** * The secret, the salt and the nonce, end to end *)
(* ===================================================================== *)

Module CoreMore.
Import JsFacts BytesFacts BigIntFacts RuntimeFacts CodecFacts CommitmentFacts SecretFacts.
Import Commitment Nullifier Verification PoseidonExports.

Lemma hex_text_no_prefix s :
  Forall (digit_unit 16) s -> startsWith s (js "0x") = false.
Proof.
  intros Hd. destruct s as [|c0 [|c1 s]]; [reflexivity | |].
  - simpl. now rewrite andb_false_r.
  - inversion Hd as [|? ? _ Hs]; subst. inversion Hs as [|? ? Hc1 _]; subst.
    apply hex_unit_range in Hc1. simpl.
    destruct (N.eqb_spec c1 120); [lia|]. simpl. now rewrite andb_false_r.
Qed.

Lemma startsWith_0x s : startsWith (js "0x" ++ s) (js "0x") = true.
Proof. destruct s; reflexivity. Qed.

Lemma toBigInt_0x s : toBigInt (js "0x" ++ s) = BigInt (js "0x" ++ s).
Proof.
  unfold toBigInt. rewrite startsWith_0x. reflexivity.
Qed.

Lemma hexToBigInt_0x s : ProofGenerator.hexToBigInt (js "0x" ++ s) = BigInt (js "0x" ++ s).
Proof.
  unfold ProofGenerator.hexToBigInt. rewrite startsWith_0x. reflexivity.
Qed.

(** What [generateRandomSecret] returns and how it is read. *)
Lemma run_generateRandomSecret (w : World) (m : Machine) :
  run w generateRandomSecret m
    = (Returned (js "0x" ++ bytesToHex (draw w (drawn m) 32)),
       {| drawn := drawn m + 32; console := console m;
          hashed := hashed m; proved := proved m |})
  /\ run w generateRandomSalt m = run w generateRandomSecret m
  /\ List.length (js "0x" ++ bytesToHex (draw w (drawn m) 32)) = 66%nat
  /\ toBigInt (js "0x" ++ bytesToHex (draw w (drawn m) 32))
     = Ret (be_bytes (draw w (drawn m) 32))
  /\ ProofGenerator.hexToBigInt (js "0x" ++ bytesToHex (draw w (drawn m) 32))
     = Ret (be_bytes (draw w (drawn m) 32))
  /\ 0 <= be_bytes (draw w (drawn m) 32) < 2 ^ 256.
Proof.
  destruct (draw_cons w (drawn m) 31) as (b & bytes & E).
  pose proof (draw_length w (drawn m) 32) as Hlen.
  pose proof (be_bytes_bound (draw w (drawn m) 32)) as Hb.
  rewrite Hlen in Hb. rewrite E in *.
  repeat split; try reflexivity; try lia.
  - unfold generateRandomSecret. rewrite ElGamalFacts.run_randomBytes, E. reflexivity.
  - rewrite length_app, bytesToHex_length, Hlen. reflexivity.
  - rewrite toBigInt_0x. apply BigInt_0x_bytes.
  - rewrite hexToBigInt_0x. apply BigInt_0x_bytes.
Qed.

(** X4. [generateRandomSecret] (and [generateRandomSalt], the same code)
    draws 32 bytes and returns 0x followed by their 64 hexadecimal digits;
    [toBigInt] and [hexToBigInt] read that text back as the big-endian
    integer of the bytes, a number below 2^256. *)
Theorem random_secret_reads_back (w : World) (m : Machine) :
  run w generateRandomSecret m
    = (Returned (js "0x" ++ bytesToHex (draw w (drawn m) 32)),
       {| drawn := drawn m + 32; console := console m;
          hashed := hashed m; proved := proved m |})
  /\ run w generateRandomSalt m = run w generateRandomSecret m
  /\ List.length (js "0x" ++ bytesToHex (draw w (drawn m) 32)) = 66%nat
  /\ toBigInt (js "0x" ++ bytesToHex (draw w (drawn m) 32))
     = Ret (be_bytes (draw w (drawn m) 32))
  /\ ProofGenerator.hexToBigInt (js "0x" ++ bytesToHex (draw w (drawn m) 32))
     = Ret (be_bytes (draw w (drawn m) 32))
  /\ 0 <= be_bytes (draw w (drawn m) 32) < 2 ^ 256.
Proof. exact (run_generateRandomSecret w m). Qed.

(** ** [toBigInt] on unprefixed hexadecimal text *)

Lemma hex_unit_without_letter c :
  digit_unit 16 c -> is_hex_letter c = false -> digit_unit 10 c.
Proof.
  intros (d & Hd & ->) Hl. destruct (Z.ltb_spec d 10) as [Hlt|Hge].
  - exists d. split; [lia | reflexivity].
  - exfalso. revert Hl. unfold is_hex_letter, digit_char.
    destruct (Z.ltb_spec d 10); [lia|]. rewrite Z2N.id by lia.
    settle_tests. discriminate.
Qed.

Lemma hex_text_without_letter s :
  Forall (digit_unit 16) s -> has_hex_letter s = false -> Forall (digit_unit 10) s.
Proof.
  induction 1 as [|c s Hc Hs IH]; intros Hl; [constructor|].
  simpl in Hl. apply orb_false_iff in Hl as [Hl1 Hl2].
  constructor; [now apply hex_unit_without_letter | now apply IH].
Qed.

Lemma decimal_digits_parse s a :
  Forall (digit_unit 10) s -> exists u, parse_digits 10 s a = Some u.
Proof.
  intros Hd. revert a. induction Hd as [|c s Hc Hs IH]; intros a; cbn [parse_digits]; [eauto|].
  destruct Hc as (d & Hd & ->). rewrite digit_value_char by lia. apply IH.
Qed.

(** A text of decimal digits is a decimal literal. *)
Lemma StringToBigInt_digits s :
  s <> [] -> Forall (digit_unit 10) s -> StringToBigInt s = parse_digits 10 s 0.
Proof.
  intros Hne Hd. unfold StringToBigInt.
  rewrite trim_id by now apply (digits_no_space 10).
  destruct s as [|c s]; [contradiction|].
  inversion Hd as [|? ? Hc Hs]; subst. apply decimal_unit_range in Hc.
  destruct s as [|c1 ds]; [reflexivity|].
  inversion Hs as [|? ? Hc1 _]; subst. apply decimal_unit_range in Hc1.
  replace (N.eqb c1 120 || N.eqb c1 88) with false by (symmetry; cmp).
  replace (N.eqb c1 111 || N.eqb c1 79) with false by (symmetry; cmp).
  replace (N.eqb c1 98 || N.eqb c1 66) with false by (symmetry; cmp).
  rewrite !andb_false_r.
  replace (N.eqb c 43) with false by (symmetry; cmp).
  replace (N.eqb c 45) with false by (symmetry; cmp).
  reflexivity.
Qed.

(** X5. [toBigInt] tells hexadecimal from decimal by the presence of a
    letter a-f.  On the unprefixed hexadecimal text of [v] it returns [v]
    when the text has such a letter; when it has none the text is read as
    a decimal literal, which gives a smaller number as soon as [v >= 10]. *)
Theorem toBigInt_unprefixed_hex (v : Z) :
  0 <= v ->
  (has_hex_letter (toString 16 v) = true -> toBigInt (toString 16 v) = Ret v)
  /\ (has_hex_letter (toString 16 v) = false ->
      exists u, toBigInt (toString 16 v) = Ret u /\ u <= v /\ (10 <= v -> u < v)).
Proof.
  intros Hv. unfold toString. destruct (Z.ltb_spec v 0); [lia|].
  pose proof (render_digits 16 v ltac:(lia)) as Hd.
  pose proof (parse_render 16 v ltac:(lia) ltac:(lia)) as P16.
  pose proof (hex_text_no_prefix _ Hd) as Hpre.
  pose proof (BigInt_0x_padded 0 v Hv) as HB.
  unfold padStart, toString in HB. destruct (Z.ltb_spec v 0); [lia|].
  cbn [Nat.sub repeat app] in HB.
  destruct (render_cons 16 v) as (c & s & E). rewrite E in *.
  unfold toBigInt. rewrite Hpre. split; intros Hl; rewrite Hl.
  - exact HB.
  - pose proof (hex_text_without_letter _ Hd Hl) as H10.
    destruct (decimal_digits_parse _ 0 H10) as (u & P10).
    exists u. unfold BigInt.
    rewrite StringToBigInt_digits, P10 by (try assumption; discriminate).
    split; [reflexivity|].
    pose proof (Further.parse_weak _ 0 0 u v ltac:(lia) P10 P16) as Hle.
    split; [exact Hle|]. intros Hv10.
    destruct (Z.eq_dec u v) as [->|Hne]; [|lia].
    pose proof (parse_same _ 0 v ltac:(lia) P10 P16). lia.
Qed.

(** 0x1234 printed without prefix is read as 1234. *)
Lemma toBigInt_unprefixed_hex_sample :
  exists u, toBigInt (js "1234") = Ret u /\ u <= 4660 /\ (10 <= 4660 -> u < 4660).
Proof.
  apply (proj2 (toBigInt_unprefixed_hex 4660 ltac:(lia))). reflexivity.
Defined.

(** ** Hexadecimal parameters that carry a prefix *)

(** [BigInt('0x' + s)] where [s] already starts with 0x. *)
Lemma BigInt_double_prefix rest : BigInt (js "0x" ++ js "0x" ++ rest) = Throw SyntaxError.
Proof.
  unfold BigInt, StringToBigInt.
  change (js "0x" ++ js "0x" ++ rest) with (48%N :: 120%N :: 48%N :: 120%N :: rest).
  rewrite trim_0x, !trimEnd_cons by reflexivity. reflexivity.
Qed.

(** X6. The hexadecimal parameters of [generateCommitment],
    [verifyCommitment], [generateNullifier] and [verifyNullifier] are
    prefixed with 0x by the code itself: a nonce or a private key that
    already carries the prefix makes them throw a SyntaxError before
    anything is hashed.  The texts [generateRandomSecret] and
    [generateRandomSalt] return carry it. *)
Theorem prefixed_hex_is_rejected
    (w : World) (m : Machine) (amt : Z) (recipient token rest : jsstring)
    (candidate commitment : jsstring) (paymentIndex : number) :
  run w (generateCommitment (Integral amt) recipient token (Some (js "0x" ++ rest))) m
    = (Thrown SyntaxError, m)
  /\ run w (verifyCommitment candidate (Integral amt) recipient token (js "0x" ++ rest)) m
     = (Thrown SyntaxError, m)
  /\ run w (generateNullifier (js "0x" ++ rest) commitment paymentIndex) m
     = (Thrown SyntaxError, m)
  /\ run w (verifyNullifier candidate (js "0x" ++ rest) commitment paymentIndex) m
     = (Thrown SyntaxError, m)
  /\ run w (salt <- generateRandomSalt ;;
            generateCommitment (Integral amt) recipient token (Some salt)) m
     = (Thrown SyntaxError,
        {| drawn := drawn m + 32; console := console m;
           hashed := hashed m; proved := proved m |})
  /\ run w (secret <- generateRandomSecret ;;
            generateNullifier secret commitment paymentIndex) m
     = (Thrown SyntaxError,
        {| drawn := drawn m + 32; console := console m;
           hashed := hashed m; proved := proved m |}).
Proof.
  assert (HC : forall r,
    generateCommitment (Integral amt) recipient token (Some (js "0x" ++ r))
    = Throw SyntaxError).
  { intros r. unfold generateCommitment.
    change (js "0x" ++ r) with (48%N :: 120%N :: r) at 1.
    cbn [nonce_or_random BigInt_of_number bind].
    change (48%N :: 120%N :: r) with (js "0x" ++ r).
    now rewrite BigInt_double_prefix. }
  assert (HN : forall r,
    generateNullifier (js "0x" ++ r) commitment paymentIndex = Throw SyntaxError).
  { intros r. unfold generateNullifier. now rewrite BigInt_double_prefix. }
  destruct (run_generateRandomSecret w m) as (Hs & Hsalt & _).
  repeat split.
  - now rewrite HC.
  - unfold verifyCommitment. now rewrite HC.
  - now rewrite HN.
  - unfold verifyNullifier. now rewrite HN.
  - rewrite run_bind, Hsalt, Hs, HC. reflexivity.
  - rewrite run_bind, Hs, HN. reflexivity.
Qed.

(** ** A commitment with a nonce of its own *)

(** X7. Without a nonce (absent or empty) [generateCommitment] draws 32
    bytes and uses their 64 hexadecimal digits as the nonce; the value it
    returns is the hexadecimal text of the hash of the amount, the two
    encoded strings and the big-endian integer of the bytes, and
    [verifyCommitment] accepts that value with the fields of the returned
    object. *)
Theorem fresh_nonce_commitment_verifies
    (w : World) (m : Machine) (amt : Z) (recipient token : jsstring) :
  exists cm,
    run w (generateCommitment (Integral amt) recipient token None) m
      = (Returned cm,
         {| drawn := drawn m + 32; console := console m;
            hashed := preimage amt recipient token (be_bytes (draw w (drawn m) 32))
                        :: hashed m;
            proved := proved m |})
    /\ run w (generateCommitment (Integral amt) recipient token (Some [])) m
       = run w (generateCommitment (Integral amt) recipient token None) m
    /\ Commitment.nonce cm = bytesToHex (draw w (drawn m) 32)
    /\ List.length (Commitment.nonce cm) = 64%nat
    /\ Commitment.value cm
       = toString 16 (poseidon w
           (preimage amt recipient token (be_bytes (draw w (drawn m) 32))))
    /\ (Commitment.amount cm, Commitment.recipient cm, Commitment.token cm)
       = (Integral amt, recipient, token)
    /\ result_of w (verifyCommitment (Commitment.value cm) (Commitment.amount cm)
                      (Commitment.recipient cm) (Commitment.token cm)
                      (Commitment.nonce cm))
       = Returned true.
Proof.
  destruct (draw_cons w (drawn m) 31) as (b & bytes & E).
  pose proof (draw_length w (drawn m) 32) as Hlen.
  pose proof (BigInt_0x_bytes b bytes) as HB. rewrite <- E in HB.
  eexists. split; [|split; [reflexivity|]].
  - unfold generateCommitment. cbn [nonce_or_random].
    rewrite run_bind, ElGamalFacts.run_randomBytes. cbn [run].
    cbn [BigInt_of_number bind]. rewrite HB. reflexivity.
  - cbn [Commitment.nonce Commitment.value Commitment.amount
         Commitment.recipient Commitment.token].
    repeat split.
    + now rewrite bytesToHex_length, Hlen.
    + rewrite (run_verifyCommitment w _ (Integral amt) recipient token
                 (bytesToHex (draw w (drawn m) 32)) amt
                 (be_bytes (draw w (drawn m) 32))).
      * unfold preimage. now rewrite streq_refl.
      * rewrite E. apply bytesToHex_nonempty.
      * reflexivity.
      * exact HB.
Qed.

(** ** Leading zero bytes *)

Lemma be_fold_zeros k bytes :
  fold_left be_step (repeat Byte.x00 k ++ bytes) 0 = fold_left be_step bytes 0.
Proof. induction k as [|k IH]; [reflexivity | exact IH]. Qed.

Lemma encode_nul s : TextEncoder_encode (0%N :: s) = Byte.x00 :: TextEncoder_encode s.
Proof. reflexivity. Qed.

Lemma stringToBigInt_nul k s : stringToBigInt (repeat 0%N k ++ s) = stringToBigInt s.
Proof.
  unfold stringToBigInt, be_bytes. induction k as [|k IH]; [reflexivity|].
  cbn [repeat app]. rewrite encode_nul. exact IH.
Qed.

(** X8. [hashPoseidonBytes] reads every byte array as a big-endian
    integer, so leading zero bytes do not count: arrays that differ only
    by them are hashed to the same value, and the empty array is hashed as
    the byte 0 is.  For 1 to 16 arrays the hash of those integers is
    returned; for no array or more than 16 the library's size error is
    thrown, for both lists alike. *)
Theorem hashPoseidonBytes_ignores_leading_zeros
    (w : World) (m : Machine) (padded inputs : list (list byte)) :
  Forall2 (fun p bytes => exists k, p = repeat Byte.x00 k ++ bytes) padded inputs ->
  hashPoseidonBytes padded = hashPoseidon (map be_bytes inputs)
  /\ run w (hashPoseidonBytes padded) m = run w (hashPoseidonBytes inputs) m
  /\ ((1 <= List.length inputs <= 16)%nat ->
      run w (hashPoseidonBytes padded) m
      = (Returned (poseidon w (map be_bytes inputs)),
         {| drawn := drawn m; console := console m;
            hashed := map be_bytes inputs :: hashed m; proved := proved m |}))
  /\ ((List.length inputs = 0 \/ 16 < List.length inputs)%nat ->
      run w (hashPoseidonBytes padded) m = (Thrown poseidon_size_error, m)).
Proof.
  intros H.
  assert (E : map (fun bytes => fold_left be_step bytes 0) padded = map be_bytes inputs).
  { induction H as [|p bytes ps bs (k & ->) _ IH]; [reflexivity|].
    cbn [map]. rewrite be_fold_zeros, IH. reflexivity. }
  unfold hashPoseidonBytes. rewrite E.
  split; [reflexivity|]. split; [reflexivity|].
  unfold hashPoseidon. rewrite length_map.
  split; intros Hlen.
  - destruct (Nat.leb_spec 1 (List.length inputs)); [|lia].
    destruct (Nat.leb_spec (List.length inputs) 16); [|lia].
    reflexivity.
  - destruct (Nat.leb_spec 1 (List.length inputs));
      destruct (Nat.leb_spec (List.length inputs) 16);
      cbn [andb]; try reflexivity; lia.
Qed.

(** Two zero bytes before 1, 2 and the empty array against 1, 2 and a
    zero byte. *)
Lemma hashPoseidonBytes_ignores_leading_zeros_sample :
  run Samples.sampleWorld
      (hashPoseidonBytes [[Byte.x00; Byte.x00; Byte.x01; Byte.x02]; []]) boot
  = run Samples.sampleWorld (hashPoseidonBytes [[Byte.x01; Byte.x02]; [Byte.x00]]) boot.
Proof.
  pose proof (hashPoseidonBytes_ignores_leading_zeros Samples.sampleWorld boot
    [[Byte.x00; Byte.x00; Byte.x01; Byte.x02]; []] [[Byte.x01; Byte.x02]; []]) as H1.
  pose proof (hashPoseidonBytes_ignores_leading_zeros Samples.sampleWorld boot
    [[Byte.x01; Byte.x02]; [Byte.x00]] [[Byte.x01; Byte.x02]; []]) as H2.
  rewrite (proj1 (proj2 (H1 ltac:(repeat constructor; [exists 2%nat | exists 0%nat]; reflexivity)))).
  rewrite (proj1 (proj2 (H2 ltac:(repeat constructor; [exists 0%nat | exists 1%nat]; reflexivity)))).
  reflexivity.
Defined.

(** X9. [stringToBigInt] reads the UTF-8 bytes of a string as one
    big-endian integer, so U+0000 characters in front of the recipient or
    of the token do not count: [generateCommitment] hashes the same four
    integers, and [verifyCommitment] answers the same, with and without
    them. *)
Theorem commitment_ignores_leading_nul
    (w : World) (m : Machine) (candidate : jsstring) (amount : number)
    (recipient token nonce : jsstring) (j k : nat) :
  stringToBigInt (repeat 0%N j ++ recipient) = stringToBigInt recipient
  /\ run w (verifyCommitment candidate amount
              (repeat 0%N j ++ recipient) (repeat 0%N k ++ token) nonce) m
     = run w (verifyCommitment candidate amount recipient token nonce) m
  /\ (forall cm cm',
        fst (run w (generateCommitment amount recipient token (Some nonce)) m)
          = Returned cm ->
        fst (run w (generateCommitment amount (repeat 0%N j ++ recipient)
                      (repeat 0%N k ++ token) (Some nonce)) m) = Returned cm' ->
        Commitment.value cm' = Commitment.value cm).
Proof.
  split; [apply stringToBigInt_nul|].
  unfold verifyCommitment, generateCommitment.
  rewrite !stringToBigInt_nul.
  split.
  - rewrite !run_bind.
    destruct (run w (nonce_or_random (Some nonce)) m) as [[nv|e] m1]; [|reflexivity].
    rewrite !run_bind.
    destruct (run w (BigInt_of_number amount) m1) as [[a|e] m2]; [|reflexivity].
    rewrite !run_bind.
    destruct (run w (BigInt (js "0x" ++ nv)) m2) as [[x|e] m3]; [|reflexivity].
    reflexivity.
  - intros cm cm'. rewrite !run_bind.
    destruct (run w (nonce_or_random (Some nonce)) m) as [[nv|e] m1]; [|discriminate].
    rewrite !run_bind.
    destruct (run w (BigInt_of_number amount) m1) as [[a|e] m2]; [|discriminate].
    rewrite !run_bind.
    destruct (run w (BigInt (js "0x" ++ nv)) m2) as [[x|e] m3]; [|discriminate].
    cbn. intros [= <-] [= <-]. reflexivity.
Qed.

End CoreMore.

(* ===================================================================== *)
(** * [pubkeyToFieldElement] on a full-width key *)
(* ===================================================================== *)

Module CodecMore.
Import JsFacts BytesFacts BigIntFacts RuntimeFacts CodecFacts CoreMore.
Import ProofGenerator.

Lemma to_radix_length k fuel radix n acc :
  1 < radix -> 0 <= n < radix ^ Z.of_nat (S k) ->
  (List.length (to_radix fuel radix n acc) <= List.length acc + S k)%nat.
Proof.
  intros Hr. revert k n acc. induction fuel as [|fuel IH]; intros k n acc Hn;
    cbn [to_radix]; [lia|].
  destruct (Z.ltb_spec n radix) as [Hlt|Hge]; [cbn [List.length]; lia|].
  destruct k as [|k].
  - change (radix ^ Z.of_nat 1) with (radix ^ 1) in Hn. rewrite Z.pow_1_r in Hn. lia.
  - specialize (IH k (n / radix) (digit_char (n mod radix) :: acc)).
    cbn [List.length] in IH.
    assert (Hq : 0 <= n / radix < radix ^ Z.of_nat (S k)).
    { split; [apply Z.div_pos; lia|]. apply Z.div_lt_upper_bound; [lia|].
      replace (Z.of_nat (S (S k))) with (Z.succ (Z.of_nat (S k))) in Hn by lia.
      rewrite Z.pow_succ_r in Hn by lia. lia. }
    specialize (IH Hq). lia.
Qed.

(** The hexadecimal text of a number below 16^k has at most k digits. *)
Lemma render_length k v :
  0 <= v < 16 ^ Z.of_nat (S k) -> (List.length (render 16 v) <= S k)%nat.
Proof.
  intros Hv. unfold render.
  pose proof (to_radix_length k (S (Z.to_nat (Z.log2 v))) 16 v [] ltac:(lia) Hv) as H.
  exact H.
Qed.

Lemma padded_length v :
  0 <= v < 16 ^ 64 -> List.length (padStart 64 48 (toString 16 v)) = 64%nat.
Proof.
  intros Hv. unfold toString, padStart. destruct (Z.ltb_spec v 0); [lia|].
  pose proof (render_length 63 v Hv). rewrite length_app, repeat_length. lia.
Qed.

Lemma padded_digits v :
  0 <= v -> Forall (digit_unit 16) (padStart 64 48 (toString 16 v)).
Proof.
  intros Hv. unfold toString, padStart. destruct (Z.ltb_spec v 0); [lia|].
  apply Forall_app. split; [|apply render_digits; lia].
  apply Forall_forall. intros c Hc. apply repeat_spec in Hc. subst c.
  apply zero_unit. lia.
Qed.

Lemma padded_parse v :
  0 <= v -> parse_digits 16 (padStart 64 48 (toString 16 v)) 0 = Some v.
Proof.
  intros Hv. unfold toString, padStart. destruct (Z.ltb_spec v 0); [lia|].
  rewrite parse_zeros by lia. apply parse_render; lia.
Qed.

Lemma parse_digits_app radix s t a :
  parse_digits radix (s ++ t) a
  = match parse_digits radix s a with
    | Some u => parse_digits radix t u
    | None => None
    end.
Proof.
  revert a. induction s as [|c s IH]; intros a; cbn [app parse_digits]; [reflexivity|].
  destruct (digit_value radix c); [apply IH | reflexivity].
Qed.

(** Digits read after an accumulator shift it and add their own value. *)
Lemma parse_digits_shift radix t u v :
  0 < radix -> parse_digits radix t u = Some v ->
  exists x, v = u * radix ^ Z.of_nat (List.length t) + x
            /\ 0 <= x < radix ^ Z.of_nat (List.length t).
Proof.
  intros Hr. revert u. induction t as [|c t IH]; intros u; cbn [parse_digits].
  - intros [= <-]. exists 0. cbn [List.length]. change (radix ^ Z.of_nat 0) with 1. lia.
  - destruct (digit_value radix c) as [d|] eqn:Ed; [|discriminate].
    apply digit_value_range in Ed. intros H. destruct (IH _ H) as (x & -> & Hx).
    exists (d * radix ^ Z.of_nat (List.length t) + x).
    cbn [List.length].
    replace (Z.of_nat (S (List.length t))) with (Z.succ (Z.of_nat (List.length t))) by lia.
    rewrite Z.pow_succ_r by lia.
    assert (0 < radix ^ Z.of_nat (List.length t)) by (apply Z.pow_pos_nonneg; lia).
    split; [ring | nia].
Qed.

Lemma slice_0x s : slice_from 2 (js "0x" ++ s) = s.
Proof. reflexivity. Qed.

(** The first 62 of the 64 digits of [v] spell [v / 256]. *)
Lemma leading_digits v :
  0 <= v < 16 ^ 64 ->
  BigInt (js "0x" ++ slice_to 62 (padStart 64 48 (toString 16 v))) = Ret (v / 256).
Proof.
  intros Hv. pose proof (padded_length v Hv) as Hlen.
  pose proof (padded_digits v ltac:(lia)) as Hd.
  pose proof (padded_parse v ltac:(lia)) as Hp.
  remember (padStart 64 48 (toString 16 v)) as s eqn:Es. clear Es.
  unfold slice_to. rewrite <- (firstn_skipn 62 s) in Hp, Hd.
  apply Forall_app in Hd as [Hd1 _].
  rewrite parse_digits_app in Hp.
  destruct (parse_digits 16 (firstn 62 s) 0) as [u|] eqn:Eu; [|discriminate].
  destruct (parse_digits_shift 16 _ _ _ ltac:(lia) Hp) as (x & Hvx & Hx).
  rewrite length_skipn, Hlen in Hvx, Hx.
  change (16 ^ Z.of_nat (64 - 62)) with 256 in Hvx, Hx.
  unfold BigInt. rewrite StringToBigInt_0x, Eu.
  - f_equal. f_equal. apply (Z.div_unique_pos v 256 u x); lia.
  - intros E. apply (f_equal (@List.length N)) in E.
    rewrite length_firstn, Hlen in E. discriminate.
  - exact Hd1.
Qed.

(** X10. [pubkeyToFieldElement] keeps the first 62 hexadecimal digits of
    its argument.  On a key written with 64 digits (32 bytes), with or
    without the 0x prefix, the last byte is therefore dropped: the result
    spells [v / 256], nothing is reduced modulo the field and no warning
    is printed.  Applying the function to its own result drops one more
    byte. *)
Theorem pubkeyToFieldElement_drops_last_byte (v : Z) :
  0 <= v < 2 ^ 256 ->
  pubkeyToFieldElement (padStart 64 48 (toString 16 v))
    = Ret (js "0x" ++ padStart 64 48 (toString 16 (v / 256)))
  /\ pubkeyToFieldElement (js "0x" ++ padStart 64 48 (toString 16 v))
     = Ret (js "0x" ++ padStart 64 48 (toString 16 (v / 256)))
  /\ bind (pubkeyToFieldElement (padStart 64 48 (toString 16 v))) pubkeyToFieldElement
     = Ret (js "0x" ++ padStart 64 48 (toString 16 (v / 256 / 256))).
Proof.
  intros Hv. change (2 ^ 256) with (16 ^ 64) in Hv.
  assert (Hfield : forall u, 0 <= u < 16 ^ 64 ->
    ensureFieldElement (u / 256) (js "pubkeyToFieldElement") = Ret (u / 256)).
  { intros u Hu. apply ensureFieldElement_in_range.
    pose proof hex_window_below_modulus as Hw.
    change (16 ^ Z.of_nat 62) with (16 ^ 64 / 256) in Hw.
    split; [apply Z.div_pos; lia|].
    eapply Z.le_lt_trans; [|exact Hw]. apply Z.div_le_mono; lia. }
  assert (Hprefixed : forall u, 0 <= u < 16 ^ 64 ->
    pubkeyToFieldElement (js "0x" ++ padStart 64 48 (toString 16 u))
    = Ret (js "0x" ++ padStart 64 48 (toString 16 (u / 256)))).
  { intros u Hu. unfold pubkeyToFieldElement. rewrite startsWith_0x, slice_0x.
    rewrite (leading_digits u Hu). cbn [bind]. rewrite (Hfield u Hu). reflexivity. }
  assert (Hbare : pubkeyToFieldElement (padStart 64 48 (toString 16 v))
    = Ret (js "0x" ++ padStart 64 48 (toString 16 (v / 256)))).
  { unfold pubkeyToFieldElement.
    rewrite (hex_text_no_prefix _ (padded_digits v ltac:(lia))).
    rewrite (leading_digits v Hv). cbn [bind]. rewrite (Hfield v Hv). reflexivity. }
  split; [exact Hbare|]. split; [apply Hprefixed; exact Hv|].
  rewrite Hbare. cbn [bind]. apply Hprefixed.
  split; [apply Z.div_pos; lia|].
  apply Z.div_lt_upper_bound; lia.
Qed.

(** The key ff...ff loses its last byte. *)
Lemma pubkeyToFieldElement_drops_last_byte_sample :
  pubkeyToFieldElement
    (js "ffffffffffffffffffffffffffffffffffffffffffffffffffffffffffffffff")
  = Ret (js "0x00ffffffffffffffffffffffffffffffffffffffffffffffffffffffffffffff").
Proof.
  exact (proj1 (pubkeyToFieldElement_drops_last_byte (2 ^ 256 - 1) ltac:(lia))).
Defined.

End CodecMore.

(* ===================================================================== *)
(** * Decryption under another key *)
(* ===================================================================== *)

Module ElGamalMore.
Import JsFacts BytesFacts BigIntFacts RuntimeFacts.
Import Curve ElGamal ElGamalFacts CurveModel MoreSamples.

Lemma shifted_message a r sk1 sk2 :
  ((a + (r * sk1) mod n) mod n - (sk2 * r) mod n) mod n
  = (a + r * (sk1 - sk2)) mod n.
Proof.
  rewrite Zminus_mod_idemp_l, Zminus_mod_idemp_r.
  replace (a + (r * sk1) mod n - sk2 * r) with (a - sk2 * r + (r * sk1) mod n) by ring.
  rewrite Zplus_mod_idemp_r. f_equal. ring.
Qed.

(** X11. [decryptAmount] has no way to tell a wrong key.  A ciphertext of
    [a] made for the key [sk1] and decrypted with the key [sk2] gives the
    point of [d = (a + r (sk1 - sk2)) mod n], [r] being the ephemeral
    scalar: the search returns [d] when [d <= maxAmount] (it is [a] when
    the keys agree) and throws its one error otherwise. *)
Theorem decrypt_under_another_key
    {curve : G1} (wk1 wk2 w : World) (mk1 mk2 m : Machine)
    (keys1 keys2 : ElGamalKeypair) (amount : Z) :
  fst (run wk1 generateElGamalKeypair mk1) = Returned keys1 ->
  fst (run wk2 generateElGamalKeypair mk2) = Returned keys2 ->
  1 <= amount < n ->
  Z.rem (bytesToNumberBE (draw w (drawn m) 32)) n <> 0 ->
  exists sk1 sk2,
    hexToNumber (privateKey keys1) = Ret sk1
    /\ hexToNumber (privateKey keys2) = Ret sk2
    /\ fst (run w (encrypted <- encryptAmount amount (publicKey keys1) ;;
                  decryptAmount encrypted (privateKey keys2)) m)
       = (let d := (amount
                    + Z.rem (bytesToNumberBE (draw w (drawn m) 32)) n * (sk1 - sk2))
                   mod n in
          if d <=? maxAmount then Returned d else Thrown decrypt_error).
Proof.
  intros Hk1 Hk2 Ha Hr.
  destruct (keypair_returned _ _ _ Hk1) as (sk1 & P1 & Hsk1 & HP1 & HdP1 & Hpriv1 & Hpub1).
  destruct (keypair_returned _ _ _ Hk2) as (sk2 & P2 & Hsk2 & HP2 & HdP2 & Hpriv2 & Hpub2).
  destruct (run_encryptAmount w m amount sk1 P1 Hsk1 HP1 HdP1 Ha Hr)
    as (C1 & C2 & HinC1 & HdC1 & HinC2 & HdC2 & Hrun).
  destruct (decryptAmount_recover sk2 C1 C2 Hsk2 HinC1 HinC2) as (point & Hin & Hd & Hdec).
  exists sk1, sk2.
  split; [rewrite Hpriv1; apply hexToNumber_numberToHex; lia|].
  split; [rewrite Hpriv2; apply hexToNumber_numberToHex; lia|].
  rewrite HdC2, HdC1, shifted_message in Hd.
  rewrite run_bind, Hpub1, Hrun, Hpriv2, Hdec. cbv zeta.
  pose proof (dlog_range point Hin) as Hrange. rewrite Hd in Hrange.
  destruct (Z.leb_spec
    ((amount + Z.rem (bytesToNumberBE (draw w (drawn m) 32)) n * (sk1 - sk2)) mod n)
    maxAmount) as [Hle|Hgt].
  - rewrite recover_in_range by (try assumption; rewrite Hd; lia).
    now rewrite Hd.
  - rewrite recover_out_of_range by (try assumption; rewrite Hd; lia).
    reflexivity.
Qed.

(** The two sample key pairs differ: 10,000 lamports encrypted for the
    first are not recovered with the second. *)
Lemma decrypt_under_another_key_sample :
  fst (run Samples.sampleWorld
         (encrypted <- encryptAmount (curve := ExponentGroup) 10000
                         (publicKey sampleKeys) ;;
          decryptAmount (curve := ExponentGroup) encrypted
            (privateKey otherKeys)) afterBothKeys)
  = Thrown decrypt_error.
Proof.
  destruct (decrypt_under_another_key (curve := ExponentGroup)
              Samples.sampleWorld Samples.sampleWorld Samples.sampleWorld
              boot afterKeys afterBothKeys sampleKeys otherKeys 10000)
    as (sk1 & sk2 & H1 & H2 & H).
  - vm_compute. reflexivity.
  - vm_compute. reflexivity.
  - unfold n. lia.
  - vm_compute. discriminate.
  - vm_compute in H1, H2. injection H1 as <-. injection H2 as <-.
    rewrite H. vm_compute. reflexivity.
Defined.

(** ** The key pair *)

(** X28. [generateElGamalKeypair] draws 32 bytes and reduces their
    big-endian integer modulo the group order [n].  When the result [sk]
    is not 0 it returns the key pair of [sk]: the private key is the text
    of [sk] on exactly 64 hexadecimal digits, which [hexToNumber] reads
    back as [sk], and the public key is the point [sk BASE], which
    [pointOfHex] reads back from its two coordinates.  When the result is
    0 the library refuses the scalar and the function throws. *)
Theorem keypair_is_well_formed {curve : G1} (w : World) (m : Machine) :
  drawn (snd (run w generateElGamalKeypair m)) = (drawn m + 32)%nat
  /\ (Z.rem (bytesToNumberBE (draw w (drawn m) 32)) n = 0 ->
      fst (run w generateElGamalKeypair m) = Thrown CurveError)
  /\ (Z.rem (bytesToNumberBE (draw w (drawn m) 32)) n <> 0 ->
      exists keys P,
        fst (run w generateElGamalKeypair m) = Returned keys
        /\ privateKey keys
           = numberToHex (Z.rem (bytesToNumberBE (draw w (drawn m) 32)) n)
        /\ List.length (privateKey keys) = 64%nat
        /\ hexToNumber (privateKey keys)
           = Ret (Z.rem (bytesToNumberBE (draw w (drawn m) 32)) n)
        /\ inG1 P
        /\ dlog P = Z.rem (bytesToNumberBE (draw w (drawn m) 32)) n
        /\ publicKey keys = hexPoint (toAffine P)
        /\ pointOfHex (publicKey keys) = Ret (fromAffine (toAffine P))).
Proof.
  pose proof (scalar_range (draw w (drawn m) 32)) as Hrange.
  remember (draw w (drawn m) 32) as kBytes eqn:EB.
  unfold generateElGamalKeypair. rewrite run_randomBytes, <- EB. cbv zeta.
  remember (Z.rem (bytesToNumberBE kBytes) n) as sk eqn:Esk. rewrite run_bind.
  destruct (multiply_cases BASE sk BASE_inG1) as [(Hsk & Q & HQ & Hin & Hd)|(Hno & HT)].
  - rewrite HQ. cbn [run fst snd drawn]. split; [reflexivity|].
    split; [intros H0; lia|]. intros _.
    assert (HdQ : dlog Q = sk).
    { rewrite Hd, BASE_dlog, Z.mul_1_r. apply Z.mod_small. lia. }
    exists {| privateKey := numberToHex sk; publicKey := hexPoint (toAffine Q) |}, Q.
    cbn [privateKey publicKey].
    repeat split; try assumption.
    + unfold numberToHex. apply CodecMore.padded_length. unfold n in Hsk. lia.
    + apply hexToNumber_numberToHex. lia.
    + now apply pointOfHex_affine.
  - rewrite HT. cbn [run fst snd drawn]. split; [reflexivity|].
    split; [reflexivity|]. intros Hne. exfalso. apply Hno. lia.
Qed.

End ElGamalMore.
Example js_literal : js "0x" = [48%N; 120%N].
Proof. reflexivity. Qed.

Example toString_hex_255 : toString 16 255 = js "ff".
Proof. reflexivity. Qed.

Example toString_dec_neg : toString 10 (-1203) = js "-1203".
Proof. reflexivity. Qed.

Example BigInt_hex_trim : StringToBigInt (js " 0xFf ") = Some 255.
Proof. reflexivity. Qed.

Example BigInt_bare_prefix : StringToBigInt (js "0x") = None.
Proof. reflexivity. Qed.

Example BigInt_empty : StringToBigInt (js "") = Some 0.
Proof. reflexivity. Qed.

Example BigInt_signed_hex : StringToBigInt (js "-0x10") = None.
Proof. reflexivity. Qed.

Example encode_euro : map byte_val (TextEncoder_encode [8364%N]) = [226; 130; 172].
Proof. reflexivity. Qed.

Example encode_pair : map byte_val (TextEncoder_encode [55357%N; 56832%N]) = [240; 159; 152; 128].
Proof. reflexivity. Qed.

(* ===================================================================== *)
(** * What reaches the prover *)
(* ===================================================================== *)

Module ProofMore.
Import JsFacts BytesFacts BigIntFacts RuntimeFacts CodecFacts ProofFacts.
Import ProofGenerator Assembly.

Lemma hexToBigInt_cases hex :
  (exists v, hexToBigInt hex = Ret v) \/ hexToBigInt hex = Throw SyntaxError.
Proof.
  unfold hexToBigInt. destruct (BigInt_cases (js "0x" ++
    (if startsWith hex (js "0x") then slice_from 2 hex else hex))) as [H|H]; auto.
Qed.

Lemma tokenMint_cases t :
  (exists token, tokenMintFieldElement t = Ret token)
  \/ tokenMintFieldElement t = Throw SyntaxError.
Proof.
  unfold tokenMintFieldElement.
  destruct (streq t (js "SOL") || streq t (js "0")); [eauto|].
  destruct (startsWith t (js "0x") || has_hex_letter t); [|eauto].
  destruct (hexToBigInt_cases t) as [(v & ->) | ->]; [left | right]; cbn [bind]; eauto.
Qed.

Lemma run_hex_field_fails w hex name m :
  hexToBigInt hex = Throw SyntaxError ->
  run w (hex_field hex name) m = (Thrown SyntaxError, m).
Proof. intros H. unfold hex_field. now rewrite H. Qed.

Lemma run_big_field_fails w v name m :
  v < 0 ->
  run w (big_field v name) m
  = (Thrown (Error (name ++ js " cannot be negative: " ++ toString 10 v)), m).
Proof.
  intros H. unfold big_field. rewrite run_bind, run_ensure_negative by assumption.
  reflexivity.
Qed.

(** Nothing before the call of the prover touches the record of its calls. *)
Lemma proved_hex_field w hex name m :
  proved (snd (run w (hex_field hex name) m)) = proved m.
Proof.
  destruct (hexToBigInt_cases hex) as [(v & H)|H].
  - rewrite (run_hex_field w hex name v m H). apply proved_after_field.
  - now rewrite run_hex_field_fails.
Qed.

Lemma proved_big_field w v name m :
  proved (snd (run w (big_field v name) m)) = proved m.
Proof.
  destruct (Z_lt_le_dec v 0) as [H|H].
  - now rewrite run_big_field_fails.
  - rewrite run_big_field by assumption. apply proved_after_field.
Qed.

Ltac hex_step H hex :=
  rewrite run_bind in H;
  let v := fresh "v" in
  let Hv := fresh "Hv" in
  destruct (hexToBigInt_cases hex) as [(v & Hv)|Hv];
  [ rewrite (run_hex_field _ hex _ v _ Hv) in H
  | rewrite (run_hex_field_fails _ hex _ _ Hv) in H; discriminate H ].

Ltac big_step H v :=
  rewrite run_bind in H;
  let Hv := fresh "Hv" in
  destruct (Z_lt_le_dec v 0) as [Hv|Hv];
  [ rewrite (run_big_field_fails _ v _ _ Hv) in H; discriminate H
  | rewrite (run_big_field _ v _ _ Hv) in H ].

(** When the input object is built, every text in it was read. *)
Lemma buildCircuitInputs_returned w inputs ci m :
  run w (buildCircuitInputs inputs) boot = (Returned ci, m) ->
  exists token sc ss rc sa c1 c2 er sr rk,
    tokenMintFieldElement (tokenMint inputs) = Ret token
    /\ hexToBigInt (senderCommitment inputs) = Ret sc
    /\ hexToBigInt (senderSecret inputs) = Ret ss
    /\ hexToBigInt (receiverCommitment inputs) = Ret rc
    /\ hexToBigInt (salt inputs) = Ret sa
    /\ hexToBigInt (encryptedC1 inputs) = Ret c1
    /\ hexToBigInt (encryptedC2 inputs) = Ret c2
    /\ hexToBigInt (elgamalRandomness inputs) = Ret er
    /\ hexToBigInt (shadowidRoot inputs) = Ret sr
    /\ hexToBigInt (receiverElGamalPubkey inputs) = Ret rk
    /\ 0 <= amount inputs /\ 0 <= maxAmount inputs.
Proof.
  intros H. unfold buildCircuitInputs in H.
  destruct (tokenMint_cases (tokenMint inputs)) as [(token & Ht)|Ht];
    rewrite Ht in H; [|discriminate H].
  rewrite bind_Ret in H.
  hex_step H (senderCommitment inputs).
  hex_step H (senderSecret inputs).
  hex_step H (receiverCommitment inputs).
  big_step H (amount inputs).
  hex_step H (salt inputs).
  hex_step H (encryptedC1 inputs).
  hex_step H (encryptedC2 inputs).
  hex_step H (elgamalRandomness inputs).
  hex_step H (shadowidRoot inputs).
  big_step H (maxAmount inputs).
  hex_step H (receiverElGamalPubkey inputs).
  repeat eexists; eassumption.
Qed.

Lemma proved_bind {A B : Type} w (p : prog A) (f : A -> prog B) :
  (forall m, proved (snd (run w p m)) = proved m) ->
  (forall a m, proved (snd (run w (f a) m)) = proved m) ->
  forall m, proved (snd (run w (bind p f) m)) = proved m.
Proof.
  intros Hp Hf m. rewrite run_bind. specialize (Hp m).
  destruct (run w p m) as [[a|e] m1]; cbn [snd] in *; [|exact Hp].
  now rewrite Hf.
Qed.

Lemma buildCircuitInputs_quiet w inputs m :
  proved (snd (run w (buildCircuitInputs inputs) m)) = proved m.
Proof.
  unfold buildCircuitInputs.
  destruct (tokenMint_cases (tokenMint inputs)) as [(token & ->) | ->];
    [|reflexivity].
  rewrite bind_Ret. revert m.
  repeat (apply proved_bind;
          [ intros m; first [apply proved_hex_field | apply proved_big_field]
          | intros ? ]).
  reflexivity.
Qed.

(** The loop on a token text that is no integer literal. *)
Lemma checkEntries_unreadable good key value rest :
  Forall passes good -> BigInt value = Throw SyntaxError ->
  checkEntries (good ++ (key, value) :: rest) = Throw SyntaxError.
Proof.
  intros Hgood Hv. induction Hgood as [|[k0 v0] good (u & Hu & Hlt) _ IH].
  - cbn [app checkEntries]. now rewrite Hv.
  - cbn [app checkEntries]. simpl in Hu. rewrite Hu, bind_Ret.
    destruct (Z.leb_spec BN254_FIELD_MODULUS u); [lia | exact IH].
Qed.

(** X12. Whatever its inputs, [generateProof] either throws a
    ProofGenerationError without calling the prover, or calls the prover
    exactly once, on an input object in which every scalar entry is read
    by [BigInt] as an integer below the field modulus; in that object all
    entries but token_mint are the decimal texts of residues modulo the
    modulus, and the answer of the prover is the answer of
    [generateProof], an error being wrapped.  No other error leaves
    [generateProof]. *)
Theorem prover_gets_field_elements (w : World) (inputs : ProofInputs) :
  (proved (snd (run w (generateProof inputs) boot)) = []
   /\ exists cause,
        fst (run w (generateProof inputs) boot) = Thrown (ProofGenerationError cause))
  \/ (exists token sc ss rc sa c1 c2 er sr rk,
        proved (snd (run w (generateProof inputs) boot))
          = [assembled inputs token sc ss rc sa c1 c2 er sr rk]
        /\ Forall passes
             (scalar_entries (assembled inputs token sc ss rc sa c1 c2 er sr rk))
        /\ fst (run w (generateProof inputs) boot)
           = match groth16 w (assembled inputs token sc ss rc sa c1 c2 er sr rk) with
             | Returned g => Returned g
             | Thrown e => Thrown (ProofGenerationError e)
             end).
Proof.
  pose proof (buildCircuitInputs_quiet w inputs boot) as Hquiet.
  destruct (run w (buildCircuitInputs inputs) boot) as [[ci|e] m1] eqn:Hrun.
  - destruct (buildCircuitInputs_returned w inputs ci m1 Hrun)
      as (token & sc & ss & rc & sa & c1 & c2 & er & sr & rk
          & Ht & Hsc & Hss & Hrc & Hsa & Hc1 & Hc2 & Her & Hsr & Hrk & Ha & Hm).
    destruct (BigInt_cases token) as [Htok|(t & Htok)].
    + left.
      destruct (run_buildCircuitInputs w inputs token sc ss rc sa c1 c2 er sr rk
                  Ht Hsc Hss Hrc Hsa Hc1 Hc2 Her Hsr Hrk Ha Hm) as (m2 & Hrun2 & Hp2).
      unfold generateProof. rewrite run_catch, run_bind, Hrun2, run_bind.
      change (scalar_entries (assembled inputs token sc ss rc sa c1 c2 er sr rk))
        with ([ (js "sender_commitment", field_text sc);
                (js "sender_secret", field_text ss);
                (js "receiver_commitment", field_text rc);
                (js "amount", field_text (amount inputs)) ]
              ++ (js "token_mint", token)
              :: [ (js "salt", field_text sa);
                   (js "encrypted_amount_c1", field_text c1);
                   (js "encrypted_amount_c2", field_text c2);
                   (js "elgamal_randomness", field_text er);
                   (js "shadowid_root", field_text sr);
                   (js "max_amount", field_text (maxAmount inputs));
                   (js "receiver_elgamal_pubkey", field_text rk) ]).
      rewrite (checkEntries_unreadable _ _ _ _
                 (good_prefix inputs sc ss rc) Htok).
      cbn [run fst snd]. split; [exact Hp2 | eauto].
    + destruct (Z_lt_le_dec t BN254_FIELD_MODULUS) as [Hlt|Hge].
      * right. exists token, sc, ss, rc, sa, c1, c2, er, sr, rk.
        assert (Hpass : passes (js "token_mint", token)) by (exists t; auto).
        destruct (run_generateProof_pass w inputs token sc ss rc sa c1 c2 er sr rk
                    Ht Hsc Hss Hrc Hsa Hc1 Hc2 Her Hsr Hrk Ha Hm Hpass) as (Hres & Hp).
        split; [exact Hp|]. split; [|exact Hres].
        change (scalar_entries (assembled inputs token sc ss rc sa c1 c2 er sr rk))
          with ([ (js "sender_commitment", field_text sc);
                  (js "sender_secret", field_text ss);
                  (js "receiver_commitment", field_text rc);
                  (js "amount", field_text (amount inputs)) ]
                ++ (js "token_mint", token)
                :: [ (js "salt", field_text sa);
                     (js "encrypted_amount_c1", field_text c1);
                     (js "encrypted_amount_c2", field_text c2);
                     (js "elgamal_randomness", field_text er);
                     (js "shadowid_root", field_text sr);
                     (js "max_amount", field_text (maxAmount inputs));
                     (js "receiver_elgamal_pubkey", field_text rk) ]).
        apply Forall_app. split; [apply good_prefix|].
        constructor; [exact Hpass | apply good_suffix].
      * left.
        destruct (run_generateProof_token_rejected w inputs token sc ss rc sa c1 c2 er sr rk
                    Ht Hsc Hss Hrc Hsa Hc1 Hc2 Her Hsr Hrk Ha Hm t Htok Hge) as (Hres & Hp).
        split; [exact Hp | eauto].
  - left. unfold generateProof. rewrite run_catch, run_bind, Hrun.
    cbn [run fst snd] in *. split; [exact Hquiet | eauto].
Qed.

End ProofMore.

(* ===================================================================== *)
(** * The bytes of a ciphertext *)
(* ===================================================================== *)

Module ApiFacts.
Import JsFacts BytesFacts BigIntFacts CodecFacts SecretFacts CoreMore CodecMore.
Import Http ApiClient.

Lemma byte_loop_length n s :
  List.length s = (2 * n)%nat -> List.length (byte_loop s) = n.
Proof.
  revert s. induction n as [|n IH]; intros s Hs.
  - destruct s; [reflexivity | discriminate].
  - destruct s as [|c0 [|c1 rest]]; cbn [List.length] in Hs; try lia.
    cbn [byte_loop List.length]. f_equal. apply IH. lia.
Qed.

Lemma padStart_length len c s :
  List.length (padStart len c s) = Nat.max len (List.length s).
Proof. unfold padStart. rewrite length_app, repeat_length. lia. Qed.

Lemma padStart_full len c s : (len <= List.length s)%nat -> padStart len c s = s.
Proof.
  intros H. unfold padStart. replace (len - List.length s)%nat with 0%nat by lia.
  reflexivity.
Qed.

(** X13. [hexToBytes] returns exactly 32 entries for every text, hex or
    not, short or long: the text is padded to 64 characters, cut after the
    64th, and read two characters at a time.  So the encrypted_amount that
    [settle] posts has exactly 64 entries whenever a ciphertext is given,
    and is null otherwise. *)
Theorem hexToBytes_gives_32_entries
    (hex : jsstring) (encryptedAmount : option ElGamal.EncryptedAmount) :
  List.length (hexToBytes hex) = 32%nat
  /\ match encryptedAmountBytes encryptedAmount with
     | Some bytes => encryptedAmount <> None /\ List.length bytes = 64%nat
     | None => encryptedAmount = None
     end.
Proof.
  assert (H32 : forall h, List.length (hexToBytes h) = 32%nat).
  { intros h. unfold hexToBytes, slice_to. apply byte_loop_length.
    rewrite length_firstn, padStart_length. lia. }
  split; [apply H32|].
  destruct encryptedAmount as [encrypted|]; cbn [encryptedAmountBytes]; [|reflexivity].
  split; [discriminate|]. now rewrite length_app, !H32.
Qed.

(** ** Hexadecimal digits, two at a time *)

Lemma byte_of_value z : 0 <= z < 256 -> exists b : byte, byte_val b = z.
Proof.
  intros Hz. destruct (Byte.of_N (Z.to_N z)) as [b|] eqn:E.
  - exists b. unfold byte_val. apply Byte.to_of_N in E. rewrite E. lia.
  - apply Byte.of_N_None_iff in E. lia.
Qed.

Lemma parseInt16_pair d0 d1 :
  0 <= d0 < 16 -> 0 <= d1 < 16 ->
  parseInt16 [digit_char d0; digit_char d1] = Some (d0 * 16 + d1).
Proof.
  intros H0 H1.
  assert (U0 : digit_unit 16 (digit_char d0)) by (exists d0; auto).
  assert (U1 : digit_unit 16 (digit_char d1)) by (exists d1; auto).
  pose proof (digit_unit_not_space 16 _ ltac:(lia) U0) as S0.
  apply hex_unit_range in U0. apply hex_unit_range in U1.
  unfold parseInt16. cbn [trimStart]. rewrite S0.
  replace (N.eqb (digit_char d0) 45) with false by (symmetry; cmp).
  replace (N.eqb (digit_char d0) 43) with false by (symmetry; cmp).
  cbn [fst snd].
  replace (N.eqb (digit_char d1) 120 || N.eqb (digit_char d1) 88) with false
    by (symmetry; cmp).
  rewrite andb_false_r. cbn [leading_digits].
  rewrite !digit_value_char by lia. cbn [option_map]. f_equal. lia.
Qed.

(** A text of an even number of hexadecimal digits is read as the bytes
    it spells. *)
Lemma byte_loop_digits n s :
  List.length s = (2 * n)%nat -> Forall (digit_unit 16) s ->
  exists bytes : list byte,
    List.length bytes = n
    /\ byte_loop s = map (fun b => Some (byte_val b)) bytes
    /\ forall acc, parse_digits 16 s acc = Some (fold_left be_step bytes acc).
Proof.
  revert s. induction n as [|n IH]; intros s Hs Hd.
  - destruct s; [|discriminate]. exists []. repeat split.
  - destruct s as [|c0 [|c1 rest]]; cbn [List.length] in Hs; try lia.
    inversion Hd as [|? ? (d0 & H0 & ->) Hd']; subst.
    inversion Hd' as [|? ? (d1 & H1 & ->) Hrest]; subst.
    destruct (IH rest ltac:(lia) Hrest) as (bytes & Hlen & Hloop & Hparse).
    destruct (byte_of_value (d0 * 16 + d1) ltac:(lia)) as (b & Hb).
    exists (b :: bytes). split; [cbn [List.length]; lia|]. split.
    + cbn [byte_loop map]. rewrite parseInt16_pair, Hloop, Hb by lia. reflexivity.
    + intros acc. cbn [parse_digits fold_left].
      rewrite !digit_value_char by lia. rewrite Hparse, be_step_arith, Hb.
      do 2 f_equal. lia.
Qed.

(** X14. For a coordinate [v] below 2^256, [hexToBytes] of its hexadecimal
    text - bare, with a 0x prefix, or padded to 64 digits as
    [encryptAmount] writes it - is the list of its 32 bytes, most
    significant first. *)
Theorem hexToBytes_is_big_endian (v : Z) :
  0 <= v < 2 ^ 256 ->
  exists bytes : list byte,
    List.length bytes = 32%nat
    /\ be_bytes bytes = v
    /\ hexToBytes (toString 16 v) = map (fun b => Some (byte_val b)) bytes
    /\ hexToBytes (js "0x" ++ toString 16 v) = map (fun b => Some (byte_val b)) bytes
    /\ hexToBytes (ElGamal.numberToHex v) = map (fun b => Some (byte_val b)) bytes.
Proof.
  intros Hv. change (2 ^ 256) with (16 ^ 64) in Hv.
  pose proof (padded_length v Hv) as Hlen.
  pose proof (padded_digits v ltac:(lia)) as Hd.
  pose proof (padded_parse v ltac:(lia)) as Hp.
  destruct (byte_loop_digits 32 _ Hlen Hd) as (bytes & Hb & Hloop & Hparse).
  exists bytes. split; [exact Hb|]. split.
  { specialize (Hparse 0). rewrite Hp in Hparse. now injection Hparse. }
  assert (Hcut : slice_to 64 (padStart 64 48 (toString 16 v))
                 = padStart 64 48 (toString 16 v)).
  { unfold slice_to. apply firstn_all2. lia. }
  assert (Hbare : hexToBytes (toString 16 v) = map (fun b => Some (byte_val b)) bytes).
  { unfold hexToBytes. rewrite hex_text_no_prefix.
    - now rewrite Hcut.
    - unfold toString. destruct (Z.ltb_spec v 0); [lia|]. apply render_digits. lia. }
  split; [exact Hbare|]. split.
  - unfold hexToBytes. rewrite startsWith_0x, slice_0x. now rewrite Hcut.
  - unfold hexToBytes, ElGamal.numberToHex.
    rewrite (hex_text_no_prefix _ Hd).
    rewrite (padStart_full 64 48 (padStart 64 48 (toString 16 v))) by lia.
    now rewrite Hcut.
Qed.

(** The coordinate 0x0102 is sent as thirty zero bytes, then 1 and 2. *)
Lemma hexToBytes_is_big_endian_sample :
  exists bytes : list byte,
    List.length bytes = 32%nat
    /\ be_bytes bytes = 258
    /\ hexToBytes (js "102") = map (fun b => Some (byte_val b)) bytes
    /\ hexToBytes (js "0x102") = map (fun b => Some (byte_val b)) bytes
    /\ hexToBytes (ElGamal.numberToHex 258) = map (fun b => Some (byte_val b)) bytes.
Proof. apply (hexToBytes_is_big_endian 258). lia. Defined.

(** ** The errors of the API client *)

Lemma rethrow_is_ShadowPayError what e :
  exists message statusCode details,
    rethrow what e = ShadowPayError message statusCode details.
Proof. destruct e; cbn [rethrow]; eauto. Qed.

Lemma rejected_rethrow {A : Type} what e :
  exists message statusCode details,
    @Rejected A (rethrow what e) = Rejected (ShadowPayError message statusCode details).
Proof. destruct (rethrow_is_ShadowPayError what e) as (m & s & d & ->). eauto. Qed.

Lemma try_awaiting_cases {A : Type} what (body : settled A) :
  (exists a, try_awaiting what body = Fulfilled a)
  \/ (exists message statusCode details,
        try_awaiting what body = Rejected (ShadowPayError message statusCode details)).
Proof.
  destruct body as [a|e]; cbn [try_awaiting]; [eauto|].
  destruct (rethrow_is_ShadowPayError what e) as (m & s & d & ->). eauto 6.
Qed.

(** X15. Every rejection of [getMerkleProof] is a ShadowPayError: the
    catch block wraps whatever is thrown while fetching, while reading the
    body and while converting it.  A 404 gives the "Commitment not found"
    error with status 404 whatever the body says; a failure of the fetch
    with an error that is no ShadowPayError gives status 0 and the message
    of that error after "Network error getting merkle proof: ". *)
Theorem getMerkleProof_rejects_with_ShadowPayError
    (eng : Engine) (answer : fetched) (text : jsstring) (body : settled jsval)
    (class : error_class) (message : jsstring) (v : jsval) :
  ((exists proof, getMerkleProof eng answer = Fulfilled proof)
   \/ (exists message statusCode details,
         getMerkleProof eng answer
         = Rejected (ShadowPayError message statusCode details)))
  /\ getMerkleProof eng
       (Responds {| status := 404; statusText := text; json := body |})
     = Rejected (ShadowPayError ShadowPayError_not_found 404
                   (Body (error_body {| status := 404; statusText := text;
                                        json := body |})))
  /\ getMerkleProof eng (Fails (Err class message))
     = Rejected (ShadowPayError (js "Network error getting merkle proof: " ++ message)
                   0 (Caught (Err class message)))
  /\ getMerkleProof eng (Fails (NotError v))
     = Rejected (ShadowPayError (js "Network error getting merkle proof: Unknown error")
                   0 (Caught (NotError v)))
  /\ getMerkleProof eng
       (Responds {| status := 200; statusText := text;
                    json := Rejected (Err class message) |})
     = Rejected (ShadowPayError (js "Network error getting merkle proof: " ++ message)
                   0 (Caught (Err class message))).
Proof.
  split; [apply try_awaiting_cases|]. repeat split.
Qed.

(** X16. [authorize], [verifyAccess] and [settle] return the promise of
    [response.json()] without awaiting it, so their catch block does not
    see how it settles: when the body of a successful answer cannot be
    read, the rejection of [response.json()] leaves the method as it is,
    not as a ShadowPayError.  Every other rejection is a ShadowPayError,
    and a 401 on [authorize] always gives the "Invalid API key" error. *)
Theorem unread_body_escapes_the_catch
    (eng : Engine) (base64 : jsstring -> settled jsstring)
    (params : SettleRequest) (answer : fetched)
    (text : jsstring) (body : settled jsval) (e : thrown) :
  ((exists v, authorize eng answer = Fulfilled v)
   \/ (exists message statusCode details,
         authorize eng answer = Rejected (ShadowPayError message statusCode details))
   \/ (exists response,
         answer = Responds response /\ ok response = true
         /\ authorize eng answer = json response))
  /\ ((exists v, settle eng base64 params answer = Fulfilled v)
      \/ (exists message statusCode details,
            settle eng base64 params answer
            = Rejected (ShadowPayError message statusCode details))
      \/ (exists response,
            answer = Responds response /\ ok response = true
            /\ settle eng base64 params answer = json response))
  /\ authorize eng (Responds {| status := 200; statusText := text; json := Rejected e |})
     = Rejected e
  /\ verifyAccess (Responds {| status := 200; statusText := text; json := Rejected e |})
     = Rejected e
  /\ (forall built,
        settle_body base64 params = Fulfilled built ->
        settle eng base64 params
          (Responds {| status := 200; statusText := text; json := Rejected e |})
        = Rejected e)
  /\ authorize eng (Responds {| status := 401; statusText := text; json := body |})
     = Rejected (ShadowPayError ShadowPayError_invalid_key 401
                   (Body (error_body {| status := 401; statusText := text;
                                        json := body |}))).
Proof.
  assert (Hfailed : forall label response what,
    exists message statusCode details,
      try_returning (A := jsval) what
        (throw_failed eng label (error_body response) response)
      = Rejected (ShadowPayError message statusCode details)).
  { intros label response what. unfold throw_failed.
    destruct (error_text eng (error_body response) response) as [t|e0];
      cbn [try_returning]; [cbn [rethrow]; eauto|].
    apply rejected_rethrow. }
  split; [|split]; [| |repeat split].
  - unfold authorize. destruct answer as [response|e0].
    + destruct (ok response) eqn:Hok; cbn [negb].
      * right. right. exists response. auto.
      * right. left. destruct (status response =? 401).
        -- cbn [try_returning rethrow]. eauto.
        -- apply Hfailed.
    + right. left. cbn [try_returning]. apply rejected_rethrow.
  - unfold settle. destruct (settle_body base64 params) as [built|e0].
    + destruct answer as [response|e0].
      * destruct (ok response) eqn:Hok; cbn [negb].
        -- right. right. exists response. auto.
        -- right. left. apply Hfailed.
      * right. left. cbn [try_returning]. apply rejected_rethrow.
    + right. left. cbn [try_returning]. apply rejected_rethrow.
  - intros built Hbuilt. unfold settle. rewrite Hbuilt. reflexivity.
Qed.

(** ** The Merkle proof, converted *)






End ApiFacts.

(* ===================================================================== *)
(** * The payment middleware and the webhook handler *)
(* ===================================================================== *)

Module ServerFacts.
Import JsFacts BytesFacts SecretFacts.
Import Http Server.

Section Middleware.
Context {Num : Type} (Num_toString : Num -> jsstring).

Lemma verifyPaymentDetailed_fulfilled eng answer :
  exists result, verifyPaymentDetailed eng answer = Fulfilled result.
Proof.
  unfold verifyPaymentDetailed.
  destruct (verifyPaymentDetailed_try eng answer); eauto.
Qed.

Lemma verifyPayment_fulfilled eng answer :
  exists v, verifyPayment eng answer = Fulfilled v.
Proof.
  unfold verifyPayment.
  destruct (verifyPaymentDetailed_fulfilled eng answer) as (r & ->). eauto.
Qed.

(** When [verifyPayment] gives a truthy value. *)
Lemma verifyPayment_truthy eng answer v :
  verifyPayment eng answer = Fulfilled v -> truthy v = true ->
  exists response result,
    answer = Responds response /\ ok response = true
    /\ json response = Fulfilled result
    /\ get eng result (js "isValid") = Fulfilled v.
Proof.
  unfold verifyPayment, verifyPaymentDetailed, verifyPaymentDetailed_try.
  destruct answer as [response|e]; [|intros [= <-]; discriminate].
  destruct (ok response) eqn:Hok; cbn [negb].
  - destruct (json response) as [result|e] eqn:Hj; [|intros [= <-]; discriminate].
    destruct (get eng result (js "isValid")) as [w|e] eqn:Hg;
      [|intros [= <-]; discriminate].
    cbn [isValid]. intros [= <-] Ht. exists response, result. auto.
  - destruct (get eng (error_body response) (js "error"));
      intros [= <-]; discriminate.
Qed.

Lemma verifyPayment_of_valid eng response result v :
  ok response = true -> json response = Fulfilled result ->
  get eng result (js "isValid") = Fulfilled v ->
  verifyPayment eng (Responds response) = Fulfilled v.
Proof.
  intros Hok Hj Hg.
  unfold verifyPayment, verifyPaymentDetailed, verifyPaymentDetailed_try.
  rewrite Hok, Hj, Hg. reflexivity.
Qed.

(** X18. [verifyPaymentDetailed] and [verifyPayment] never reject: a
    failure of the fetch, a status outside 200-299, a body that cannot be
    read and a body that is [null] all end as [isValid: false].  The only
    way to another answer is a successful response with a readable body,
    whose [isValid] property is passed on as it is. *)
Theorem verifyPayment_never_rejects
    (eng : Engine) (answer : fetched) (e : thrown) (text : jsstring)
    (code : Z) (body : settled jsval) :
  (exists result, verifyPaymentDetailed eng answer = Fulfilled result)
  /\ (exists v, verifyPayment eng answer = Fulfilled v)
  /\ verifyPayment eng (Fails e) = Fulfilled (VBool false)
  /\ verifyPayment eng
       (Responds {| status := 200; statusText := text; json := Rejected e |})
     = Fulfilled (VBool false)
  /\ verifyPayment eng
       (Responds {| status := 200; statusText := text; json := Fulfilled VNull |})
     = Fulfilled (VBool false)
  /\ (ok {| status := code; statusText := text; json := body |} = false ->
      verifyPayment eng
        (Responds {| status := code; statusText := text; json := body |})
      = Fulfilled (VBool false))
  /\ (forall v, verifyPayment eng answer = Fulfilled v ->
      v = VBool false
      \/ exists response result,
           answer = Responds response /\ ok response = true
           /\ json response = Fulfilled result
           /\ get eng result (js "isValid") = Fulfilled v).
Proof.
  split; [apply verifyPaymentDetailed_fulfilled|].
  split; [apply verifyPayment_fulfilled|].
  repeat split.
  - intros Hok. unfold verifyPayment, verifyPaymentDetailed, verifyPaymentDetailed_try.
    rewrite Hok. cbn [negb].
    destruct (get eng _ (js "error")); reflexivity.
  - intros v Hv.
    unfold verifyPayment, verifyPaymentDetailed, verifyPaymentDetailed_try in Hv.
    destruct answer as [response|e0]; [|left; now injection Hv].
    destruct (ok response) eqn:Hok; cbn [negb] in Hv.
    + destruct (json response) as [result|e0] eqn:Hj; [|left; now injection Hv].
      destruct (get eng result (js "isValid")) as [w|e0] eqn:Hg;
        [|left; now injection Hv].
      cbn [isValid] in Hv. injection Hv as <-. right. exists response, result. auto.
    + left. destruct (get eng (error_body response) (js "error")); now injection Hv.
Qed.

(** X19. The handler of [requirePayment] calls [next] exactly when the
    request has a non-empty X-PAYMENT header and the verification service
    answered that header with a successful response whose body has a
    truthy [isValid]; [req.shadowpay] then repeats the requirement, not
    what was verified.  In every other case the handler replies with
    status 402, asking for payment when the header is missing and with
    "Invalid payment" otherwise: its "Payment verification failed" branch
    cannot be reached through [verifyPayment]. *)
Theorem next_only_after_verification
    (eng : Engine) (apiKey : jsstring)
    (backend : jsstring -> PaymentRequirement -> fetched)
    (requirement : PaymentRequirement) (req : Request) :
  (forall shadowpay,
      requirePayment Num_toString eng apiKey backend requirement req
        = CalledNext shadowpay
      <-> (exists header response result v,
              x_payment req = Some header /\ header <> []
              /\ backend header requirement = Responds response
              /\ ok response = true
              /\ json response = Fulfilled result
              /\ get eng result (js "isValid") = Fulfilled v
              /\ truthy v = true
              /\ shadowpay
                 = {| verified := true;
                      attachedAmount := amount requirement;
                      attachedToken := or_default (token requirement) (js "SOL") |}))
  /\ (forall status body,
        requirePayment Num_toString eng apiKey backend requirement req
          = Replied status body ->
        status = 402
        /\ ((x_payment req = None \/ x_payment req = Some [])
            /\ body = PaymentRequired (Num_toString (amount requirement)) (path req)
                        (or_default (description requirement) (js "Payment required"))
                        apiKey
            \/ (exists c header, x_payment req = Some (c :: header))
               /\ body = InvalidPayment)).
Proof.
  unfold requirePayment, createPaymentMiddleware. split.
  - intros shadowpay. split.
    + destruct (x_payment req) as [[|c header]|]; try discriminate.
      destruct (verifyPayment eng (backend (c :: header) requirement)) as [v|e] eqn:Hv;
        [|discriminate].
      destruct (truthy v) eqn:Ht; cbn [negb]; [|discriminate].
      intros [= <-].
      destruct (verifyPayment_truthy eng _ v Hv Ht) as (response & result & Hb & Hok & Hj & Hg).
      exists (c :: header), response, result, v. repeat split; try assumption.
      discriminate.
    + intros (header & response & result & v & Hh & Hne & Hb & Hok & Hj & Hg & Ht & ->).
      rewrite Hh. destruct header as [|c header]; [contradiction|].
      rewrite Hb, (verifyPayment_of_valid eng response result v Hok Hj Hg), Ht.
      reflexivity.
  - intros status body.
    destruct (x_payment req) as [[|c header]|].
    + intros [= <- <-]. split; [reflexivity|]. left. auto.
    + destruct (verifyPayment_fulfilled eng (backend (c :: header) requirement))
        as (v & ->).
      destruct (truthy v); cbn [negb]; [discriminate|].
      intros [= <- <-]. split; [reflexivity|]. right. eauto.
    + intros [= <- <-]. split; [reflexivity|]. left. auto.
Qed.

End Middleware.

(** ** Signatures *)

Lemma bytes_eqb_eq a b : bytes_eqb a b = true <-> a = b.
Proof.
  revert b. induction a as [|x a IH]; destruct b as [|y b]; cbn [bytes_eqb];
    try (split; [discriminate | intros [=]]); [tauto|].
  rewrite andb_true_iff, IH. split.
  - intros [Hxy ->]. apply Byte.byte_dec_bl in Hxy. now subst.
  - intros [= -> ->]. split; [apply Byte.byte_dec_lb|]; reflexivity.
Qed.

Lemma u8_value n : Byte.to_N (u8 n) = (n mod 256)%N.
Proof.
  unfold u8. destruct (Byte.of_N (n mod 256)) as [b|] eqn:E.
  - now apply Byte.to_of_N.
  - apply Byte.of_N_None_iff in E.
    pose proof (N.mod_upper_bound n 256 ltac:(discriminate)). lia.
Qed.

(** A byte with its top bit set is no ASCII byte. *)
Lemma top_bit_byte n d :
  N.testbit n 7 = true -> (d < 128)%N -> u8 n <> u8 d.
Proof.
  intros Hn Hd E. apply (f_equal Byte.to_N) in E. rewrite !u8_value in E.
  rewrite (N.mod_small d 256) in E by lia.
  assert (Hbit : N.testbit (n mod 2 ^ 8) 7 = true)
    by (rewrite N.mod_pow2_bits_low by lia; exact Hn).
  change (2 ^ 8)%N with 256%N in Hbit. rewrite E in Hbit.
  rewrite <- (N.mod_small d (2 ^ 7)) in Hbit by (change (2 ^ 7)%N with 128%N; lia).
  rewrite N.mod_pow2_bits_high in Hbit by lia. discriminate.
Qed.

Lemma top_bit_lor k x : N.testbit k 7 = true -> N.testbit (N.lor k x) 7 = true.
Proof. intros H. now rewrite N.lor_spec, H. Qed.

(** The first byte of the encoding of a code point above 127. *)
Lemma utf8_point_first cp d :
  (128 <= cp)%N -> (d < 128)%N ->
  exists b bs, utf8_point cp = b :: bs /\ b <> u8 d.
Proof.
  intros Hcp Hd. unfold utf8_point.
  destruct (N.ltb_spec cp 128); [lia|].
  destruct (N.ltb_spec cp 2048); [|destruct (N.ltb_spec cp 65536)];
    eexists; eexists; (split; [reflexivity|]);
    apply top_bit_byte; try assumption; apply top_bit_lor; reflexivity.
Qed.

Lemma encode_ascii_unit d s :
  (d < 128)%N -> TextEncoder_encode (d :: s) = u8 d :: TextEncoder_encode s.
Proof.
  intros Hd. cbn [TextEncoder_encode]. unfold is_high_surrogate, is_low_surrogate.
  destruct (N.leb_spec 55296 d); [lia|]. destruct (N.leb_spec 56320 d); [lia|].
  cbn [andb]. unfold utf8_point. destruct (N.ltb_spec d 128); [reflexivity | lia].
Qed.

(** The first byte of the encoding of a text that starts above 127. *)
Lemma encode_first c s d :
  (128 <= c)%N -> (d < 128)%N ->
  exists b bs, TextEncoder_encode (c :: s) = b :: bs /\ b <> u8 d.
Proof.
  intros Hc Hd.
  assert (Hrep : exists b bs, utf8_point 65533 = b :: bs /\ b <> u8 d)
    by (apply utf8_point_first; [lia | assumption]).
  cbn [TextEncoder_encode].
  destruct (is_high_surrogate c) eqn:Hh.
  - destruct s as [|c' s'].
    + exact Hrep.
    + destruct (is_low_surrogate c').
      * destruct (utf8_point_first (65536 + (c - 55296) * 1024 + (c' - 56320)) d
                    ltac:(lia) Hd) as (b & bs & -> & Hb).
        cbn [app]. eauto.
      * destruct Hrep as (b & bs & -> & Hb). cbn [app]. eauto.
  - destruct (is_low_surrogate c).
    + destruct Hrep as (b & bs & -> & Hb). cbn [app]. eauto.
    + destruct (utf8_point_first c d Hc Hd) as (b & bs & -> & Hb). cbn [app]. eauto.
Qed.

Lemma u8_ascii_inj c d : (c < 128)%N -> (d < 128)%N -> u8 c = u8 d -> c = d.
Proof.
  intros Hc Hd E. apply (f_equal Byte.to_N) in E. rewrite !u8_value in E.
  now rewrite !N.mod_small in E by lia.
Qed.

(** A text with the same UTF-8 bytes as an ASCII text is that text. *)
Lemma encode_ascii_inj t s :
  Forall (fun d => (d < 128)%N) t ->
  TextEncoder_encode s = TextEncoder_encode t -> s = t.
Proof.
  intros Ht. revert s. induction Ht as [|d t Hd _ IH]; intros s E.
  - destruct s as [|c s]; [reflexivity|]. exfalso.
    destruct (N.ltb_spec c 128) as [Hc|Hc].
    + rewrite encode_ascii_unit in E by assumption. discriminate.
    + destruct (encode_first c s 0 Hc ltac:(lia)) as (b & bs & Eb & _).
      rewrite Eb in E. discriminate.
  - rewrite encode_ascii_unit in E by assumption.
    destruct s as [|c s]; [discriminate|].
    destruct (N.ltb_spec c 128) as [Hc|Hc].
    + rewrite encode_ascii_unit in E by assumption. injection E as Ecd Erest.
      f_equal; [now apply u8_ascii_inj | now apply IH].
    + destruct (encode_first c s d Hc Hd) as (b & bs & Eb & Hb).
      rewrite Eb in E. injection E as Ebd _. contradiction.
Qed.

Lemma hex_digits_ascii s : Forall (digit_unit 16) s -> Forall (fun d => (d < 128)%N) s.
Proof.
  intros H. eapply Forall_impl; [|exact H].
  intros c Hc. apply BigIntFacts.hex_unit_range in Hc. lia.
Qed.

Section Webhooks.
Variable hmac_sha256 : list byte -> list byte -> list byte.

(** X20. [verifyWebhookSignature] never throws and answers true exactly
    when the signature is, character for character, the lower-case
    hexadecimal text of the HMAC of the body string: comparing the UTF-8
    buffers is as strict as comparing the strings.  A body that
    [JSON.stringify] cannot turn into a text is never accepted. *)
Theorem webhook_signature_is_exact (body : raw_body) (signature secret : jsstring) :
  (forall s,
      verifyWebhookSignature hmac_sha256 (BodyText s) signature secret = true
      <-> signature = expected_signature hmac_sha256 s secret)
  /\ (forall s,
        verifyWebhookSignature hmac_sha256 (BodyValue (Some s)) signature secret
        = verifyWebhookSignature hmac_sha256 (BodyText s) signature secret)
  /\ verifyWebhookSignature hmac_sha256 (BodyValue None) signature secret = false
  /\ (forall s,
        has_hex_letter (expected_signature hmac_sha256 s secret) = true ->
        verifyWebhookSignature hmac_sha256 (BodyText s)
          (toUpperCaseAscii (expected_signature hmac_sha256 s secret)) secret = false).
Proof.
  assert (Hexact : forall s sig,
    verifyWebhookSignature hmac_sha256 (BodyText s) sig secret = true
    <-> sig = expected_signature hmac_sha256 s secret).
  { intros s sig. unfold verifyWebhookSignature. rewrite bytes_eqb_eq. split.
    - apply encode_ascii_inj, hex_digits_ascii, bytesToHex_digits.
    - now intros ->. }
  split; [intros s; apply Hexact|]. repeat split.
  intros s Hl.
  destruct (verifyWebhookSignature hmac_sha256 (BodyText s)
              (toUpperCaseAscii (expected_signature hmac_sha256 s secret)) secret)
    eqn:E; [|reflexivity].
  apply Hexact in E. exfalso. revert E.
  apply CommitmentFacts.upper_differs; [|exact Hl].
  eapply Forall_impl; [|apply bytesToHex_digits]. intros c Hc. now left.
Qed.

(** X21. With a non-empty webhook secret the handler gives the event to
    the callback only when the request carries a non-empty
    X-SHADOWPAY-SIGNATURE header equal to the expected signature of the
    body, and otherwise replies 401 without calling it.  Without a secret
    (absent or empty) nothing is checked: the callback gets every body.
    The reply is 200 when the callback returns and 500 when it throws. *)
Theorem webhook_callback_is_guarded
    (webhookSecret : option jsstring) (callback : raw_body -> settled unit)
    (req : Request) (body : raw_body) (c : N) (secret : jsstring) :
  (delivered (createWebhookHandler hmac_sha256 (Some (c :: secret)) callback req body)
     = Some body
   <-> exists signature,
         x_shadowpay_signature req = Some signature /\ signature <> []
         /\ verifyWebhookSignature hmac_sha256 body signature (c :: secret) = true)
  /\ (delivered (createWebhookHandler hmac_sha256 (Some (c :: secret)) callback req body)
        = None
      -> exists why,
           reply (createWebhookHandler hmac_sha256 (Some (c :: secret)) callback req body)
           = Replied 401 why)
  /\ delivered (createWebhookHandler hmac_sha256 None callback req body) = Some body
  /\ delivered (createWebhookHandler hmac_sha256 (Some []) callback req body) = Some body
  /\ (forall event,
        delivered (createWebhookHandler hmac_sha256 webhookSecret callback req body)
          = Some event ->
        event = body
        /\ reply (createWebhookHandler hmac_sha256 webhookSecret callback req body)
           = match callback body with
             | Fulfilled _ => Replied 200 Received
             | Rejected e => Replied 500 (ProcessingFailed (message_or_unknown e))
             end).
Proof.
  assert (Hdeliver : forall (r : webhook_outcome),
    r = match callback body with
        | Fulfilled _ => {| delivered := Some body; reply := Replied 200 Received |}
        | Rejected e =>
            {| delivered := Some body;
               reply := Replied 500 (ProcessingFailed (message_or_unknown e)) |}
        end ->
    delivered r = Some body
    /\ reply r = match callback body with
                 | Fulfilled _ => Replied 200 Received
                 | Rejected e => Replied 500 (ProcessingFailed (message_or_unknown e))
                 end).
  { intros r ->. destruct (callback body); split; reflexivity. }
  unfold createWebhookHandler.
  split; [split|split; [|split; [|split]]].
  - destruct (x_shadowpay_signature req) as [[|s0 signature]|]; try discriminate.
    destruct (verifyWebhookSignature hmac_sha256 body (s0 :: signature) (c :: secret))
      eqn:Hv; cbn [negb]; [|discriminate].
    intros _. exists (s0 :: signature). repeat split; [discriminate | exact Hv].
  - intros (signature & Hs & Hne & Hv). rewrite Hs.
    destruct signature as [|s0 signature]; [contradiction|].
    rewrite Hv. cbn [negb]. now apply Hdeliver.
  - destruct (x_shadowpay_signature req) as [[|s0 signature]|].
    + intros _. exists MissingSignature. reflexivity.
    + destruct (verifyWebhookSignature hmac_sha256 body (s0 :: signature) (c :: secret));
        cbn [negb].
      * intros H. rewrite (proj1 (Hdeliver _ eq_refl)) in H. discriminate.
      * intros _. exists InvalidSignature. reflexivity.
    + intros _. exists MissingSignature. reflexivity.
  - now apply Hdeliver.
  - now apply Hdeliver.
  - intros event H.
    destruct webhookSecret as [[|c0 sec]|].
    + rewrite (proj1 (Hdeliver _ eq_refl)) in H. injection H as <-.
      split; [reflexivity | now apply Hdeliver].
    + destruct (x_shadowpay_signature req) as [[|s0 signature]|]; try discriminate.
      destruct (verifyWebhookSignature hmac_sha256 body (s0 :: signature) (c0 :: sec));
        cbn [negb] in *; [|discriminate].
      rewrite (proj1 (Hdeliver _ eq_refl)) in H. injection H as <-.
      split; [reflexivity | now apply Hdeliver].
    + rewrite (proj1 (Hdeliver _ eq_refl)) in H. injection H as <-.
      split; [reflexivity | now apply Hdeliver].
Qed.

End Webhooks.

End ServerFacts.

(* ===================================================================== *)
(** * One line of requests, one result object *)
(* ===================================================================== *)

Module ClientMore.
Import Client ClientInvariant ClientOrder ClientFacts.

Lemma stages_app q q' : stages (q ++ q') = stages q ++ stages q'.
Proof.
  induction q as [|j q IH]; [reflexivity|]. cbn [app stages].
  destruct (stage_job j); cbn [app]; now rewrite IH.
Qed.

Lemma requested_app t t' : requested (t ++ t') = requested t ++ requested t'.
Proof.
  induction t as [|x t IH]; [reflexivity|]. cbn [app requested].
  destruct x; cbn [app]; now rewrite ?IH.
Qed.

Lemma live_one {A : Type} (xs ys : list A) k :
  xs ++ ys = [k] -> (xs = [k] /\ ys = []) \/ (xs = [] /\ ys = [k]).
Proof.
  destruct xs as [|x [|x' xs]]; cbn [app]; intros E.
  - right. auto.
  - injection E as -> ->. left. auto.
  - discriminate.
Qed.

Lemma in_order_initial : in_order initial.
Proof. exists 0%nat. split; [reflexivity|]. right. reflexivity. Qed.

(** A job that can send no request sends none and readies no job that
    can. *)
Lemma exec_terminal j eff :
  exec j eff -> stage_job j = None ->
  stages (spawned eff) = [] /\ asked eff = [] /\ requested (seen eff) = [].
Proof. intros H Hj. destruct H; cbn in *; try discriminate; auto. Qed.

(** A job at stage [k] sends the request number [k + 1], or stops. *)
Lemma exec_stage j eff k :
  exec j eff -> stage_job j = Some k ->
  stages (spawned eff) = []
  /\ ((asked eff = [] /\ requested (seen eff) = [])
      \/ (exists r, asked eff = [r] /\ requested (seen eff) = [r]
                    /\ stage_request r = S k /\ nth_error order k = Some r)).
Proof.
  intros H Hj. destruct H; cbn in Hj; try discriminate; injection Hj as <-;
    cbn; split; auto; right; eexists; repeat split.
Qed.

Lemma answers_stage r j :
  answers r j -> stage_job j = None \/ stage_job j = Some (stage_request r).
Proof. intros H. destruct H; cbn; auto. Qed.

Lemma firstn_succ_order k r :
  nth_error order k = Some r -> firstn (S k) order = firstn k order ++ [r].
Proof.
  unfold order. do 5 (destruct k as [|k]; [intros [= <-]; reflexivity|]).
  destruct k; discriminate.
Qed.

Lemma in_order_step c c' : in_order c -> step c c' -> in_order c'.
Proof.
  intros (k & Hsent & Hlive) Hstep.
  destruct Hstep as [j q eff c Hq Hexec | r j before after c Hp Hans];
    unfold in_order, live in *; cbn [queue pending trace].
  - rewrite Hq in Hlive. cbn [stages] in Hlive.
    rewrite stages_app, map_app, requested_app, Hsent.
    destruct (stage_job j) as [s|] eqn:Hj.
    + assert (Hs : s = k /\ stages q = [] /\ map stage_request (pending c) = []).
      { destruct Hlive as [Hl|Hl]; [discriminate|].
        cbn [app] in Hl. injection Hl as -> Hl.
        apply app_eq_nil in Hl. tauto. }
      destruct Hs as (-> & Hq0 & Hp0).
      destruct (exec_stage _ _ _ Hexec Hj) as (Hsp & [(Ha & Hr) | (r & Ha & Hr & Hst & Hn)]).
      * exists k. rewrite Hq0, Hsp, Hp0, Ha, Hr. cbn. auto.
      * exists (S k). rewrite Hq0, Hsp, Hp0, Ha, Hr, (firstn_succ_order _ _ Hn).
        cbn [map app]. rewrite rev_app_distr, Hst. cbn. auto.
    + destruct (exec_terminal _ _ Hexec Hj) as (Hsp & Ha & Hr).
      exists k. rewrite Hsp, Ha, Hr. cbn [map app]. rewrite !app_nil_r. auto.
  - rewrite Hp in Hlive. rewrite map_app in Hlive. cbn [map] in Hlive.
    assert (Hk : stage_request r = k /\ stages (queue c) = []
                 /\ map stage_request before = [] /\ map stage_request after = []).
    { destruct Hlive as [Hl|Hl].
      - apply app_eq_nil in Hl as [_ Hl]. apply app_eq_nil in Hl as [_ Hl]. discriminate.
      - destruct (live_one _ _ _ Hl) as [[_ Hl']|[Hq0 Hl']].
        + apply app_eq_nil in Hl' as [_ Hl']. discriminate.
        + destruct (live_one _ _ _ Hl') as [[_ Hl'']|[Hb Hl'']]; [discriminate|].
          injection Hl'' as -> Ha. auto. }
    destruct Hk as (<- & Hq0 & Hb & Ha).
    exists (stage_request r). split; [exact Hsent|].
    rewrite stages_app, map_app, Hq0, Hb, Ha. cbn [stages app].
    destruct (answers_stage _ _ Hans) as [-> | ->]; auto.
Qed.

Lemma reachable_in_order c : reachable c -> in_order c.
Proof.
  induction 1 as [|c c' _ IH Hstep]; [apply in_order_initial|].
  now apply (in_order_step c).
Qed.

Lemma firstn_order_NoDup k : NoDup (rev (firstn k order)).
Proof.
  assert (H : NoDup order)
    by (unfold order; repeat constructor; cbn; intuition discriminate).
  apply NoDup_rev.
  rewrite <- (firstn_skipn k order) in H. now apply NoDup_app_remove_r in H.
Qed.

(** X22. One call of pay() sends each of its five requests at most once,
    and in the order registration, authorization, Merkle proof, proof,
    settlement: at every moment the requests sent so far are the first
    [k] of that list.  Nothing is retried and no settlement is sent
    twice. *)
Theorem requests_in_order_at_most_once (c : config) :
  reachable c ->
  (exists k, rev (requested (trace c)) = firstn k order)
  /\ NoDup (requested (trace c)).
Proof.
  intros H. destruct (reachable_in_order c H) as (k & Hsent & _). split.
  - exists k. now rewrite Hsent, rev_involutive.
  - rewrite Hsent. apply firstn_order_NoDup.
Qed.

(** The complete payment: all five requests, once each. *)
Lemma requests_in_order_at_most_once_sample :
  (exists k, rev (requested (trace Samples.settledRun)) = firstn k order)
  /\ NoDup (requested (trace Samples.settledRun)).
Proof.
  exact (requests_in_order_at_most_once Samples.settledRun
           ClientClaims.settledRun_reachable).
Defined.

(** ** The result object *)





End ClientMore.

(* ===================================================================== *)
(** * Addresses, and the values of a payment *)
(* ===================================================================== *)

Module PayloadFacts.
Import JsFacts BytesFacts BigIntFacts RuntimeFacts UtilsFacts CodecFacts SecretFacts CoreMore.
Import ClientPayload.

Lemma encode_ascii_app p t :
  Forall (fun c => (c < 128)%N) p ->
  TextEncoder_encode (p ++ t) = map u8 p ++ TextEncoder_encode t.
Proof.
  induction 1 as [|c p Hc _ IH]; [reflexivity|].
  cbn [app map]. rewrite ServerFacts.encode_ascii_unit by assumption. now rewrite IH.
Qed.

(** X24. [addressToFieldElement] reads the first 31 bytes of the UTF-8
    text and nothing else.  Two addresses that share their first 31 ASCII
    characters - Solana addresses have 32 to 44 - are given the same
    field element, the big-endian integer of those 31 characters. *)
Theorem address_tail_is_ignored (prefix tail tail' : jsstring) :
  Forall (fun c => (c < 128)%N) prefix -> (31 <= List.length prefix)%nat ->
  addressToFieldElement (prefix ++ tail) = addressToFieldElement (prefix ++ tail')
  /\ addressToFieldElement (prefix ++ tail)
     = toString 10 (be_bytes (map u8 (firstn 31 prefix))).
Proof.
  intros Hascii Hlen.
  assert (H : forall t, addressFieldValue (prefix ++ t)
                        = be_bytes (map u8 (firstn 31 prefix))).
  { intros t. rewrite addressFieldValue_window, encode_ascii_app by assumption.
    rewrite firstn_app, length_map.
    replace (31 - List.length prefix)%nat with 0%nat by lia.
    now rewrite firstn_O, app_nil_r, firstn_map. }
  unfold addressToFieldElement. now rewrite !H.
Qed.

(** The merchant wallet of the documentation and an address that differs
    from it in the last three characters. *)
Lemma address_tail_is_ignored_sample :
  addressToFieldElement (js "BdDcNpsjGKdabkX1xo6XhYhUsJtADYnUT5hPmW5AoLFi")
  = addressToFieldElement (js "BdDcNpsjGKdabkX1xo6XhYhUsJtADYnUT5hPmW5Aabc").
Proof.
  refine (proj1 (address_tail_is_ignored
            (js "BdDcNpsjGKdabkX1xo6XhYhUsJtADYnUT5hPmW5A") (js "oLFi") (js "abc") _ _)).
  - repeat constructor.
  - cbn. lia.
Defined.

(** ** The values pay() derives *)

(** [toBigInt] on the decimal text of any bigint. *)
Lemma toBigInt_decimal_any v : toBigInt (toString 10 v) = Ret v.
Proof.
  destruct (Z_lt_le_dec v 0) as [Hneg|Hpos]; [|now apply toBigInt_decimal].
  pose proof (BigInt_decimal v) as HB.
  unfold toString in *. destruct (Z.ltb_spec v 0); [|lia].
  unfold toBigInt.
  assert (Hl : has_hex_letter (45%N :: render 10 (- v)) = false).
  { cbn [has_hex_letter existsb]. fold (has_hex_letter (render 10 (- v))).
    rewrite decimal_no_hex_letter by (apply render_digits; lia). reflexivity. }
  rewrite Hl. exact HB.
Qed.

(** X25. The values pay() derives before it asks for the authorization:
    it draws 32 bytes for the secret and the next 32 for the salt, takes
    the field element of the merchant wallet as receiver commitment,
    hashes [sender, receiver, lamports, token, salt] into the payment
    commitment and [secret, payment commitment] into the nullifier, both
    printed in decimal.  The secret and the salt enter the hash as the
    256-bit integers of their bytes, not reduced modulo the field. *)
Theorem pay_derives_commitment_and_nullifier
    (w : World) (m : Machine) (merchantWallet senderCommitmentHex token : jsstring)
    (lamports sc : Z) :
  toBigInt senderCommitmentHex = Ret sc ->
  run w (cryptoValues merchantWallet senderCommitmentHex (Integral lamports) token) m
  = (let secretBytes := draw w (drawn m) 32 in
     let saltBytes := draw w (drawn m + 32) 32 in
     let commitment :=
       poseidon w [sc; addressFieldValue merchantWallet; lamports;
                   addressFieldValue token; be_bytes saltBytes] in
     (Returned
        {| senderSecret := js "0x" ++ bytesToHex secretBytes;
           salt := js "0x" ++ bytesToHex saltBytes;
           receiverCommitment := addressToFieldElement merchantWallet;
           paymentCommitment := toString 10 commitment;
           paymentNullifier :=
             toString 10 (poseidon w [be_bytes secretBytes; commitment]) |},
      {| drawn := drawn m + 32 + 32;
         console := console m;
         hashed := [be_bytes secretBytes; commitment]
                   :: [sc; addressFieldValue merchantWallet; lamports;
                       addressFieldValue token; be_bytes saltBytes]
                   :: hashed m;
         proved := proved m |})).
Proof.
  intros Hsc. cbv zeta. unfold cryptoValues.
  destruct (run_generateRandomSecret w m) as (Hs & _ & _ & Hsv & _).
  destruct (run_generateRandomSecret w
              {| drawn := drawn m + 32; console := console m;
                 hashed := hashed m; proved := proved m |})
    as (Hsalt & Hsame & _ & Hsaltv & _).
  cbn [drawn console hashed proved] in Hsalt, Hsame, Hsaltv.
  rewrite run_bind, Hs, run_bind, Hsame, Hsalt.
  cbn [BigInt_of_number bind].
  rewrite run_bind.
  unfold computePaymentCommitment at 1.
  rewrite Hsc, bind_Ret, toBigInt_address, bind_Ret, toBigInt_address, bind_Ret.
  rewrite Hsaltv, bind_Ret.
  unfold hashPoseidon at 1.
  cbn [List.length Nat.leb andb run trigger bind].
  unfold computePaymentNullifier.
  rewrite run_bind, Hsv, bind_Ret, toBigInt_decimal_any, bind_Ret.
  reflexivity.
Qed.

(** A payment of one million lamports in SOL to the merchant wallet of
    the documentation. *)
Lemma pay_derives_commitment_and_nullifier_sample :
  exists values m,
    run Samples.sampleWorld
        (cryptoValues Samples.merchantWallet (js "0x2a") (Integral 1000000) (js "SOL")) boot
    = (Returned values, m)
    /\ drawn m = 64%nat /\ List.length (hashed m) = 2%nat.
Proof.
  eexists. eexists.
  rewrite (pay_derives_commitment_and_nullifier Samples.sampleWorld boot
             Samples.merchantWallet (js "0x2a") (js "SOL") 1000000 42 eq_refl).
  cbv zeta. split; [reflexivity|]. split; reflexivity.
Defined.

End PayloadFacts.

(* ===================================================================== *)
(** * The payment history *)
(* ===================================================================== *)

Module StorageFacts.
Import Http ClientStorage.

Lemma push_capped_short items payment :
  (List.length items < 100)%nat -> push_capped items payment = items ++ [payment].
Proof.
  intros H. unfold push_capped. rewrite length_app. cbn [List.length].
  destruct (Nat.ltb_spec 100 (List.length items + 1)); [lia | reflexivity].
Qed.

Lemma push_capped_full items payment :
  (100 <= List.length items)%nat -> push_capped items payment = tl (items ++ [payment]).
Proof.
  intros H. unfold push_capped. rewrite length_app. cbn [List.length].
  destruct (Nat.ltb_spec 100 (List.length items + 1)); [reflexivity | lia].
Qed.

Lemma tl_skipn {A : Type} k (l : list A) : tl (skipn k l) = skipn (S k) l.
Proof.
  revert l. induction k as [|k IH]; intros l.
  - destruct l; reflexivity.
  - destruct l as [|x l]; [reflexivity|]. cbn [skipn]. apply IH.
Qed.

(** The latest 100 of the payments saved so far. *)
Lemma save_all_latest payments :
  save_all payments (Some NoItem)
  = match payments with
    | [] => Some NoItem
    | _ :: _ =>
        Some (Parsed (VArray
          (map entry (skipn (List.length payments - 100) payments))))
    end.
Proof.
  induction payments as [|p payments IH] using rev_ind; [reflexivity|].
  unfold save_all in *. rewrite fold_left_app. cbn [fold_left]. rewrite IH.
  assert (Hgoal :
    fst (savePaymentHistory p
           (Some (Parsed (VArray
              (map entry (skipn (List.length payments - 100) payments))))))
    = Some (Parsed (VArray
        (map entry (skipn (List.length (payments ++ [p]) - 100) (payments ++ [p])))))).
  { cbn [savePaymentHistory read_history fst]. do 3 f_equal.
    rewrite length_app. cbn [List.length].
    destruct (Nat.le_gt_cases 100 (List.length payments)) as [Hfull|Hshort].
    - rewrite push_capped_full
        by (rewrite length_map, length_skipn; lia).
      replace (List.length payments + 1 - 100)%nat
        with (S (List.length payments - 100)) by lia.
      rewrite <- tl_skipn, skipn_app.
      replace (List.length payments - 100 - List.length payments)%nat with 0%nat by lia.
      cbn [skipn]. change [entry p] with (map entry [p]). rewrite <- map_app.
      now destruct (skipn (List.length payments - 100) payments ++ [p]).
    - rewrite push_capped_short
        by (rewrite length_map, length_skipn; lia).
      replace (List.length payments - 100)%nat with 0%nat by lia.
      replace (List.length payments + 1 - 100)%nat with 0%nat by lia.
      cbn [skipn]. now rewrite map_app. }
  destruct payments as [|q payments]; [reflexivity | exact Hgoal].
Qed.

(** X26. The payment history keeps the latest 100 payments, oldest
    first: after any number of calls of [savePaymentHistory] on a browser
    storage that had no history, [getPaymentHistory] returns the last 100
    of the payments saved (all of them when there are fewer), in the
    order they were saved, each as [JSON.stringify] wrote it: a timestamp
    or an amount that is NaN or infinite comes back as null, and an
    undefined signature is missing.  Without [localStorage] nothing is
    saved and the history is empty. *)
Theorem history_keeps_latest_hundred (payments : list PaymentHistory) :
  getPaymentHistory (save_all payments (Some NoItem))
    = VArray (map entry (skipn (List.length payments - 100) payments))
  /\ getPaymentHistory (save_all payments (Some EmptyText))
     = VArray (map entry (skipn (List.length payments - 100) payments))
  /\ save_all payments None = None
  /\ getPaymentHistory (save_all payments None) = VArray []
  /\ (forall payment, exists fields,
        entry payment = VObject fields
        /\ lookup (js "timestamp") fields
           = match timestamp payment with
             | Whole z => VNumber (Integral z)
             | Fractional => VNumber NotIntegral
             | NaN_or_Infinity => VNull
             end
        /\ lookup (js "amount") fields
           = match amount payment with
             | Whole z => VNumber (Integral z)
             | Fractional => VNumber NotIntegral
             | NaN_or_Infinity => VNull
             end
        /\ lookup (js "signature") fields
           = match signature payment with
             | Some s => VString s
             | None => VUndefined
             end).
Proof.
  assert (Hnone : save_all payments None = None).
  { unfold save_all. induction payments as [|p payments IH]; [reflexivity | exact IH]. }
  assert (Hempty : save_all payments (Some EmptyText)
                   = match payments with
                     | [] => Some EmptyText
                     | _ :: _ => save_all payments (Some NoItem)
                     end).
  { destruct payments; reflexivity. }
  rewrite Hempty, Hnone, save_all_latest.
  split; [now destruct payments|]. split; [now destruct payments|].
  split; [reflexivity|]. split; [reflexivity|].
  intros payment. unfold entry. eexists. split; [reflexivity|].
  destruct (signature payment); repeat split.
Qed.

(** X27. A history entry that is not an array is never repaired: when
    the stored text cannot be parsed, or parses to something that is no
    array, every [savePaymentHistory] prints its warning and leaves the
    storage as it was, so no payment is recorded from then on.
    [getPaymentHistory] then returns the empty list for an unparsable
    text, and the stored value itself otherwise. *)
Theorem corrupt_history_is_never_repaired
    (stored : item) (payment : PaymentHistory) (payments : list PaymentHistory) :
  (forall items, read_history stored <> Some (VArray items)) ->
  savePaymentHistory payment (Some stored) = (Some stored, true)
  /\ save_all payments (Some stored) = Some stored
  /\ getPaymentHistory (save_all payments (Some stored))
     = match stored with
       | Parsed v => v
       | _ => VArray []
       end.
Proof.
  intros Hbad.
  assert (Hone : forall p, savePaymentHistory p (Some stored) = (Some stored, true)).
  { intros p. unfold savePaymentHistory.
    destruct (read_history stored) as [[| | | | |items|]|] eqn:E; try reflexivity.
    exfalso. now apply (Hbad items). }
  assert (Hall : save_all payments (Some stored) = Some stored).
  { unfold save_all. induction payments as [|p payments IH]; [reflexivity|].
    cbn [fold_left]. now rewrite Hone. }
  split; [apply Hone|]. split; [exact Hall|].
  rewrite Hall. destruct stored as [| | |v]; reflexivity.
Qed.

(** A history that was overwritten with a JSON object. *)
Lemma corrupt_history_is_never_repaired_sample :
  save_all
    [ {| timestamp := Whole 1762534770; amount := Fractional; token := js "SOL";
         recipient := js "2hTKeADLwNZPeU5MeFcNKV4ttfWtpBUSEMiRVf4jRyjC";
         signature := Some (js "5X7vQ"); nullifier := js "nullifier_01K9" |} ]
    (Some (Parsed (VObject [])))
  = Some (Parsed (VObject [])).
Proof.
  refine (proj1 (proj2 (corrupt_history_is_never_repaired (Parsed (VObject []))
    {| timestamp := Whole 0; amount := Fractional; token := []; recipient := [];
       signature := None; nullifier := [] |} _ _))).
  intros items. discriminate.
Defined.

(** ** The stored keys *)

Section Keys.
Context {curve : Curve.G1}.

Lemma stored_keys_round_trip (keys : ElGamal.ElGamalKeypair) (now : number) :
  stored_keys (storedKeys keys now) = Some (keys_of keys).
Proof. reflexivity. Qed.




End Keys.

End StorageFacts.

(* ===================================================================== *)
(** * The proof of a settlement and the stored keys *)
(* ===================================================================== *)

Module SettlementFacts.
Import JsFacts BytesFacts BigIntFacts RuntimeFacts CodecFacts ProofFacts.
Import Http ProofGenerator Assembly ClientPayload ClientStorage.

Lemma zero_randomness : hexToBigInt (js "0x" ++ zeros64) = Ret 0.
Proof. vm_compute. reflexivity. Qed.

(** X29. The proof of a SOL payment.  When the texts of the request
    are read by [hexToBigInt] and the amount is not negative, the prover
    is called once, with: the amount and twice the amount as max_amount,
    both reduced modulo the field modulus; the token "0"; the first
    coordinates of the two ciphertext points and of the payer's own public
    key; the root, siblings and indices of the Merkle proof; and the
    randomness "0", whatever randomness the ciphertext was made with. *)
Theorem settlement_proof_inputs (w : World) (params : ProofParams)
    (userPublicKey : ElGamal.HexPoint) (encrypted : ElGamal.EncryptedAmount)
    (merkleRoot : jsstring) (merkleSiblings : list jsstring)
    (merklePathIndices : list number) (sc ss rc sa c1 c2 sr rk : Z) :
  params_token params = js "SOL" ->
  hexToBigInt (params_senderCommitment params) = Ret sc ->
  hexToBigInt (params_senderSecret params) = Ret ss ->
  hexToBigInt (params_receiverCommitment params) = Ret rc ->
  hexToBigInt (params_salt params) = Ret sa ->
  hexToBigInt (ElGamal.x (ElGamal.c1 encrypted)) = Ret c1 ->
  hexToBigInt (ElGamal.x (ElGamal.c2 encrypted)) = Ret c2 ->
  hexToBigInt merkleRoot = Ret sr ->
  hexToBigInt (ElGamal.x userPublicKey) = Ret rk ->
  0 <= params_lamports params ->
  proved (snd (run w (generateProof
                        (proofInputs params userPublicKey encrypted
                           merkleRoot merkleSiblings merklePathIndices)) boot))
  = [ {| sender_commitment := field_text sc;
         sender_secret := field_text ss;
         receiver_commitment := field_text rc;
         Runtime.amount := field_text (params_lamports params);
         token_mint := js "0";
         Runtime.salt := field_text sa;
         merkle_path := merkleSiblings;
         path_indices := merklePathIndices;
         encrypted_amount_c1 := field_text c1;
         encrypted_amount_c2 := field_text c2;
         elgamal_randomness := js "0";
         shadowid_root := field_text sr;
         max_amount := field_text (2 * params_lamports params);
         receiver_elgamal_pubkey := field_text rk |} ].
Proof.
  intros Htok Hsc Hss Hrc Hsa Hc1 Hc2 Hsr Hrk Hamount.
  set (inputs := proofInputs params userPublicKey encrypted
                   merkleRoot merkleSiblings merklePathIndices).
  assert (Hpass : passes (js "token_mint", js "0")).
  { exists 0. split; [vm_compute; reflexivity | reflexivity]. }
  destruct (run_generateProof_pass w inputs (js "0") sc ss rc sa c1 c2 0 sr rk)
    as [_ Hproved]; try assumption.
  - unfold inputs, proofInputs. cbn [tokenMint]. rewrite Htok. reflexivity.
  - exact zero_randomness.
  - unfold inputs, proofInputs. cbn [maxAmount]. lia.
  - rewrite Hproved. unfold assembled, inputs, proofInputs.
    cbn [amount maxAmount merklePath pathIndices].
    rewrite (Z.mul_comm (params_lamports params) 2).
    reflexivity.
Qed.

(** A payment of 10,000 lamports: the prover gets the amount "10000",
    the maximum "20000" and the randomness "0". *)
Lemma settlement_proof_inputs_sample :
  exists ci,
    proved (snd (run Samples.sampleWorld
                   (generateProof
                      (proofInputs MoreSamples.sampleParams
                         (ElGamal.publicKey CurveModel.sampleKeys)
                         MoreSamples.sampleEncrypted
                         (js "99") [js "11"; js "12"] [Integral 0; Integral 1]))
                   boot)) = [ci]
    /\ Runtime.amount ci = js "10000"
    /\ max_amount ci = js "20000"
    /\ elgamal_randomness ci = js "0"
    /\ token_mint ci = js "0".
Proof.
  eexists. split.
  - eapply (settlement_proof_inputs Samples.sampleWorld MoreSamples.sampleParams
              (ElGamal.publicKey CurveModel.sampleKeys) MoreSamples.sampleEncrypted
              (js "99") [js "11"; js "12"] [Integral 0; Integral 1]);
      try (vm_compute; reflexivity).
    vm_compute. discriminate.
  - vm_compute. repeat split.
Defined.

End SettlementFacts.
